(** * Spiralizer v2: the renderer's segment buffer and post-processing state,
      the generative music engine's scheduler and voice pool, the reactive
      analyser's beat detector and the audio-to-parameter mappings.

    The TypeScript sources are embedded shallowly.  A JavaScript [number]
    that only takes part in arithmetic and comparisons of values (ratios,
    energies, mapping results, colour and coordinate values) is an IEEE
    binary64 float, Rocq's primitive [float], so that every operation rounds
    as the engine's does.  Audio-clock times, gain values and the draws of
    [Math.random()] are rationals: the scheduler only adds, compares and
    scales them.  MIDI notes, indices, canvas sizes in CSS pixels and
    millisecond timestamps are integers; the device pixel ratio is a
    rational.

    The embedding comes first, file by file; the properties follow. *)

From stdpp Require Import base list strings gmap.
From Stdlib Require Import ZArith QArith Qround Lqa Floats Lia.
From Stdlib Require Uint63.

Set Warnings "-inexact-float".

(** ** JavaScript primitives used by the sources *)

Module JS.

Local Open Scope float_scope.

(** [Math.abs]. *)
Definition Math_abs (x : float) : float := abs x.

(** [Math.max a b]: NaN if either argument is NaN, and [+0] is larger
    than [-0]. *)
Definition Math_max (a b : float) : float :=
  if is_nan a || is_nan b then nan
  else if a <? b then b
  else if b <? a then a
  else if is_zero a && get_sign a then b else a.

(** [Math.min a b]: NaN if either argument is NaN, and [-0] is smaller
    than [+0]. *)
Definition Math_min (a b : float) : float :=
  if is_nan a || is_nan b then nan
  else if a <? b then a
  else if b <? a then b
  else if is_zero a && get_sign b then b else a.

(** [a ?? b] on an optional value. *)
Definition nullish {A} (a : option A) (b : A) : A :=
  match a with Some v => v | None => b end.

(** [Math.fround]: the value a [Float32Array] keeps when a number is stored
    in it (round to nearest binary32, ties to even). *)
Definition fround (x : float) : float :=
  match Prim2SF x with
  | S754_finite s m e =>
      SF2Prim (binary_normalize 24 128 (cond_Zopp s (Zpos m)) e s)
  | _ => x
  end.

(** [arr.copyWithin(target, start, end)] for non-negative arguments: the
    elements of [start, end) are copied to position [target]; the length
    never changes. *)
Definition copyWithin {A} (arr : list A) (target start end_ : nat) : list A :=
  let len := length arr in
  let to := Nat.min target len in
  let from := Nat.min start len in
  let final := Nat.min end_ len in
  let count := Nat.min (final - from) (len - to) in
  take to arr ++ take count (drop from arr) ++ drop (to + count) arr.

(** [Math.floor(u * n)] for a draw [u] of [Math.random()] and a length. *)
Definition floor_scaled (u : Q) (n : nat) : Z :=
  Qfloor (u * inject_Z (Z.of_nat n)).

End JS.

(** ** GenerativeEngine: helpers of the spiral music engine *)

Module MusicHelpers.

Import JS.
Local Open Scope float_scope.

(** Simple ratios to snap the FM modulator ratio toward. *)
Definition SIMPLE_RATIOS : list float :=
  [1.0; 1.25; 1.333; 1.5; 2.0; 2.5; 3.0; 4.0; 8.0].

(** The clamp at the head of [snapToSimpleRatio]. *)
Definition clamp_ratio (ratio : float) : float :=
  Math_max 1.0 (Math_min 8.0 ratio).

(** [Math.abs(clamped - r) / r]. *)
Definition relDist (clamped r : float) : float :=
  Math_abs (clamped - r) / r.

(** One turn of the loop over [SIMPLE_RATIOS]; the accumulator is
    [(best, bestDist)]. *)
Definition snap_step (clamped : float) (acc : float * float) (r : float)
  : float * float :=
  let dist := relDist clamped r in
  if dist <? snd acc then (r, dist) else acc.

Definition snap_loop (clamped : float) (rs : list float)
  (acc : float * float) : float * float :=
  fold_left (snap_step clamped) rs acc.

Definition snapToSimpleRatio (ratio : float) : float :=
  let clamped := clamp_ratio ratio in
  let best0 := nth 0 SIMPLE_RATIOS nan in
  let '(best, bestDist) := snap_loop clamped SIMPLE_RATIOS (best0, infinity) in
  (* Only snap if within 15% tolerance; otherwise return clamped (raw) value *)
  if bestDist <? 0.15 then best else clamped.

End MusicHelpers.

(** ** renderer/SpiralGeometry.ts *)

Module SpiralGeometry.

Import JS.
Local Open Scope nat_scope.

(** Max line segments held in the buffer. *)
Definition MAX_SEGMENTS : nat := Z.to_nat 50000.

(** The parts of [LineMaterial] the geometry writes. *)
Record LineMaterial := mkMaterial {
  opacity : float;
  linewidth : float;
  resolution : Z * Z
}.

(** A [SpiralGeometry]: two [Float32Array]s of [MAX_SEGMENTS * 6] floats,
    the segment count, the instance count of the [LineSegmentsGeometry], the
    [needsUpdate] marks of the two interleaved buffers, and the material
    ([null] until [addToScene]). *)
Record t := mkGeometry {
  segments : list float;
  rgbColors : list float;
  segmentCount : nat;
  instanceCount : nat;
  posNeedsUpdate : bool;
  colNeedsUpdate : bool;
  material : option LineMaterial
}.

(** [arr[i] = v] on a [Float32Array]: the value is rounded to binary32, and
    a write past the end is ignored. *)
Definition store (i : nat) (v : float) (arr : list float) : list float :=
  <[i := fround v]> arr.

(** [new SpiralGeometry()]. *)
Definition create : t :=
  {| segments := replicate (MAX_SEGMENTS * 6) 0%float;
     rgbColors := replicate (MAX_SEGMENTS * 6) 0%float;
     segmentCount := 0;
     instanceCount := 0;
     posNeedsUpdate := false;
     colNeedsUpdate := false;
     material := None |}.

(** Drop the oldest 50% of segments to make room. *)
Definition _dropOldest (g : t) : t :=
  let keep := MAX_SEGMENTS / 2 in
  let offset := MAX_SEGMENTS - keep in
  {| segments := copyWithin (segments g) 0 (offset * 6) (segmentCount g * 6);
     rgbColors := copyWithin (rgbColors g) 0 (offset * 6) (segmentCount g * 6);
     segmentCount := keep;
     instanceCount := instanceCount g;
     posNeedsUpdate := posNeedsUpdate g;
     colNeedsUpdate := colNeedsUpdate g;
     material := material g |}.

(** The arguments of one [appendSegment] call. *)
Record Segment := mkSegment {
  sx1 : float; sy1 : float;
  sx2 : float; sy2 : float;
  sr : float; sg : float; sb : float; sa : float
}.

(** Append a line segment.  Drops oldest 50% if the buffer is full. *)
Definition appendSegment (g0 : t) (s : Segment) : t :=
  let g := if MAX_SEGMENTS <=? segmentCount g0 then _dropOldest g0 else g0 in
  let si := segmentCount g * 6 in
  (* Positions *)
  let pos :=
    store (si+5) 0%float (store (si+4) (sy2 s) (store (si+3) (sx2 s)
      (store (si+2) 0%float (store (si+1) (sy1 s) (store si (sx1 s)
        (segments g)))))) in
  (* Colors (same color at both ends of segment) *)
  let col :=
    store (si+5) (sb s) (store (si+4) (sg s) (store (si+3) (sr s)
      (store (si+2) (sb s) (store (si+1) (sg s) (store si (sr s)
        (rgbColors g)))))) in
  let mat :=
    match material g with
    | Some m => Some (mkMaterial (sa s) (linewidth m) (resolution m))
    | None => None
    end in
  {| segments := pos;
     rgbColors := col;
     segmentCount := segmentCount g + 1;
     instanceCount := segmentCount g + 1;
     posNeedsUpdate := true;
     colNeedsUpdate := true;
     material := mat |}.

(** Attach the line object to the scene (call once on init). *)
Definition addToScene (g : t) (canvasWidth canvasHeight : Z) : t :=
  {| segments := segments g;
     rgbColors := rgbColors g;
     segmentCount := segmentCount g;
     instanceCount := instanceCount g;
     posNeedsUpdate := posNeedsUpdate g;
     colNeedsUpdate := colNeedsUpdate g;
     material := Some (mkMaterial 1%float 2%float (canvasWidth, canvasHeight)) |}.

(** Must be called on canvas resize so [LineMaterial] computes width
    correctly. *)
Definition setResolution (g : t) (w h : Z) : t :=
  {| segments := segments g;
     rgbColors := rgbColors g;
     segmentCount := segmentCount g;
     instanceCount := instanceCount g;
     posNeedsUpdate := posNeedsUpdate g;
     colNeedsUpdate := colNeedsUpdate g;
     material :=
       match material g with
       | Some m => Some (mkMaterial (opacity m) (linewidth m) (w, h))
       | None => None
       end |}.

(** Reset: remove all segments and clear the draw count. *)
Definition reset (g : t) : t :=
  {| segments := segments g;
     rgbColors := rgbColors g;
     segmentCount := 0;
     instanceCount := 0;
     posNeedsUpdate := true;
     colNeedsUpdate := colNeedsUpdate g;
     material := material g |}.

(** The buffer after a history of appends on a fresh geometry. *)
Definition run (history : list Segment) : t :=
  fold_left appendSegment history create.

(** What the two arrays hold for one appended segment. *)
Definition stored_form (s : Segment) : list float * list float :=
  ([fround (sx1 s); fround (sy1 s); fround 0%float;
    fround (sx2 s); fround (sy2 s); fround 0%float],
   [fround (sr s); fround (sg s); fround (sb s);
    fround (sr s); fround (sg s); fround (sb s)]).

(** The segments the geometry holds, oldest first: the six position floats
    and the six colour floats of each of the first [segmentCount] slots. *)
Definition slot (arr : list float) (i : nat) : list float :=
  take 6 (drop (i * 6) arr).

Definition contents (g : t) : list (list float * list float) :=
  (fun i => (slot (segments g) i, slot (rgbColors g) i))
    <$> seq 0 (segmentCount g).

(** The last [n] elements of a list. *)
Definition lastn {A} (n : nat) (l : list A) : list A :=
  drop (length l - n) l.

(** The abstraction used to reason about the arrays: the geometry [holds] a
    list of stored segments when its first [segmentCount] slots spell that
    list out. *)
Definition flatP (S : list (list float * list float)) : list float :=
  concat (fst <$> S).

Definition flatC (S : list (list float * list float)) : list float :=
  concat (snd <$> S).

Definition six (p : list float * list float) : Prop :=
  length (fst p) = 6 /\ length (snd p) = 6.

Record holds (g : t) (S : list (list float * list float)) : Prop := {
  holds_len_pos : length (segments g) = MAX_SEGMENTS * 6;
  holds_len_col : length (rgbColors g) = MAX_SEGMENTS * 6;
  holds_count : segmentCount g = length S;
  holds_bound : length S <= MAX_SEGMENTS;
  holds_six : Forall six S;
  holds_pos : take (length S * 6) (segments g) = flatP S;
  holds_col : take (length S * 6) (rgbColors g) = flatC S
}.


(** The effect of one append on the list of stored segments: when the
    buffer is full the oldest [MAX_SEGMENTS - MAX_SEGMENTS / 2] leave. *)
Definition evolve (S : list (list float * list float)) (s : Segment)
  : list (list float * list float) :=
  (if MAX_SEGMENTS <=? length S
   then drop (MAX_SEGMENTS - MAX_SEGMENTS / 2) S
   else S) ++ [stored_form s].

End SpiralGeometry.

(** ** The parts of three.js the renderer drives

    Pixel contents are kept symbolic: an [image] records how a surface was
    produced.  Drawing a full-screen quad with an opaque material (the
    screen quad and the copy quad) overwrites every pixel of its
    destination, so such a draw leaves the image of the quad's texture. *)

Module Three.

(** What a colour buffer holds. *)
Inductive image :=
| Unwritten
    (* freshly allocated storage *)
| Cleared (hex : Z) (alpha : float)
    (* after [renderer.clear()] with that clear colour *)
| Lines (segs : list (list float * list float)) (opacity : option float)
        (under : image)
    (* the line segments of the spiral drawn over what was there *)
| Mixed (current previous : image) (mixFactor : float)
    (* the trail blend of two textures *)
| Composed (bloom : option (float * float * float)) (chroma : option float)
           (vignette : option (float * float)) (film : option float)
           (src : image).
    (* the output of the effect composer's enabled passes *)

(** A [WebGLRenderTarget]. *)
Record RenderTarget := mkTarget {
  rtWidth : Z;
  rtHeight : Z;
  texture : image
}.

(** [target.setSize(w, h)]: a change of size disposes of the storage. *)
Definition setSize (rt : RenderTarget) (w h : Z) : RenderTarget :=
  if (rtWidth rt =? w)%Z && (rtHeight rt =? h)%Z then rt
  else mkTarget w h Unwritten.

(** The surfaces a draw can go to: [null] (the canvas) or a render target. *)
Inductive target :=
| ToScreen | ToAccum | ToTrailA | ToTrailB | ToReadBuffer.

(** The textures a material can sample. *)
Inductive textureRef := TexAccum | TexTrailA | TexTrailB.

(** The [WebGLRenderer] state the sources read and write. *)
Record WebGLRenderer := mkRenderer {
  autoClear : bool;
  clearColor : Z;
  clearAlpha : float;
  renderTarget : target;
  pixelRatio : Q;
  cssWidth : Z;
  cssHeight : Z
}.

Definition set_autoClear (b : bool) (r : WebGLRenderer) : WebGLRenderer :=
  mkRenderer b (clearColor r) (clearAlpha r) (renderTarget r)
             (pixelRatio r) (cssWidth r) (cssHeight r).

Definition setRenderTarget (t : target) (r : WebGLRenderer) : WebGLRenderer :=
  mkRenderer (autoClear r) (clearColor r) (clearAlpha r) t
             (pixelRatio r) (cssWidth r) (cssHeight r).

Definition setClearColor (hex : Z) (alpha : float) (r : WebGLRenderer)
  : WebGLRenderer :=
  mkRenderer (autoClear r) hex alpha (renderTarget r)
             (pixelRatio r) (cssWidth r) (cssHeight r).

Definition setRendererSize (w h : Z) (r : WebGLRenderer) : WebGLRenderer :=
  mkRenderer (autoClear r) (clearColor r) (clearAlpha r) (renderTarget r)
             (pixelRatio r) w h.

(** [Math.round(x)]: the nearest integer, halves going up. *)
Definition Math_round (x : Q) : Z := Qfloor (x + (1 # 2)).

(** [Math.round(size * dpr)]. *)
Definition physical (size : Z) (dpr : Q) : Z :=
  Math_round (inject_Z size * dpr).

End Three.

(** ** renderer/PostProcessor.ts *)

Module PostProcessor.

Import Three.
Local Open Scope float_scope.

(** models/types.ts, [RenderSettings]. *)
Record RenderSettings := mkSettings {
  bloomEnabled : bool;
  bloomIntensity : float;
  bloomThreshold : float;
  bloomRadius : float;
  motionTrail : float;
  chromaticAberrationEnabled : bool;
  chromaticAberration : float;
  vignetteEnabled : bool;
  vignetteIntensity : float;
  filmGrainEnabled : bool;
  filmGrain : float
}.

Record BloomPass := mkBloom {
  bloomOn : bool;
  strength : float;
  radius : float;
  threshold : float;
  bloomResolution : Z * Z
}.

Record ChromaPass := mkChroma { chromaOn : bool; amount : float }.
Record VignettePass := mkVignette { vigOn : bool; offset : float; darkness : float }.
Record FilmPass := mkFilm { filmOn : bool; intensity : float }.

(** The uniforms of the trail material. *)
Record TrailUniforms := mkUniforms {
  tDiffuse : option textureRef;
  tPrevious : option textureRef;
  mixFactor : float
}.

(** The effect composer: its size in CSS pixels and its read buffer. *)
Record Composer := mkComposer {
  composerWidth : Z;
  composerHeight : Z;
  readBuffer : image
}.

(** A [PostProcessor].  [ready] says that [init] has run: it is [init] that
    sets [renderer], [accumTarget], [composer], the copy scene, the trail
    scene and the two trail targets, all at once, and nothing unsets them. *)
Record t := mkPost {
  ready : bool;
  trailTargetA : RenderTarget;
  trailTargetB : RenderTarget;
  trailUniforms : TrailUniforms;
  (* Which target receives this frame's trail output (0=A, 1=B) *)
  trailWriteIdx : Z;
  copyMap : option textureRef;
  composer : Composer;
  bloomPass : BloomPass;
  chromaPass : ChromaPass;
  vigPass : VignettePass;
  filmPass : FilmPass
}.

(** What the post-processor shares with the [SpiralRenderer] that owns it:
    the WebGL renderer, the canvas and the accumulation target. *)
Record World := mkWorld {
  gl : WebGLRenderer;
  canvas : image;
  accumTarget : RenderTarget
}.

Definition with_gl (f : WebGLRenderer -> WebGLRenderer) (w : World) : World :=
  mkWorld (f (gl w)) (canvas w) (accumTarget w).

(** The image behind a texture reference. *)
Definition sample (w : World) (p : t) (x : textureRef) : image :=
  match x with
  | TexAccum => texture (accumTarget w)
  | TexTrailA => texture (trailTargetA p)
  | TexTrailB => texture (trailTargetB p)
  end.

Definition set_texture (img : image) (rt : RenderTarget) : RenderTarget :=
  mkTarget (rtWidth rt) (rtHeight rt) img.

Definition set_trailA (rt : RenderTarget) (p : t) : t :=
  mkPost (ready p) rt (trailTargetB p) (trailUniforms p) (trailWriteIdx p)
         (copyMap p) (composer p) (bloomPass p) (chromaPass p) (vigPass p)
         (filmPass p).

Definition set_trailB (rt : RenderTarget) (p : t) : t :=
  mkPost (ready p) (trailTargetA p) rt (trailUniforms p) (trailWriteIdx p)
         (copyMap p) (composer p) (bloomPass p) (chromaPass p) (vigPass p)
         (filmPass p).

Definition set_uniforms (u : TrailUniforms) (p : t) : t :=
  mkPost (ready p) (trailTargetA p) (trailTargetB p) u (trailWriteIdx p)
         (copyMap p) (composer p) (bloomPass p) (chromaPass p) (vigPass p)
         (filmPass p).

Definition set_trailWriteIdx (i : Z) (p : t) : t :=
  mkPost (ready p) (trailTargetA p) (trailTargetB p) (trailUniforms p) i
         (copyMap p) (composer p) (bloomPass p) (chromaPass p) (vigPass p)
         (filmPass p).

Definition set_copyMap (m : option textureRef) (p : t) : t :=
  mkPost (ready p) (trailTargetA p) (trailTargetB p) (trailUniforms p)
         (trailWriteIdx p) m (composer p) (bloomPass p) (chromaPass p)
         (vigPass p) (filmPass p).

Definition set_composer (c : Composer) (p : t) : t :=
  mkPost (ready p) (trailTargetA p) (trailTargetB p) (trailUniforms p)
         (trailWriteIdx p) (copyMap p) c (bloomPass p) (chromaPass p)
         (vigPass p) (filmPass p).

Definition set_passes (b : BloomPass) (c : ChromaPass) (v : VignettePass)
  (f : FilmPass) (p : t) : t :=
  mkPost (ready p) (trailTargetA p) (trailTargetB p) (trailUniforms p)
         (trailWriteIdx p) (copyMap p) (composer p) b c v f.

(** Store [img] in the surface the renderer currently draws to. *)
Definition write (img : image) (wp : World * t) : World * t :=
  let '(w, p) := wp in
  match renderTarget (gl w) with
  | ToScreen => (mkWorld (gl w) img (accumTarget w), p)
  | ToAccum => (mkWorld (gl w) (canvas w) (set_texture img (accumTarget w)), p)
  | ToTrailA => (w, set_trailA (set_texture img (trailTargetA p)) p)
  | ToTrailB => (w, set_trailB (set_texture img (trailTargetB p)) p)
  | ToReadBuffer =>
      (w, set_composer (mkComposer (composerWidth (composer p))
                          (composerHeight (composer p)) img) p)
  end.

(** [renderer.clear()]. *)
Definition clear_target (wp : World * t) : World * t :=
  write (Cleared (clearColor (gl (fst wp))) (clearAlpha (gl (fst wp)))) wp.

(** [new PostProcessor()] followed by [init(renderer, accumTarget, w, h)]. *)
Definition init (w : World) (width height : Z) : t :=
  let dpr := pixelRatio (gl w) in
  let physW := physical width dpr in
  let physH := physical height dpr in
  {| ready := true;
     trailTargetA := mkTarget physW physH Unwritten;
     trailTargetB := mkTarget physW physH Unwritten;
     trailUniforms := mkUniforms None None 0.0;
     trailWriteIdx := 0;
     copyMap := None;
     composer := mkComposer width height Unwritten;
     bloomPass := mkBloom false 0.5 0.4 0.85 (width, height);
     chromaPass := mkChroma false 0.005;
     vigPass := mkVignette false 1.0 1.0;
     filmPass := mkFilm false 0.5 |}.

(** The motion trail blend of [render]. *)
Definition trail_blend (settings : RenderSettings) (wp : World * t)
  : World * t * textureRef :=
  let '(w, p) := wp in
  if 0 <? motionTrail settings then
    let prevTex := if (trailWriteIdx p =? 0)%Z then TexTrailB else TexTrailA in
    let currTex := if (trailWriteIdx p =? 0)%Z then TexTrailA else TexTrailB in
    let currTarget := if (trailWriteIdx p =? 0)%Z then ToTrailA else ToTrailB in
    let p := set_uniforms
               (mkUniforms (Some TexAccum) (Some prevTex) (motionTrail settings)) p in
    let w := with_gl (set_autoClear true) w in
    let w := with_gl (setRenderTarget currTarget) w in
    let '(w, p) :=
      write (Mixed (sample w p TexAccum) (sample w p prevTex)
                   (motionTrail settings)) (w, p) in
    let w := with_gl (setRenderTarget ToScreen) w in
    (* Advance ping-pong index and use the freshly written target as source *)
    let p := set_trailWriteIdx (1 - trailWriteIdx p)%Z p in
    (w, p, currTex)
  else (w, p, TexAccum).

(** The update of the pass parameters in [render]. *)
Definition update_passes (settings : RenderSettings) (p : t) : t :=
  let b := bloomPass p in
  let b :=
    if bloomEnabled settings
    then mkBloom true (bloomIntensity settings) (bloomRadius settings)
                 (bloomThreshold settings) (bloomResolution b)
    else mkBloom false (strength b) (radius b) (threshold b) (bloomResolution b) in
  let c := chromaPass p in
  let c :=
    if chromaticAberrationEnabled settings
    then mkChroma true (chromaticAberration settings * 0.02)
    else mkChroma false (amount c) in
  let v := vigPass p in
  let v :=
    if vignetteEnabled settings
    then mkVignette true 1.0 (vignetteIntensity settings * 2)
    else mkVignette false (offset v) (darkness v) in
  let f := filmPass p in
  let f :=
    if filmGrainEnabled settings
    then mkFilm true (filmGrain settings)
    else mkFilm false (intensity f) in
  set_passes b c v f p.

(** [composer.render()]: the enabled passes applied to the read buffer, to
    the screen. *)
Definition composer_output (p : t) : image :=
  Composed
    (if bloomOn (bloomPass p)
     then Some (strength (bloomPass p), radius (bloomPass p), threshold (bloomPass p))
     else None)
    (if chromaOn (chromaPass p) then Some (amount (chromaPass p)) else None)
    (if vigOn (vigPass p)
     then Some (offset (vigPass p), darkness (vigPass p)) else None)
    (if filmOn (filmPass p) then Some (intensity (filmPass p)) else None)
    (readBuffer (composer p)).

(** Render through the post-processing stack to screen. *)
Definition render (w : World) (p : t) (settings : RenderSettings) : World * t :=
  if negb (ready p) then (w, p) else
  let '(w, p, sourceTexture) := trail_blend settings (w, p) in
  let p := update_passes settings p in
  let anyPassEnabled :=
    bloomOn (bloomPass p) || chromaOn (chromaPass p)
    || vigOn (vigPass p) || filmOn (filmPass p) in
  (* Seed composer.readBuffer with current source texture *)
  let p := set_copyMap (Some sourceTexture) p in
  let w := with_gl (set_autoClear true) w in
  let w := with_gl (setRenderTarget ToReadBuffer) w in
  let '(w, p) := write (sample w p sourceTexture) (w, p) in
  if anyPassEnabled then
    let w := with_gl (set_autoClear false) w in
    (mkWorld (gl w) (composer_output p) (accumTarget w), p)
  else
    let w := with_gl (set_autoClear true) w in
    let w := with_gl (setRenderTarget ToScreen) w in
    write (sample w p sourceTexture) (w, p).

Definition resize (w : World) (p : t) (width height : Z) : t :=
  if negb (ready p) then p else
  let dpr := pixelRatio (gl w) in
  let physW := physical width dpr in
  let physH := physical height dpr in
  let p := set_trailA (setSize (trailTargetA p) physW physH) p in
  let p := set_trailB (setSize (trailTargetB p) physW physH) p in
  let c := composer p in
  let p :=
    set_composer
      (if (composerWidth c =? width)%Z && (composerHeight c =? height)%Z
       then c else mkComposer width height Unwritten) p in
  let b := bloomPass p in
  set_passes (mkBloom (bloomOn b) (strength b) (radius b) (threshold b)
                      (width, height))
             (chromaPass p) (vigPass p) (filmPass p) p.

(** Clear both trail buffers; call when the spiral canvas is cleared. *)
Definition clearTrail (w : World) (p : t) : World * t :=
  if negb (ready p) then (w, p) else
  let prev := renderTarget (gl w) in
  let w := with_gl (set_autoClear true) w in
  let '(w, p) := clear_target (with_gl (setRenderTarget ToTrailA) w, p) in
  let '(w, p) := clear_target (with_gl (setRenderTarget ToTrailB) w, p) in
  let w := with_gl (setRenderTarget prev) w in
  (w, set_trailWriteIdx 0 p).

End PostProcessor.

(** ** renderer/SpiralRenderer.ts *)

Module SpiralRenderer.

Import Three.

(** The orthographic camera's frustum. *)
Record Camera := mkCamera {
  left : Q; right : Q; top : Q; bottom : Q
}.

(** A [SpiralRenderer] after [init]: the world it shares with its
    post-processor, its camera, its size in CSS pixels, its geometry, and
    the post-processor and render settings ([null] until
    [initPostProcessing]). *)
Record t := mkSpiral {
  world : PostProcessor.World;
  camera : Camera;
  width : Z;
  height : Z;
  _geometry : SpiralGeometry.t;
  postProcessor : option PostProcessor.t;
  renderSettings : option PostProcessor.RenderSettings
}.

Definition _makeOrthoCam (w h : Z) : Camera :=
  let hw := (inject_Z w / 2)%Q in
  let hh := (inject_Z h / 2)%Q in
  mkCamera (- hw)%Q hw hh (- hh)%Q.

(** [init(canvas)] for a canvas of the given CSS size on a display of the
    given pixel ratio. *)
Definition init (w h : Z) (dpr : Q) : t :=
  let r := mkRenderer true 0 1%float ToScreen dpr w h in
  {| world :=
       PostProcessor.mkWorld r Unwritten
         (mkTarget (physical w dpr) (physical h dpr) Unwritten);
     camera := _makeOrthoCam w h;
     width := w;
     height := h;
     _geometry := SpiralGeometry.addToScene SpiralGeometry.create w h;
     postProcessor := None;
     renderSettings := None |}.

(** Initialise the PostProcessor. *)
Definition initPostProcessing (s : t) (settings : PostProcessor.RenderSettings) : t :=
  mkSpiral (world s) (camera s) (width s) (height s) (_geometry s)
    (Some (PostProcessor.init (world s) (width s) (height s)))
    (Some settings).

Definition _allEffectsOff (s : PostProcessor.RenderSettings) : bool :=
  negb (PostProcessor.bloomEnabled s)
  && negb (PostProcessor.chromaticAberrationEnabled s)
  && negb (PostProcessor.vignetteEnabled s)
  && negb (PostProcessor.filmGrainEnabled s)
  && (PostProcessor.motionTrail s =? 0)%float.

Definition resize (s : t) (w h : Z) : t :=
  if (w =? width s)%Z && (h =? height s)%Z then s else
  let world1 := PostProcessor.with_gl (setRendererSize w h) (world s) in
  (* Update camera (world units = CSS pixels) *)
  let cam := _makeOrthoCam w h in
  (* Resize accumTarget to physical pixel resolution *)
  let dpr := pixelRatio (PostProcessor.gl world1) in
  let world2 :=
    PostProcessor.mkWorld (PostProcessor.gl world1) (PostProcessor.canvas world1)
      (setSize (PostProcessor.accumTarget world1)
               (physical w dpr) (physical h dpr)) in
  mkSpiral world2 cam w h
    (SpiralGeometry.setResolution (_geometry s) w h)
    (option_map (fun p => PostProcessor.resize world2 p w h) (postProcessor s))
    (renderSettings s).

(** Add a line segment to the accumulation buffer. *)
Definition addLineSegment (s : t) (seg : SpiralGeometry.Segment) : t :=
  mkSpiral (world s) (camera s) (width s) (height s)
    (SpiralGeometry.appendSegment (_geometry s) seg)
    (postProcessor s) (renderSettings s).

(** The image of the main scene drawn on the current target: the lines of
    the geometry, over the old content unless [autoClear] is set. *)
Definition draw_scene (s : t) (w : PostProcessor.World) : PostProcessor.World :=
  let under :=
    if autoClear (PostProcessor.gl w)
    then Cleared (clearColor (PostProcessor.gl w)) (clearAlpha (PostProcessor.gl w))
    else texture (PostProcessor.accumTarget w) in
  PostProcessor.mkWorld (PostProcessor.gl w) (PostProcessor.canvas w)
    (PostProcessor.set_texture
       (Lines (SpiralGeometry.contents (_geometry s))
              (option_map SpiralGeometry.opacity (SpiralGeometry.material (_geometry s)))
              under)
       (PostProcessor.accumTarget w)).

(** The blit of the screen quad, whose map is the accumulation texture, on
    the canvas. *)
Definition blit_screen (w : PostProcessor.World) : PostProcessor.World :=
  PostProcessor.mkWorld (PostProcessor.gl w)
    (texture (PostProcessor.accumTarget w)) (PostProcessor.accumTarget w).

(** Render the current geometry into the accumulation target (without
    clearing it), then output to screen. *)
Definition render (s : t) : t :=
  (* 1. Render incremental geometry into accumTarget (NO autoClear) *)
  let w := PostProcessor.with_gl (set_autoClear false) (world s) in
  let w := PostProcessor.with_gl (setRenderTarget ToAccum) w in
  let w := draw_scene s w in
  (* 2. Output to screen *)
  match postProcessor s, renderSettings s with
  | Some p, Some settings =>
      if negb (_allEffectsOff settings) then
        let '(w, p) := PostProcessor.render w p settings in
        mkSpiral w (camera s) (width s) (height s) (_geometry s)
                 (Some p) (renderSettings s)
      else
        let w := PostProcessor.with_gl (setRenderTarget ToScreen) w in
        let w := PostProcessor.with_gl (set_autoClear true) w in
        mkSpiral (blit_screen w) (camera s) (width s) (height s) (_geometry s)
                 (postProcessor s) (renderSettings s)
  | _, _ =>
      let w := PostProcessor.with_gl (setRenderTarget ToScreen) w in
      let w := PostProcessor.with_gl (set_autoClear true) w in
      mkSpiral (blit_screen w) (camera s) (width s) (height s) (_geometry s)
               (postProcessor s) (renderSettings s)
  end.

(** Clear the spiral canvas (resets accumulation buffer and trail to black). *)
Definition clear (s : t) : t :=
  let g := SpiralGeometry.reset (_geometry s) in
  let w := PostProcessor.with_gl (setRenderTarget ToAccum) (world s) in
  let w := PostProcessor.with_gl (setClearColor 0 1%float) w in
  let w :=
    PostProcessor.mkWorld (PostProcessor.gl w) (PostProcessor.canvas w)
      (PostProcessor.set_texture
         (Cleared (clearColor (PostProcessor.gl w)) (clearAlpha (PostProcessor.gl w)))
         (PostProcessor.accumTarget w)) in
  let w := PostProcessor.with_gl (setRenderTarget ToScreen) w in
  let w := blit_screen w in
  match postProcessor s with
  | Some p =>
      let '(w, p) := PostProcessor.clearTrail w p in
      mkSpiral w (camera s) (width s) (height s) g (Some p) (renderSettings s)
  | None =>
      mkSpiral w (camera s) (width s) (height s) g None (renderSettings s)
  end.



End SpiralRenderer.

(** ** Rationals as the sources compare them *)

Module QOps.

(** [a < b]. *)
Definition Qltb (a b : Q) : bool :=
  (Qnum a * QDen b <? Qnum b * QDen a)%Z.

(** [Math.max(a, b)] on rationals. *)
Definition Qmax2 (a b : Q) : Q := if Qltb a b then b else a.

(** [Math.min(a, b)] on rationals. *)
Definition Qmin2 (a b : Q) : Q := if Qltb b a then b else a.

End QOps.

(** ** The Web Audio automation the engine schedules

    An [AudioParam] is its timeline of automation events, in time order.
    Only the calls the modelled code makes are here. *)

Module WebAudio.

Import QOps.

Inductive ParamEvent :=
| SetValue (value time : Q)       (* setValueAtTime *)
| LinearRamp (value time : Q).    (* linearRampToValueAtTime *)

Definition ev_time (e : ParamEvent) : Q :=
  match e with SetValue _ t | LinearRamp _ t => t end.

Definition ev_value (e : ParamEvent) : Q :=
  match e with SetValue v _ | LinearRamp v _ => v end.

(** [defaultValue] is the value the parameter was created with
    ([gain.gain.value = 0]). *)
Record AudioParam := mkParam {
  defaultValue : Q;
  events : list ParamEvent
}.

(** [param.cancelScheduledValues(t)]: drops every event at or after [t]. *)
Definition cancelScheduledValues (t : Q) (p : AudioParam) : AudioParam :=
  mkParam (defaultValue p) (filter (fun e => Qltb (ev_time e) t = true) (events p)).

(** An event goes after the events that are not later than it. *)
Fixpoint insert_event (e : ParamEvent) (evs : list ParamEvent)
  : list ParamEvent :=
  match evs with
  | [] => [e]
  | x :: rest =>
      if Qltb (ev_time e) (ev_time x) then e :: x :: rest
      else x :: insert_event e rest
  end.

Definition setValueAtTime (v t : Q) (p : AudioParam) : AudioParam :=
  mkParam (defaultValue p) (insert_event (SetValue v t) (events p)).

Definition linearRampToValueAtTime (v t : Q) (p : AudioParam) : AudioParam :=
  mkParam (defaultValue p) (insert_event (LinearRamp v t) (events p)).

(** The value of the timeline at time [t], from the value [v0] reached at
    time [t0]: an event in the past sets the value; the first event in the
    future, when it is a ramp, is being approached linearly. *)
Fixpoint value_from (v0 t0 : Q) (evs : list ParamEvent) (t : Q) : Q :=
  match evs with
  | [] => v0
  | e :: rest =>
      if Qltb t (ev_time e) then
        match e with
        | LinearRamp v te => v0 + (v - v0) * ((t - t0) / (te - t0))
        | SetValue _ _ => v0
        end
      else value_from (ev_value e) (ev_time e) rest t
  end.

Definition valueAt (p : AudioParam) (t : Q) : Q :=
  value_from (defaultValue p) 0 (events p) t.

End WebAudio.

(** ** audio/GenerativeEngine.ts: the engine *)

Module SpiralMusicEngine.

Import JS QOps WebAudio.
Local Open Scope Q_scope.

(** Scale definitions (the one the engine starts with). *)
Definition pentatonic_minor : list Z := [0; 3; 5; 7; 10]%Z.

(** A voice of the pool.  [vid] stands for the identity of the JavaScript
    object, which a pending timer keeps hold of; the oscillator, whose
    frequency no claim observes, is left out. *)
Record Voice := mkVoice {
  vid : nat;
  gain : AudioParam;
  busy : bool
}.

(** The fields of [AudioState] the scheduler reads. *)
Record AudioState := mkAudioState {
  musicDensity : Q;
  droneEnabled : bool;
  melodyEnabled : bool;
  sparkleEnabled : bool
}.

Record NextTime := mkNextTime { drone : Q; melody : Q; sparkle : Q }.

Inductive Layer := Drone | Melody | Sparkle.

(** What the audio context shows during a scheduler tick: [currentTime]
    and the state as the interval callback reads them, and [laterTime l],
    the [currentTime] that the [_schedule...] method of layer [l] reads
    again when it is called. *)
Record Clock := mkClock {
  currentTime : Q;
  suspended : bool;
  laterTime : Layer -> Q
}.

(** A clock that shows the same time at every reading of a tick. *)
Definition steady (now : Q) : Clock := mkClock now false (fun _ => now).

(** The engine.  [ctx], [masterGain], [config] and [noise] say whether the
    field is non-null ([noise] for the noise buffer, filter and gain, which
    [init] creates together); [timers] are the pending [setTimeout]
    callbacks, each a delay in milliseconds and the voice to free.  The FM
    pad voices and every frequency automation are left out: they take no
    part in the scheduling clocks or in the pool. *)
Record t := mkEngine {
  ctx : bool;
  masterGain : bool;
  voicePool : list Voice;
  lastMelodyMidi : Z;
  noise : bool;
  noiseGain : AudioParam;
  currentScale : list Z;
  rootMidi : Z;
  schedInterval : bool;
  nextTime : NextTime;
  config : bool;
  audioState : option AudioState;
  timers : list (Q * nat);
  nextVid : nat
}.

Definition LOOKAHEAD : Q := 0.025.
Definition SCHED_MS : Q := 10.

(** [new SpiralMusicEngine()]. *)
Definition create : t :=
  {| ctx := false; masterGain := false; voicePool := [];
     lastMelodyMidi := 60; noise := false; noiseGain := mkParam 0 [];
     currentScale := pentatonic_minor; rootMidi := 60;
     schedInterval := false; nextTime := mkNextTime 0 0 0;
     config := false; audioState := None; timers := []; nextVid := 0 |}.

Definition set_pool (pool : list Voice) (e : t) : t :=
  mkEngine (ctx e) (masterGain e) pool (lastMelodyMidi e) (noise e)
    (noiseGain e) (currentScale e) (rootMidi e) (schedInterval e)
    (nextTime e) (config e) (audioState e) (timers e) (nextVid e).

Definition set_lastMelodyMidi (m : Z) (e : t) : t :=
  mkEngine (ctx e) (masterGain e) (voicePool e) m (noise e)
    (noiseGain e) (currentScale e) (rootMidi e) (schedInterval e)
    (nextTime e) (config e) (audioState e) (timers e) (nextVid e).

Definition set_noiseGain (p : AudioParam) (e : t) : t :=
  mkEngine (ctx e) (masterGain e) (voicePool e) (lastMelodyMidi e) (noise e)
    p (currentScale e) (rootMidi e) (schedInterval e)
    (nextTime e) (config e) (audioState e) (timers e) (nextVid e).

Definition set_nextTime (n : NextTime) (e : t) : t :=
  mkEngine (ctx e) (masterGain e) (voicePool e) (lastMelodyMidi e) (noise e)
    (noiseGain e) (currentScale e) (rootMidi e) (schedInterval e)
    n (config e) (audioState e) (timers e) (nextVid e).

Definition add_timer (delay : Q) (v : nat) (e : t) : t :=
  mkEngine (ctx e) (masterGain e) (voicePool e) (lastMelodyMidi e) (noise e)
    (noiseGain e) (currentScale e) (rootMidi e) (schedInterval e)
    (nextTime e) (config e) (audioState e) (timers e ++ [(delay, v)])
    (nextVid e).

(** The six pool voices [init] pushes, numbered from [n]. *)
Definition fresh_voices (n : nat) : list Voice :=
  (fun i => mkVoice (n + i) (mkParam 0 []) false) <$> seq 0 6.

(** [init(ctx)]: nothing when already initialised; else the graph is
    built, six voices are pushed on the pool and the scheduler starts. *)
Definition init (e : t) : t :=
  if masterGain e then e else
  mkEngine true true (voicePool e ++ fresh_voices (nextVid e))
    (lastMelodyMidi e) true (mkParam 0 [])
    (currentScale e) (rootMidi e) true
    (nextTime e) (config e) (audioState e) (timers e) (nextVid e + 6).

(** [dispose()]. *)
Definition dispose (e : t) : t :=
  mkEngine false false [] (lastMelodyMidi e) (noise e) (noiseGain e)
    (currentScale e) (rootMidi e) false
    (nextTime e) false None (timers e) (nextVid e).

(** A pending [setTimeout(() => { voice.busy = false }, ...)] fires. *)
Definition free_voice (v : nat) (pool : list Voice) : list Voice :=
  (fun x => if Nat.eqb (vid x) v then mkVoice (vid x) (gain x) false else x)
    <$> pool.

Definition fire_timer (k : nat) (e : t) : t :=
  match timers e !! k with
  | Some (_, v) =>
      mkEngine (ctx e) (masterGain e) (free_voice v (voicePool e))
        (lastMelodyMidi e) (noise e) (noiseGain e) (currentScale e)
        (rootMidi e) (schedInterval e) (nextTime e) (config e)
        (audioState e) (delete k (timers e)) (nextVid e)
  | None => e
  end.

(** *** Musical helpers *)

Local Open Scope Z_scope.

(** The candidate notes of [_nextMelodyNote]: the scale over the octaves
    -1..2 around the root, within MIDI 48..84. *)
Definition candidates_of (root : Z) (scale : list Z) : list Z :=
  oct ← [-1; 0; 1; 2];
  filter (fun midi => 48 <= midi /\ midi <= 84)
         ((fun interval => root + oct * 12 + interval) <$> scale).

Definition stepwise_of (last : Z) (candidates : list Z) : list Z :=
  filter (fun n => Z.abs (n - last) <= 5 /\ n <> last) candidates.

Definition leaps_of (last : Z) (candidates : list Z) : list Z :=
  filter (fun n => Z.abs (n - last) > 5 /\ n <> last) candidates.

(** [arr[Math.floor(u * arr.length)]]; [None] is [undefined]. *)
Definition pick {A} (u : Q) (arr : list A) : option A :=
  let i := floor_scaled u (length arr) in
  if i <? 0 then None else arr !! Z.to_nat i.

(** [_nextMelodyNote()], with the two draws of [Math.random()] it makes;
    [None] is [undefined]. *)
Definition _nextMelodyNote (e : t) (u1 u2 : Q) : option Z :=
  let last := lastMelodyMidi e in
  let candidates := candidates_of (rootMidi e) (currentScale e) in
  if (length candidates =? 0)%nat then Some 60 else
  (* 70% stepwise (<= 5 semitones from last), 30% leap *)
  let stepwise := stepwise_of last candidates in
  let leaps := leaps_of last candidates in
  let pool :=
    if Qltb u1 0.7 && (0 <? length stepwise)%nat then stepwise
    else if (0 <? length leaps)%nat then leaps
    else candidates in
  pick u2 pool.

Local Open Scope Q_scope.

(** *** The voice pool *)

(** Silence immediately. *)
Definition silence (now : Q) (v : Voice) : Voice :=
  mkVoice (vid v)
    (setValueAtTime 0 now (cancelScheduledValues now (gain v))) true.

(** [_claimVoice(now)]: the index of the claimed voice in the pool and the
    engine after the claim; [u] is the draw [Math.random()] makes when no
    voice is free.  [None] is the [TypeError] of reading [gain] of
    [undefined]. *)
Definition _claimVoice (now u : Q) (e : t) : option (nat * t) :=
  match list_find (fun v => busy v = false) (voicePool e) with
  | Some (i, free) =>
      Some (i, set_pool (<[i := mkVoice (vid free) (gain free) true]> (voicePool e)) e)
  | None =>
      (* All busy *)
      match pick u (voicePool e) with
      | Some stolen =>
          let i := Z.to_nat (floor_scaled u (length (voicePool e))) in
          Some (i, set_pool (<[i := silence now stolen]> (voicePool e)) e)
      | None => None
      end
  end.

(** Whether a claim draws a random number. *)
Definition claim_draws (e : t) : nat :=
  match list_find (fun v => busy v = false) (voicePool e) with
  | Some _ => 0
  | None => 1
  end.

(** The envelope [_scheduleMelody] puts on a voice's gain: silence at
    [now], a ramp to [peak] over the attack, a plateau that ends at
    [plateau] after [hold], a ramp to zero over the release. *)
Definition envelope (now attack hold release peak plateau : Q)
  (p : AudioParam) : AudioParam :=
  linearRampToValueAtTime 0 (now + attack + hold + release)
    (setValueAtTime plateau (now + attack + hold)
      (linearRampToValueAtTime peak (now + attack)
        (setValueAtTime 0 now
          (cancelScheduledValues now p)))).

Definition shape_voice (i : nat) (f : AudioParam -> AudioParam) (e : t) : t :=
  match voicePool e !! i with
  | Some v => set_pool (<[i := mkVoice (vid v) (f (gain v)) (busy v)]> (voicePool e)) e
  | None => e
  end.

Definition vid_at (i : nat) (e : t) : nat :=
  match voicePool e !! i with Some v => vid v | None => 0%nat end.

Section Scheduling.

(** The draws of [Math.random()] during one tick, in order, and
    [Math.log]: the scheduling clocks depend on neither beyond the range
    of the draws. *)
Variable rnd : nat -> Q.
Variable ln : Q -> Q.

(** Poisson inter-arrival time: -mean * ln(U). *)
Definition exponentialRandom (mean u : Q) : Q :=
  - mean * ln (Qmax2 (1 # 1000000000) u).

(** Layer A.  The retrigger of the two FM voices is left out. *)
Definition _scheduleDrone (c : Clock) (e : t) : t :=
  match ctx e, audioState e with
  | true, Some a =>
      let now := Qmax2 (laterTime c Drone) (drone (nextTime e)) in
      let density := musicDensity a in
      (* Drone retriggers every 8-20s, less often when sparse *)
      let interval := 8 + (1 - density) * 12 in
      set_nextTime
        (mkNextTime (now + interval) (melody (nextTime e)) (sparkle (nextTime e))) e
  | _, _ => e
  end.

(** An extra partial of a melody note: a voice claimed from the pool, a
    shorter envelope, and the timer that frees the voice. *)
Definition partial (now attack sustain release peak : Q) (p : Z)
  (st : t * nat) : option (t * nat) :=
  let '(e, k) := st in
  let partialGain := peak * 0.55 ^ p in
  match _claimVoice now (rnd k) e with
  | Some (j, e1) =>
      let e2 :=
        shape_voice j
          (envelope now attack (sustain * 0.6) release partialGain
                    (partialGain * 0.8)) e1 in
      (* Mark free after note ends *)
      let releaseEnd := attack + sustain * 0.6 + release in
      Some (add_timer (releaseEnd * 1000 + 50) (vid_at j e2) e2,
            (k + claim_draws e)%nat)
  | None => None
  end.

(** Layer B.  [k] counts the draws made so far in the tick. *)
Definition _scheduleMelody (c : Clock) (st : t * nat) : option (t * nat) :=
  let '(e, k) := st in
  match ctx e, config e, audioState e with
  | true, true, Some a =>
      let now := Qmax2 (laterTime c Melody) (melody (nextTime e)) in
      let density := musicDensity a in
      (* Note interval: 1.5s-6s inversely related to density *)
      let interval := 1.5 + (1 - density) * 4.5 in
      (* Next note via voice leading *)
      match _nextMelodyNote e (rnd k) (rnd (k + 1)) with
      | None => None
      | Some nextMidi =>
          let e := set_lastMelodyMidi nextMidi e in
          let k := (k + 2)%nat in
          (* Find a free voice; steal a voice if all busy *)
          match _claimVoice now (rnd k) e with
          | None => None
          | Some (i, e1) =>
              let k := (k + claim_draws e)%nat in
              let attack := 0.08 in
              let sustain := interval * 0.5 + 0.3 in
              let release := 0.45 in
              let peak := 0.12 in
              (* Main voice uses claimed voice slot *)
              let e2 :=
                shape_voice i
                  (envelope now attack sustain release (peak * 0.55 ^ 0)
                            (peak * 0.55 ^ 0)) e1 in
              let main := vid_at i e2 in
              (* Extra partials get short-lived voices from pool *)
              match partial now attack sustain release peak 1 (e2, k) with
              | None => None
              | Some st3 =>
                  match partial now attack sustain release peak 2 st3 with
                  | None => None
                  | Some (e4, k) =>
                      (* Mark main voice free after note ends *)
                      let totalDur := attack + sustain + release in
                      let e5 := add_timer (totalDur * 1000 + 50) main e4 in
                      Some (set_nextTime
                              (mkNextTime (drone (nextTime e5)) (now + interval)
                                          (sparkle (nextTime e5))) e5, k)
                  end
              end
          end
      end
  | _, _, _ => Some (e, k)
  end.

(** Layer C.  The burst's buffer source and filter tuning are left out;
    the five draws are the Poisson interval, the two of
    [_randomScaleNote], the burst duration and the peak gain. *)
Definition _scheduleSparkle (c : Clock) (st : t * nat) : t * nat :=
  let '(e, k) := st in
  match ctx e, audioState e, noise e with
  | true, Some a, true =>
      let now := Qmax2 (laterTime c Sparkle) (sparkle (nextTime e)) in
      let density := musicDensity a in
      (* Poisson inter-arrival: mean 0.5-3s depending on density *)
      let mean := 0.5 + (1 - density) * 2.5 in
      let interval := exponentialRandom mean (rnd k) in
      (* Short burst: 30-150ms *)
      let burstDur := 0.03 + rnd (k + 3) * 0.12 in
      let peakGain := 0.07 + rnd (k + 4) * 0.08 in
      let g :=
        linearRampToValueAtTime 0 (now + burstDur)
          (linearRampToValueAtTime peakGain (now + 0.004)
            (setValueAtTime 0 now
              (cancelScheduledValues now (noiseGain e)))) in
      let e := set_noiseGain g e in
      (set_nextTime
         (mkNextTime (drone (nextTime e)) (melody (nextTime e))
                     (now + Qmax2 0.1 interval)) e,
       (k + 5)%nat)
  | _, _, _ => (e, k)
  end.

(** One firing of the interval callback that [_runScheduler] installs
    (every [SCHED_MS] milliseconds).  The result is the
    engine after the tick with the layers whose [_schedule...] method was
    called, in call order; [None] is an exception thrown on the way. *)
Definition scheduler_tick (c : Clock) (e : t) : option (t * list Layer) :=
  match ctx e, config e, audioState e with
  | true, true, Some a =>
      if suspended c then Some (e, []) else
      let now := currentTime c in
      let lookahead := now + LOOKAHEAD in
      let '(e1, log1) :=
        if droneEnabled a && Qltb (drone (nextTime e)) lookahead
        then (_scheduleDrone c e, [Drone]) else (e, []) in
      match
        (if melodyEnabled a && Qltb (melody (nextTime e1)) lookahead
         then option_map (fun r => (r, [Melody])) (_scheduleMelody c (e1, 0%nat))
         else Some ((e1, 0%nat), []))
      with
      | None => None
      | Some ((e2, k), log2) =>
          let '(e3, log3) :=
            if sparkleEnabled a && Qltb (sparkle (nextTime e2)) lookahead
            then (fst (_scheduleSparkle c (e2, k)), [Sparkle]) else (e2, []) in
          Some (e3, log1 ++ log2 ++ log3)
      end
  | _, _, _ => Some (e, [])
  end.

End Scheduling.

(** The time a layer's clock shows. *)
Definition next_of (l : Layer) (e : t) : Q :=
  match l with
  | Drone => drone (nextTime e)
  | Melody => melody (nextTime e)
  | Sparkle => sparkle (nextTime e)
  end.

(** The number of busy voices. *)
Definition busyVoices (e : t) : nat :=
  length (filter (fun v => busy v = true) (voicePool e)).

(** The per-frame [tick(config, audioState, ctx)] stores the configuration
    and the audio state and derives root and scale from the configuration.
    The derivations are not modelled: a frame tick may leave any root and
    any scale. *)
Definition frame_tick (a : AudioState) (root : Z) (scale : list Z) (e : t) : t :=
  if masterGain e then
    mkEngine (ctx e) (masterGain e) (voicePool e) (lastMelodyMidi e) (noise e)
      (noiseGain e) scale root (schedInterval e)
      (nextTime e) true (Some a) (timers e) (nextVid e)
  else e.

(** The life of an engine: every way its state changes. *)
Inductive step : t -> t -> Prop :=
| step_init e : step e (init e)
| step_dispose e : step e (dispose e)
| step_frame e a root scale : step e (frame_tick a root scale e)
| step_timer e k : step e (fire_timer k e)
| step_scheduler e c rnd ln e' log :
    schedInterval e = true ->
    (forall n, 0 <= rnd n /\ rnd n < 1) ->
    scheduler_tick rnd ln c e = Some (e', log) ->
    step e e'.

Inductive reachable : t -> Prop :=
| reach_create : reachable create
| reach_step e e' : reachable e -> step e e' -> reachable e'.


(** *** Vocabulary of the properties *)

(** What the operations on the pool leave alone. *)
Record frame (e e' : t) : Prop := {
  frame_ctx : ctx e' = ctx e;
  frame_masterGain : masterGain e' = masterGain e;
  frame_sched : schedInterval e' = schedInterval e;
  frame_config : config e' = config e;
  frame_audioState : audioState e' = audioState e;
  frame_noise : noise e' = noise e;
  frame_pool : length (voicePool e') = length (voicePool e)
}.

(** What holds of every engine: the context, the master gain and the
    scheduler are set and unset together, and the pool has its six voices
    exactly while they are set. *)
Record invariant (e : t) : Prop := {
  inv_ctx : ctx e = masterGain e;
  inv_sched : schedInterval e = masterGain e;
  inv_pool : if masterGain e then length (voicePool e) = 6%nat
             else voicePool e = []
}.

(** The least time a layer's clock advances by when the layer is
    scheduled. *)
Definition min_gap (l : Layer) (a : AudioState) : Q :=
  match l with
  | Drone => 8 + (1 - musicDensity a) * 12
  | Melody => 1.5 + (1 - musicDensity a) * 4.5
  | Sparkle => 0.1
  end.

(** What a tick does to the clock of layer [l]. *)
Definition clock_rule (c : Clock) (e e' : t) (log : list Layer) (l : Layer)
  : Prop :=
  (l ∈ log -> next_of l e < currentTime c + LOOKAHEAD)
  /\ (l ∉ log -> next_of l e' = next_of l e)
  /\ (next_of l e' = next_of l e
      \/ exists a gap,
           audioState e = Some a /\ min_gap l a <= gap
           /\ next_of l e' = Qmax2 (laterTime c l) (next_of l e) + gap).

(** A run of the engine during which the density control is at most 1
    whenever a step is taken. *)
Inductive run_of : t -> t -> Prop :=
| run_here e : run_of e e
| run_more e e1 e2 :
    run_of e e1 ->
    (forall a, audioState e1 = Some a -> musicDensity a <= 1) ->
    step e1 e2 ->
    run_of e e2.

(** An engine that was initialised and has seen one frame tick, at half
    density with the three layers enabled. *)
Definition sample_engine : t :=
  frame_tick (mkAudioState 0.5 true true true) 60 pentatonic_minor (init create).

(** An engine whose root has drifted to 72 while the last melody note was
    48: every candidate note is 12 semitones or more away. *)
Definition far_engine : t :=
  set_lastMelodyMidi 48
    (frame_tick (mkAudioState 0.5 true true true) 72 pentatonic_minor
                (init create)).

End SpiralMusicEngine.

(** ** audio/ReactiveEngine.ts *)

Module ReactiveEngine.

Import JS.
Local Open Scope float_scope.

Definition BEAT_THRESHOLD : float := 1.5.
Definition BEAT_COOLDOWN_MS : Z := 200.
Definition ENERGY_HISTORY_LEN : nat := 60.

(** An integer as a JavaScript number (exact below 2^53). *)
Definition number_of_Z (z : Z) : float :=
  if (z <? 0)%Z then - of_uint63 (Uint63.of_Z (- z))
  else of_uint63 (Uint63.of_Z z).

Definition number_of_nat (n : nat) : float := number_of_Z (Z.of_nat n).

(** The analyser ([connected] when it exists), the byte frequency data,
    the rolling energy history and the time of the last beat, in
    milliseconds. *)
Record t := mkReactive {
  connected : bool;
  frequencyData : list Z;
  energyHistory : list float;
  lastBeatTime : Z
}.

Definition create : t := mkReactive false [] [] 0.

(** [arr.reduce((s, v) => s + v, 0)]. *)
Definition sum (l : list float) : float :=
  fold_left (fun s v => s + v) l 0.

Definition _sliceEnergy (e : t) (start end_ : nat) : float :=
  if (end_ <=? start)%nat || (length (frequencyData e) =? 0)%nat then 0
  else
    sum (number_of_Z <$> take (end_ - start) (drop start (frequencyData e)))
    / (number_of_nat (end_ - start) * 255).

(** Read FFT snapshot + update beat detector; [snapshot] is what the
    analyser writes into the frequency data. *)
Definition update (snapshot : list Z) (e : t) : t :=
  if negb (connected e) then e else
  let e1 := mkReactive (connected e) snapshot (energyHistory e) (lastBeatTime e) in
  let energy := _sliceEnergy e1 0 (length (frequencyData e1)) in
  let h := energyHistory e1 ++ [energy] in
  let h := if (ENERGY_HISTORY_LEN <? length h)%nat then drop 1 h else h in
  mkReactive (connected e1) (frequencyData e1) h (lastBeatTime e1).

(** [isBeat()] when [Date.now()] is [now]: the answer and the engine
    afterwards. *)
Definition isBeat (now : Z) (e : t) : bool * t :=
  let h := energyHistory e in
  if (length h <? 10)%nat then (false, e) else
  if (now - lastBeatTime e <? BEAT_COOLDOWN_MS)%Z then (false, e) else
  match h !! (length h - 1)%nat with
  | None => (false, e)
  | Some current =>
      let avg := sum (take (length h - 1) h) / number_of_nat (length h - 1) in
      if (0.02 <? avg) && (avg * BEAT_THRESHOLD <? current)
      then (true, mkReactive (connected e) (frequencyData e) h now)
      else (false, e)
  end.

(** The mean of a list of samples. *)
Definition mean (l : list float) : float :=
  sum l / number_of_nat (length l).

End ReactiveEngine.

(** ** audio/AudioManager.ts *)

Module AudioManager.

Import JS.
Local Open Scope float_scope.

(** The value of a field of [SpiralConfigV2]: a number, an enumeration
    string or a flag. *)
Inductive value :=
| VNumber (x : float)
| VString (s : string)
| VBoolean (b : bool).

(** The configuration object, read by field name. *)
Abbreviation SpiralConfigV2 := (gmap string value).

Inductive AudioMappingMode := Add | Multiply | Set_.

Record AudioMapping := mkMapping {
  id : string;
  band : string;
  parameter : string;
  intensity : float;
  mode : AudioMappingMode;
  min : option float;
  max : option float
}.

(** [_applyMapping(mapping, energy, config)]; [None] is [undefined]. *)
Definition _applyMapping (mapping : AudioMapping) (energy : float)
  (config : SpiralConfigV2) : option float :=
  match config !! parameter mapping with
  | Some (VNumber base) =>
      Some
        match mode mapping with
        | Add => base + energy * intensity mapping * Math_abs base * 0.5
        | Multiply => base * (1 + energy * intensity mapping)
        | Set_ =>
            let lo := nullish (min mapping) 0 in
            let hi := nullish (max mapping) (Math_abs base * 2) in
            lo + energy * (hi - lo)
        end
  | _ => None
  end.

End AudioManager.

(** ** renderer/SpiralGeometry.ts: the line width, and the life of a
       geometry *)

Module SpiralGeometryCalls.

Import JS SpiralGeometry.

(** Update line width (screen pixels). *)
Definition setLineWidth (g : t) (w : float) : t :=
  {| segments := segments g;
     rgbColors := rgbColors g;
     segmentCount := segmentCount g;
     instanceCount := instanceCount g;
     posNeedsUpdate := posNeedsUpdate g;
     colNeedsUpdate := colNeedsUpdate g;
     material :=
       match material g with
       | Some m => Some (mkMaterial (opacity m) (Math_max 0.1 w) (resolution m))
       | None => None
       end |}.

(** The calls a geometry receives from its renderer. *)
Inductive call :=
| AppendSegment (s : Segment)
| AddToScene (canvasWidth canvasHeight : Z)
| SetLineWidth (w : float)
| SetResolution (w h : Z)
| Reset.

Definition perform (g : t) (c : call) : t :=
  match c with
  | AppendSegment s => appendSegment g s
  | AddToScene w h => addToScene g w h
  | SetLineWidth w => setLineWidth g w
  | SetResolution w h => setResolution g w h
  | Reset => reset g
  end.

(** A geometry after a sequence of calls on a new one. *)
Definition life (calls : list call) : t := fold_left perform calls create.

(** Two [appendSegment] calls with the same end points and colour; the
    alphas may differ. *)
Definition same_line (s s' : Segment) : Prop :=
  sx1 s = sx1 s' /\ sy1 s = sy1 s' /\ sx2 s = sx2 s' /\ sy2 s = sy2 s'
  /\ sr s = sr s' /\ sg s = sg s' /\ sb s = sb s'.

(** The line width a material can have. *)
Definition wide_enough (g : t) : Prop :=
  forall m, material g = Some m ->
    is_nan (linewidth m) = true \/ (0.1 <=? linewidth m)%float = true.

(** Two geometries that differ at most in the opacity of the material. *)
Definition same_but_opacity (g g' : t) : Prop :=
  segments g = segments g' /\ rgbColors g = rgbColors g'
  /\ segmentCount g = segmentCount g' /\ instanceCount g = instanceCount g'
  /\ posNeedsUpdate g = posNeedsUpdate g' /\ colNeedsUpdate g = colNeedsUpdate g'
  /\ option_map (fun m => (linewidth m, resolution m)) (material g)
     = option_map (fun m => (linewidth m, resolution m)) (material g').

End SpiralGeometryCalls.

(** ** audio/ReactiveEngine.ts: sources, bands, and a run of frames *)

Module ReactiveEngineCalls.

Import JS ReactiveEngine.
Local Open Scope float_scope.

Definition FFT_SIZE : nat := 256.

(** [_initAnalyser(ctx)]: the analyser is created once, with
    [frequencyBinCount] = [FFT_SIZE / 2] bins. *)
Definition _initAnalyser (e : t) : t :=
  if connected e then e
  else mkReactive true (replicate (FFT_SIZE / 2) 0%Z) (energyHistory e)
                  (lastBeatTime e).

(** [disconnect()]: the source node and the stream tracks, which nothing
    here reads, are left out. *)
Definition disconnect (e : t) : t :=
  mkReactive (connected e) (frequencyData e) [] (lastBeatTime e).

(** [connectFileBuffer(ctx, buffer)], and [connectMicrophone(ctx)] up to
    the point where it waits for the microphone. *)
Definition connectFileBuffer (e : t) : t := _initAnalyser (disconnect e).

(** [Math.floor] of a number, as an integer (0 for what is not finite). *)
Definition Math_floor (x : float) : Z :=
  match Prim2SF x with
  | S754_finite s m e =>
      let v := if s then Z.neg m else Z.pos m in
      if (0 <=? e)%Z then (v * 2 ^ e)%Z else (v / 2 ^ (- e))%Z
  | _ => 0%Z
  end.

(** [getBandEnergy(band)]; [None] is [undefined], what the [switch]
    leaves for a band that is none of the three. *)
Definition getBandEnergy (e : t) (band : string) : option float :=
  let n := length (frequencyData e) in
  if (n =? 0)%nat then Some 0 else
  let at_ (f : float) := Z.to_nat (Math_floor (number_of_nat n * f)) in
  if String.eqb band "bass" then Some (_sliceEnergy e 0 (at_ 0.08))
  else if String.eqb band "mid" then Some (_sliceEnergy e (at_ 0.08) (at_ 0.40))
  else if String.eqb band "treble" then Some (_sliceEnergy e (at_ 0.40) (at_ 0.85))
  else None.

(** Raw FFT byte array. *)
Definition getFFTData (e : t) : list Z := frequencyData e.

(** The overall energy [update] pushes for a snapshot. *)
Definition energy_of (snapshot : list Z) : float :=
  _sliceEnergy (mkReactive true snapshot [] 0) 0 (length snapshot).

(** One [update()] per frame, the analyser writing the given snapshots. *)
Definition updates (snapshots : list (list Z)) (e : t) : t :=
  fold_left (fun e snapshot => update snapshot e) snapshots e.

End ReactiveEngineCalls.

(** ** audio/AudioManager.ts: the per-frame tick *)

Module AudioManagerTick.

Import JS ReactiveEngine ReactiveEngineCalls AudioManager.
Local Open Scope float_scope.

Inductive AudioMode := Off | Generate | React | Both.

(** The fields of [AudioState] the reactive half of [tick] reads. *)
Record AudioState := mkAudioState {
  mode : AudioMode;
  mappings : list AudioMapping
}.

(** The manager: whether the audio context exists, and the reactive
    engine, created with it.  The generative engine, which [tick] drives
    but whose state takes no part in what [tick] returns, is left out. *)
Record t := mkManager {
  ctx : bool;
  reactive : ReactiveEngine.t
}.

Definition create : t := mkManager false ReactiveEngine.create.

(** Create AudioContext. *)
Definition initContext (m : t) : t :=
  if ctx m then m else mkManager true ReactiveEngine.create.

(** The energy a mapping is applied with. *)
Definition energy_for (isBeat : bool) (r : ReactiveEngine.t)
  (mapping : AudioMapping) : float :=
  if String.eqb (band mapping) "beat" then (if isBeat then 1 else 0)
  else nullish (getBandEnergy r (band mapping)) 0.

(** One turn of the loop over the mappings:
    [Object.assign(reactiveMods, { [mapping.parameter]: mod })] when the
    mapping applies. *)
Definition assign (config : SpiralConfigV2) (isBeat : bool)
  (r : ReactiveEngine.t) (mods : gmap string float) (mapping : AudioMapping)
  : gmap string float :=
  match _applyMapping mapping (energy_for isBeat r mapping) config with
  | Some mod_ => <[parameter mapping := mod_]> mods
  | None => mods
  end.

Record TickResult := mkResult {
  fftData : option (list Z);
  reactiveMods : gmap string float
}.

(** [tick(config, audioState)] when the analyser reads [snapshot] and
    [Date.now()] is [now]: what it returns, and the manager afterwards. *)
Definition tick (m : t) (config : SpiralConfigV2) (audioState : AudioState)
  (snapshot : list Z) (now : Z) : TickResult * t :=
  if negb (ctx m) then (mkResult None ∅, m) else
  match mode audioState with
  | Off | Generate => (mkResult None ∅, m)
  | React | Both =>
      let r := update snapshot (reactive m) in
      let raw := getFFTData r in
      let fft := if (0 <? length raw)%nat then Some raw else None in
      let '(beat, r) := isBeat now r in
      (mkResult fft (fold_left (assign config beat r) (mappings audioState) ∅),
       mkManager (ctx m) r)
  end.




End AudioManagerTick.

(** ** audio/GenerativeEngine.ts: the root drift and the sparkle's note *)

Module SpiralMusicMath.

Import JS QOps.

(** The fields of the configuration [_updateRoot] reads. *)
Record DriftConfig := mkDriftConfig {
  spiralFamily : string;
  archA : float;
  lissPhase : float;
  angleChange : float
}.

(** The root note and the drift accumulator. *)
Record Root := mkRoot {
  rootMidi : Z;
  rootDriftAcc : float
}.

(** [_updateRoot(config)]; [u] is the draw of [Math.random()] it makes
    when the accumulator reaches 1. *)
Definition _updateRoot (config : DriftConfig) (u : Q) (s : Root) : Root :=
  (* Seed from a type-specific param so different spirals sound different *)
  let seed :=
    if String.eqb (spiralFamily config) "archimedean"
    then (archA config * 0.3)%float
    else if String.eqb (spiralFamily config) "parametric"
    then (lissPhase config * 0.05)%float
    else (angleChange config * 0.02)%float in
  let acc := (rootDriftAcc s + (0.00008 + seed * 0.00001))%float in
  if (1 <=? acc)%float then
    let acc := (acc - 1)%float in
    let dir := if Qltb u 0.5 then 1%Z else (-1)%Z in
    mkRoot (Z.max 48 (Z.min 72 (rootMidi s + dir))) acc
  else mkRoot (rootMidi s) acc.

(** The root after the frame ticks of the given configurations and draws,
    from the root a new engine has. *)
Definition drift (frames : list (DriftConfig * Q)) : Root :=
  fold_left (fun s f => _updateRoot (fst f) (snd f) s) frames (mkRoot 60 0%float).

(** [_randomScaleNote(root, scale, minOct, maxOct)] with its two draws;
    [None] is the NaN that an [undefined] step gives. *)
Definition _randomScaleNote (root : Z) (scale : list Z) (minOct maxOct : Z)
  (u1 u2 : Q) : option Z :=
  let oct := (minOct + Qfloor (u1 * inject_Z (maxOct - minOct + 1)))%Z in
  match SpiralMusicEngine.pick u2 scale with
  | Some step => Some (root + (oct - 4) * 12 + step)%Z
  | None => None
  end.

End SpiralMusicMath.

(** ** audio/GenerativeEngine.ts: vocabulary of the pool's timers *)

Module SpiralMusicTimers.

Import JS QOps WebAudio SpiralMusicEngine.

(** Every busy voice of the pool is among the voices [owed] a timer or
    has a pending timer that will free it. *)
Definition covered (owed : list nat) (e : t) : Prop :=
  forall v, v ∈ voicePool e -> busy v = true ->
    vid v ∈ owed \/ exists d, (d, vid v) ∈ timers e.


(** The engine after the first scheduler tick of the sample engine, at
    audio time 1. *)
Definition ticked_engine : t :=
  match scheduler_tick (fun _ => 1 # 2) (fun _ => - (1))%Q (steady 1) sample_engine with
  | Some (e, _) => e
  | None => sample_engine
  end.

End SpiralMusicTimers.

(** ** renderer/SpiralRenderer.ts: settings, line width, and the life of a
       renderer *)

Module SpiralRendererCalls.

Import Three SpiralRenderer.

(** Update cached render settings. *)
Definition updateRenderSettings (s : t) (settings : PostProcessor.RenderSettings)
  : t :=
  mkSpiral (world s) (camera s) (width s) (height s) (_geometry s)
    (postProcessor s) (Some settings).

(** Update line width (screen pixels). *)
Definition setLineWidth (s : t) (w : float) : t :=
  mkSpiral (world s) (camera s) (width s) (height s)
    (SpiralGeometryCalls.setLineWidth (_geometry s) w)
    (postProcessor s) (renderSettings s).

(** The calls a renderer receives after [init]. *)
Inductive call :=
| InitPostProcessing (settings : PostProcessor.RenderSettings)
| UpdateRenderSettings (settings : PostProcessor.RenderSettings)
| Resize (w h : Z)
| SetLineWidth (w : float)
| AddLineSegment (seg : SpiralGeometry.Segment)
| Render
| Clear.

Definition perform (s : t) (c : call) : t :=
  match c with
  | InitPostProcessing settings => initPostProcessing s settings
  | UpdateRenderSettings settings => updateRenderSettings s settings
  | Resize w h => resize s w h
  | SetLineWidth w => setLineWidth s w
  | AddLineSegment seg => addLineSegment s seg
  | Render => render s
  | Clear => clear s
  end.

(** A renderer after [init] on a canvas of the given size and a sequence
    of calls. *)
Definition life (w h : Z) (dpr : Q) (calls : list call) : t :=
  fold_left perform calls (init w h dpr).

(** The world after the scene is drawn into the accumulation target. *)
Definition drawn (s : t) : PostProcessor.World :=
  draw_scene s
    (PostProcessor.with_gl (setRenderTarget ToAccum)
       (PostProcessor.with_gl (set_autoClear false) (world s))).

(** The sizes a world and a post-processor are laid out with. *)
Definition layout (w : PostProcessor.World) (p : PostProcessor.t) :=
  (pixelRatio (PostProcessor.gl w),
   (cssWidth (PostProcessor.gl w), cssHeight (PostProcessor.gl w)),
   (rtWidth (PostProcessor.accumTarget w), rtHeight (PostProcessor.accumTarget w)),
   (rtWidth (PostProcessor.trailTargetA p), rtHeight (PostProcessor.trailTargetA p)),
   (rtWidth (PostProcessor.trailTargetB p), rtHeight (PostProcessor.trailTargetB p)),
   (PostProcessor.composerWidth (PostProcessor.composer p),
    PostProcessor.composerHeight (PostProcessor.composer p)),
   PostProcessor.bloomResolution (PostProcessor.bloomPass p),
   PostProcessor.ready p).

(** Every size is the one the canvas size and the pixel ratio call for:
    the WebGL renderer and the composer in CSS pixels, the accumulation
    target and the two trail targets in physical pixels, the camera's
    frustum and the material's resolution in CSS pixels; and the trail
    write index is 0 or 1. *)
Record in_step (s : t) : Prop := {
  step_css :
    (cssWidth (PostProcessor.gl (world s)), cssHeight (PostProcessor.gl (world s)))
    = (width s, height s);
  step_accum :
    (rtWidth (PostProcessor.accumTarget (world s)),
     rtHeight (PostProcessor.accumTarget (world s)))
    = (physical (width s) (pixelRatio (PostProcessor.gl (world s))),
       physical (height s) (pixelRatio (PostProcessor.gl (world s))));
  step_camera : camera s = _makeOrthoCam (width s) (height s);
  step_resolution :
    option_map SpiralGeometry.resolution (SpiralGeometry.material (_geometry s))
    = Some (width s, height s);
  step_post :
    forall p, postProcessor s = Some p ->
      layout (world s) p
      = (pixelRatio (PostProcessor.gl (world s)),
         (width s, height s),
         (physical (width s) (pixelRatio (PostProcessor.gl (world s))),
          physical (height s) (pixelRatio (PostProcessor.gl (world s)))),
         (physical (width s) (pixelRatio (PostProcessor.gl (world s))),
          physical (height s) (pixelRatio (PostProcessor.gl (world s)))),
         (physical (width s) (pixelRatio (PostProcessor.gl (world s))),
          physical (height s) (pixelRatio (PostProcessor.gl (world s)))),
         (width s, height s),
         (width s, height s),
         true)
      /\ (PostProcessor.trailWriteIdx p = 0 \/ PostProcessor.trailWriteIdx p = 1)%Z
}.

End SpiralRendererCalls.

(** ** The animation hook, [useSpiralAnimation]: the loop control

    The state is what [scheduleNext], [stopLoop], [play], [pause] and
    [restart] read and write: the pause flag and the two handle
    references of the hook, and, of the browser, the animation-frame and
    timeout callbacks that are pending.  What a tick draws is not part of
    it: a tick that runs is logged with the [stepsPerFrame] its closure
    captured. *)

Module SpiralAnimationLoop.

Import JS.
Local Open Scope float_scope.

Record t := mkLoop {
  isPaused : bool;
  rafId : option nat;
  timeoutId : option nat;
  (* pending [requestAnimationFrame] callbacks: handle, captured steps *)
  frames : list (nat * float);
  (* pending [setTimeout] callbacks: handle, delay, captured steps *)
  timeouts : list (nat * (float * float));
  (* the next handle the browser gives out *)
  nextHandle : nat;
  (* the ticks run so far *)
  ticks : list float
}.

(** The hook when it is first rendered. *)
Definition create : t := mkLoop false None None [] [] 0 [].

(** [rafIdRef.current = requestAnimationFrame(() => { tick(); scheduleNext() })]. *)
Definition request_frame (steps : float) (s : t) : t :=
  mkLoop (isPaused s) (Some (nextHandle s)) (timeoutId s)
    (frames s ++ [(nextHandle s, steps)]) (timeouts s)
    (S (nextHandle s)) (ticks s).

(** [scheduleNext()] when the configuration holds the given [speed] and
    [stepsPerFrame]. *)
Definition scheduleNext (speed stepsPerFrame : float) (s : t) : t :=
  if isPaused s then s else
  let speed := Math_max 0 speed in
  if speed =? 0 then
    (* Run as fast as possible via rAF *)
    request_frame stepsPerFrame s
  else
    (* Delay between ticks *)
    mkLoop (isPaused s) (rafId s) (Some (nextHandle s))
      (frames s) (timeouts s ++ [(nextHandle s, (speed, stepsPerFrame))])
      (S (nextHandle s)) (ticks s).

Definition stopLoop (s : t) : t :=
  let s :=
    match rafId s with
    | Some h =>
        mkLoop (isPaused s) None (timeoutId s)
          (filter (fun f => fst f <> h) (frames s)) (timeouts s)
          (nextHandle s) (ticks s)
    | None => s
    end in
  match timeoutId s with
  | Some h =>
      mkLoop (isPaused s) (rafId s) None
        (frames s) (filter (fun f => fst f <> h) (timeouts s))
        (nextHandle s) (ticks s)
  | None => s
  end.

Definition set_paused (b : bool) (s : t) : t :=
  mkLoop b (rafId s) (timeoutId s) (frames s) (timeouts s) (nextHandle s)
    (ticks s).

Definition play (speed stepsPerFrame : float) (s : t) : t :=
  if negb (isPaused s) then s
  else scheduleNext speed stepsPerFrame (set_paused false s).

Definition pause (s : t) : t := stopLoop (set_paused true s).

Definition restart (speed stepsPerFrame : float) (s : t) : t :=
  scheduleNext speed stepsPerFrame (set_paused false (stopLoop s)).

(** The effect of the hook on mount: [scheduleNext()]. *)
Definition mount (speed stepsPerFrame : float) : t :=
  scheduleNext speed stepsPerFrame create.

(** The browser runs the pending timeout callback of handle [h]. *)
Definition fire_timeout (h : nat) (s : t) : t :=
  match list_find (fun f => fst f = h) (timeouts s) with
  | Some (i, (_, (_, steps))) =>
      request_frame steps
        (mkLoop (isPaused s) (rafId s) (timeoutId s) (frames s)
           (delete i (timeouts s)) (nextHandle s) (ticks s))
  | None => s
  end.

(** The browser runs the pending animation-frame callback of handle [h]:
    [tick()], then [scheduleNext()] with the configuration of that
    moment. *)
Definition fire_frame (h : nat) (speed stepsPerFrame : float) (s : t) : t :=
  match list_find (fun f => fst f = h) (frames s) with
  | Some (i, (_, steps)) =>
      scheduleNext speed stepsPerFrame
        (mkLoop (isPaused s) (rafId s) (timeoutId s) (delete i (frames s))
           (timeouts s) (nextHandle s) (ticks s ++ [steps]))
  | None => s
  end.

(** What can happen to a mounted hook. *)
Inductive event :=
| Play (speed stepsPerFrame : float)
| Pause
| Restart (speed stepsPerFrame : float)
| TimeoutFires (h : nat)
| FrameFires (h : nat) (speed stepsPerFrame : float).

Definition handle (s : t) (ev : event) : t :=
  match ev with
  | Play speed steps => play speed steps s
  | Pause => pause s
  | Restart speed steps => restart speed steps s
  | TimeoutFires h => fire_timeout h s
  | FrameFires h speed steps => fire_frame h speed steps s
  end.

Definition run (events : list event) (s : t) : t := fold_left handle events s.

(** An event other than [play] and [restart]. *)
Definition keeps_paused (ev : event) : Prop :=
  match ev with
  | Play _ _ | Restart _ _ => False
  | _ => True
  end.

(** The loop is either paused with nothing pending, or running with
    exactly one callback pending, the one its handle reference names. *)
Definition one_chain (s : t) : Prop :=
  if isPaused s then frames s = [] /\ timeouts s = []
  else (exists steps, frames s = [(default 0%nat (rafId s), steps)]
                      /\ rafId s <> None /\ timeouts s = [])
       \/ (exists job, timeouts s = [(default 0%nat (timeoutId s), job)]
                       /\ timeoutId s <> None /\ frames s = []).

End SpiralAnimationLoop.

(** * Properties *)

(** ** Order facts on binary64 comparisons *)

Module FloatOrder.

Local Open Scope float_scope.

Lemma SFltb_irrefl (x : spec_float) : SFltb x x = false.
Proof.
  unfold SFltb, SFcompare.
  destruct x as [s|s| |s m e]; try destruct s; try reflexivity;
    rewrite Z.compare_refl; change (Pos.compare_cont Eq m m) with (Pos.compare m m);
    rewrite Pos.compare_refl; reflexivity.
Qed.

Lemma SFltb_trans (x y z : spec_float) :
  SFltb x y = true -> SFltb y z = true -> SFltb x z = true.
Proof.
  unfold SFltb, SFcompare.
  destruct x as [sx|sx| |sx mx ex], y as [sy|sy| |sy my ey],
    z as [sz|sz| |sz mz ez];
    try destruct sx; try destruct sy; try destruct sz;
    try discriminate; try reflexivity;
    repeat match goal with
    | |- context [Pos.compare_cont Eq ?a ?b] =>
        change (Pos.compare_cont Eq a b) with (Pos.compare a b)
    end;
    destruct (Z.compare_spec ex ey), (Z.compare_spec ey ez),
      (Z.compare_spec ex ez);
    try discriminate; try reflexivity; try lia;
    destruct (Pos.compare_spec mx my), (Pos.compare_spec my mz),
      (Pos.compare_spec mx mz);
    simpl; try discriminate; try reflexivity; try lia.
Qed.

Lemma SFltb_leb (x y : spec_float) : SFltb x y = true -> SFleb x y = true.
Proof.
  unfold SFltb, SFleb. destruct (SFcompare x y) as [[]|]; congruence.
Qed.

Lemma ltb_irrefl (x : float) : (x <? x) = false.
Proof. rewrite ltb_spec. apply SFltb_irrefl. Qed.

Lemma ltb_trans (x y z : float) :
  (x <? y) = true -> (y <? z) = true -> (x <? z) = true.
Proof. rewrite !ltb_spec. apply SFltb_trans. Qed.

Lemma ltb_leb (x y : float) : (x <? y) = true -> (x <=? y) = true.
Proof. rewrite ltb_spec, leb_spec. apply SFltb_leb. Qed.

(** A comparison with NaN on either side is false. *)
Lemma ltb_nan_l (x y : float) : is_nan x = true -> (x <? y) = false.
Proof.
  intros Hx. rewrite ltb_spec. unfold Prim2SF at 1. rewrite Hx. reflexivity.
Qed.

Lemma ltb_nan_r (x y : float) : is_nan y = true -> (x <? y) = false.
Proof.
  intros Hy. rewrite ltb_spec. unfold Prim2SF at 2. rewrite Hy.
  unfold SFltb, SFcompare. destruct (Prim2SF x); reflexivity.
Qed.

End FloatOrder.


(** ** The segment buffer *)

Module SpiralGeometryFacts.

Import JS SpiralGeometry.
Local Open Scope nat_scope.

Lemma MAX_SEGMENTS_value : Z.of_nat MAX_SEGMENTS = 50000%Z.
Proof. unfold MAX_SEGMENTS. lia. Qed.

Lemma keep_value : Z.of_nat (MAX_SEGMENTS / 2) = 25000%Z.
Proof.
  rewrite Nat2Z.inj_div, MAX_SEGMENTS_value. reflexivity.
Qed.

Lemma keep_bounds :
  0 < MAX_SEGMENTS / 2 /\ MAX_SEGMENTS / 2 < MAX_SEGMENTS.
Proof.
  pose proof MAX_SEGMENTS_value. pose proof keep_value. lia.
Qed.

(** *** Array facts *)

Lemma take_insert_snoc {A} (l : list A) (k : nat) (v : A) :
  k < length l -> take (S k) (<[k := v]> l) = take k l ++ [v].
Proof.
  intros Hk.
  rewrite (take_S_r _ _ v) by (apply list_lookup_insert_eq; exact Hk).
  rewrite take_insert_ge by lia. reflexivity.
Qed.

Lemma length_store i v arr : length (store i v arr) = length arr.
Proof. apply length_insert. Qed.

(** Six consecutive stores extend the written prefix by six values. *)
Lemma take_store6 arr si v0 v1 v2 v3 v4 v5 :
  si + 6 <= length arr ->
  take (si + 6)
    (store (si+5) v5 (store (si+4) v4 (store (si+3) v3
      (store (si+2) v2 (store (si+1) v1 (store si v0 arr))))))
  = take si arr
      ++ [fround v0; fround v1; fround v2; fround v3; fround v4; fround v5].
Proof.
  intros Hlen. unfold store.
  replace (si + 6) with (S (si + 5)) by lia.
  rewrite take_insert_snoc by (rewrite !length_insert; lia).
  replace (si + 5) with (S (si + 4)) by lia.
  rewrite take_insert_snoc by (rewrite !length_insert; lia).
  replace (S (si + 4)) with (si + 5) by lia.
  replace (si + 4) with (S (si + 3)) by lia.
  rewrite take_insert_snoc by (rewrite !length_insert; lia).
  replace (S (si + 3)) with (si + 4) by lia.
  replace (si + 3) with (S (si + 2)) by lia.
  rewrite take_insert_snoc by (rewrite !length_insert; lia).
  replace (S (si + 2)) with (si + 3) by lia.
  replace (si + 2) with (S (si + 1)) by lia.
  rewrite take_insert_snoc by (rewrite !length_insert; lia).
  replace (si + 1) with (S si) by lia.
  rewrite take_insert_snoc by lia.
  rewrite <- !app_assoc. reflexivity.
Qed.

Lemma length_copyWithin {A} (arr : list A) target start end_ :
  length (copyWithin arr target start end_) = length arr.
Proof.
  unfold copyWithin. rewrite !length_app, !length_take, !length_drop. lia.
Qed.

(** Moving the upper part of a full array to the front. *)
Lemma take_copyWithin_front {A} (arr : list A) (from n : nat) :
  from + n = length arr ->
  take n (copyWithin arr 0 from (length arr)) = drop from arr.
Proof.
  intros Hlen. unfold copyWithin.
  rewrite Nat.min_0_l, take_0, app_nil_l, Nat.min_id.
  replace (Nat.min from (length arr)) with from by lia.
  replace (Nat.min (length arr - from) (length arr - 0)) with n by lia.
  rewrite take_app_le by (rewrite length_take, length_drop; lia).
  rewrite take_take, Nat.min_id. apply take_ge. rewrite length_drop. lia.
Qed.

(** *** The abstraction: a geometry holds a list of stored segments *)

Lemma six_stored_form s : six (stored_form s).
Proof. split; reflexivity. Qed.

Lemma length_flat (f : list float * list float -> list float) S :
  Forall (fun p => length (f p) = 6) S -> length (concat (f <$> S)) = length S * 6.
Proof.
  induction 1 as [|p S Hp _ IH]; csimpl; [reflexivity|].
  rewrite length_app, IH, Hp. lia.
Qed.

Lemma flat_drop (f : list float * list float -> list float) S k :
  Forall (fun p => length (f p) = 6) S ->
  drop (k * 6) (concat (f <$> S)) = concat (f <$> drop k S).
Proof.
  intros HS. revert k. induction HS as [|p S Hp _ IH]; intros k.
  - csimpl. rewrite !drop_nil. reflexivity.
  - destruct k as [|k]; [reflexivity|].
    csimpl. rewrite drop_app_ge by lia. rewrite Hp.
    cbn [Nat.sub]. rewrite Nat.sub_0_r. apply IH.
Qed.

Lemma flat_slot (f : list float * list float -> list float) S i p :
  Forall (fun p => length (f p) = 6) S ->
  S !! i = Some p ->
  slot (concat (f <$> S)) i = f p.
Proof.
  intros HS Hi. unfold slot. rewrite flat_drop by exact HS.
  rewrite (drop_S _ _ _ Hi). csimpl.
  rewrite Forall_lookup in HS. specialize (HS _ _ Hi). cbn beta in HS.
  rewrite take_app_le by lia. apply take_ge. lia.
Qed.

Lemma slot_take arr n i : i < n -> slot (take (n * 6) arr) i = slot arr i.
Proof.
  intros Hi. unfold slot.
  rewrite !take_drop_commute, take_take. f_equal. f_equal. lia.
Qed.

Lemma six_fst S : Forall six S -> Forall (fun p => length (fst p) = 6) S.
Proof. intros HS. eapply Forall_impl; [exact HS|]. intros p [H _]. exact H. Qed.

Lemma six_snd S : Forall six S -> Forall (fun p => length (snd p) = 6) S.
Proof. intros HS. eapply Forall_impl; [exact HS|]. intros p [_ H]. exact H. Qed.

Lemma holds_contents g S : holds g S -> contents g = S.
Proof.
  intros [Hlp Hlc Hcount Hbound Hsix Hpos Hcol].
  unfold contents. rewrite Hcount. apply list_eq. intros i.
  rewrite list_lookup_fmap.
  destruct (decide (i < length S)) as [Hi|Hi].
  - rewrite lookup_seq_lt by exact Hi. cbn -[slot].
    destruct (lookup_lt_is_Some_2 S i Hi) as [p Hp]. rewrite Hp. f_equal.
    rewrite <- (slot_take (segments g) (length S) i Hi), Hpos.
    rewrite <- (slot_take (rgbColors g) (length S) i Hi), Hcol.
    unfold flatP, flatC.
    rewrite (flat_slot fst S i p (six_fst S Hsix) Hp).
    rewrite (flat_slot snd S i p (six_snd S Hsix) Hp).
    destruct p; reflexivity.
  - rewrite lookup_seq_ge by lia. rewrite lookup_ge_None_2 by lia. reflexivity.
Qed.

Lemma holds_create : holds create [].
Proof.
  split; cbn; rewrite ?length_replicate; try reflexivity; try lia.
  constructor.
Qed.

(** What an append does to the list of stored segments. *)
Lemma holds_write g S s :
  holds g S -> length S < MAX_SEGMENTS ->
  holds
    {| segments :=
         let si := segmentCount g * 6 in
         store (si+5) 0%float (store (si+4) (sy2 s) (store (si+3) (sx2 s)
           (store (si+2) 0%float (store (si+1) (sy1 s) (store si (sx1 s)
             (segments g))))));
       rgbColors :=
         let si := segmentCount g * 6 in
         store (si+5) (sb s) (store (si+4) (sg s) (store (si+3) (sr s)
           (store (si+2) (sb s) (store (si+1) (sg s) (store si (sr s)
             (rgbColors g))))));
       segmentCount := segmentCount g + 1;
       instanceCount := segmentCount g + 1;
       posNeedsUpdate := true;
       colNeedsUpdate := true;
       material :=
         match material g with
         | Some m => Some (mkMaterial (sa s) (linewidth m) (resolution m))
         | None => None
         end |}
    (S ++ [stored_form s]).
Proof.
  intros [Hlp Hlc Hcount Hbound Hsix Hpos Hcol] Hlt.
  split; cbn [segments rgbColors segmentCount].
  - rewrite !length_store. exact Hlp.
  - rewrite !length_store. exact Hlc.
  - rewrite length_app, Hcount. reflexivity.
  - rewrite length_app. cbn. lia.
  - apply Forall_app. split; [exact Hsix|].
    constructor; [apply six_stored_form|constructor].
  - rewrite length_app, Hcount. cbn [length].
    replace ((length S + 1) * 6) with (length S * 6 + 6) by lia.
    rewrite take_store6 by lia. rewrite Hpos.
    unfold flatP. rewrite fmap_app, concat_app. csimpl.
    rewrite ?app_nil_r. reflexivity.
  - rewrite length_app, Hcount. cbn [length].
    replace ((length S + 1) * 6) with (length S * 6 + 6) by lia.
    rewrite take_store6 by lia. rewrite Hcol.
    unfold flatC. rewrite fmap_app, concat_app. csimpl.
    rewrite ?app_nil_r. reflexivity.
Qed.

Lemma holds_dropOldest g S :
  holds g S -> length S = MAX_SEGMENTS ->
  holds (_dropOldest g) (drop (MAX_SEGMENTS - MAX_SEGMENTS / 2) S).
Proof.
  intros [Hlp Hlc Hcount Hbound Hsix Hpos Hcol] Hfull.
  destruct keep_bounds as [Hk0 Hk].
  assert (Hlen : length (drop (MAX_SEGMENTS - MAX_SEGMENTS / 2) S)
                 = MAX_SEGMENTS / 2) by (rewrite length_drop; lia).
  rewrite Hfull in Hpos, Hcol.
  rewrite take_ge in Hpos by lia. rewrite take_ge in Hcol by lia.
  split; cbn [_dropOldest segments rgbColors segmentCount].
  - rewrite length_copyWithin. exact Hlp.
  - rewrite length_copyWithin. exact Hlc.
  - symmetry. exact Hlen.
  - lia.
  - apply Forall_drop. exact Hsix.
  - rewrite Hlen, Hcount, Hfull, <- Hlp.
    rewrite take_copyWithin_front by lia.
    rewrite Hpos. apply flat_drop, six_fst, Hsix.
  - rewrite Hlen, Hcount, Hfull, <- Hlc.
    rewrite take_copyWithin_front by lia.
    rewrite Hcol. apply flat_drop, six_snd, Hsix.
Qed.

Lemma holds_appendSegment g S s :
  holds g S -> holds (appendSegment g s) (evolve S s).
Proof.
  intros Hg. unfold appendSegment, evolve.
  rewrite (holds_count g S Hg).
  destruct (MAX_SEGMENTS <=? length S) eqn:Hfull.
  - apply Nat.leb_le in Hfull.
    assert (Heq : length S = MAX_SEGMENTS)
      by (pose proof (holds_bound g S Hg); lia).
    pose proof (holds_dropOldest g S Hg Heq) as Hd.
    apply (holds_write _ _ s Hd).
    rewrite length_drop. destruct keep_bounds. lia.
  - apply Nat.leb_gt in Hfull. apply (holds_write _ _ s Hg Hfull).
Qed.

Lemma holds_fold h : forall g S,
  holds g S -> holds (fold_left appendSegment h g) (fold_left evolve h S).
Proof.
  induction h as [|s h IH]; intros g S Hg; [exact Hg|].
  cbn [fold_left]. apply IH, holds_appendSegment, Hg.
Qed.

Lemma holds_run h : holds (run h) (fold_left evolve h []).
Proof. apply holds_fold, holds_create. Qed.

Lemma contents_run h : contents (run h) = fold_left evolve h [].
Proof. apply holds_contents, holds_run. Qed.

Lemma contents_length g S : holds g S -> length (contents g) = segmentCount g.
Proof.
  intros Hg. rewrite (holds_contents g S Hg). symmetry. apply (holds_count g S Hg).
Qed.

(** The stored segments are always the tail end of the append history. *)
Lemma evolve_suffix h :
  fold_left evolve h [] `suffix_of` (stored_form <$> h).
Proof.
  induction h as [|s h IH] using rev_ind; [reflexivity|].
  rewrite fold_left_app, fmap_app. cbn [fold_left]. unfold evolve at 1.
  apply suffix_app.
  destruct (MAX_SEGMENTS <=? _); [|exact IH].
  etransitivity; [|exact IH]. apply suffix_drop.
Qed.

Lemma suffix_lastn {A} (k l : list A) :
  k `suffix_of` l -> k = lastn (length k) l.
Proof.
  intros [pre ->]. unfold lastn. rewrite length_app.
  replace (length pre + length k - length k) with (length pre) by lia.
  rewrite drop_app_length. reflexivity.
Qed.

Lemma lastn_drop {A} (k l : list A) (n : nat) :
  k `suffix_of` l -> n <= length k -> drop (length k - n) k = lastn n l.
Proof.
  intros [pre ->] Hn. unfold lastn. rewrite length_app.
  replace (length pre + length k - n) with (length pre + (length k - n)) by lia.
  rewrite drop_app_add. reflexivity.
Qed.

(** No eviction happens while the history fits. *)
Lemma evolve_length h :
  length h <= MAX_SEGMENTS -> length (fold_left evolve h []) = length h.
Proof.
  induction h as [|s h IH] using rev_ind; [reflexivity|].
  rewrite length_app. cbn [length]. intros Hlen.
  rewrite fold_left_app. cbn [fold_left]. unfold evolve at 1.
  rewrite length_app, IH by lia.
  destruct (Nat.leb_spec MAX_SEGMENTS (length h)); [lia|].
  rewrite IH by lia. reflexivity.
Qed.

(** C1.  Whatever segments are appended to a fresh [SpiralGeometry], the
    segment count stays within [MAX_SEGMENTS] = 50,000 and the geometry
    holds a tail end of the append history, oldest first.  An append that
    finds the buffer full keeps exactly the last [MAX_SEGMENTS / 2] appended
    segments, in their order, and puts the new segment after them; any
    other append just adds the new segment at the end.  The buffer does
    fill: [MAX_SEGMENTS] appends leave it with [MAX_SEGMENTS] segments. *)
Theorem appendSegment_capacity_and_eviction
  (history : list Segment) (s : Segment) :
  segmentCount (run history) <= MAX_SEGMENTS
  /\ Z.of_nat MAX_SEGMENTS = 50000%Z
  /\ Z.of_nat (MAX_SEGMENTS / 2) = 25000%Z
  /\ length (contents (run history)) = segmentCount (run history)
  /\ contents (run history)
     = lastn (segmentCount (run history)) (stored_form <$> history)
  /\ contents (run (history ++ [s]))
     = (if MAX_SEGMENTS <=? segmentCount (run history)
        then lastn (MAX_SEGMENTS / 2) (stored_form <$> history)
        else contents (run history)) ++ [stored_form s]
  /\ segmentCount (run (replicate MAX_SEGMENTS s)) = MAX_SEGMENTS.
Proof.
  pose proof (holds_run history) as Hh.
  pose proof (evolve_suffix history) as Hsuf.
  pose proof (holds_count _ _ Hh) as Hcount.
  pose proof (holds_bound _ _ Hh) as Hbound.
  split; [lia|].
  split; [exact MAX_SEGMENTS_value|].
  split; [exact keep_value|].
  split; [exact (contents_length _ _ Hh)|].
  split.
  - rewrite contents_run, Hcount. apply suffix_lastn, Hsuf.
  - split.
    + rewrite !contents_run, fold_left_app. cbn [fold_left].
      unfold evolve at 1. rewrite Hcount. f_equal.
      destruct (Nat.leb_spec MAX_SEGMENTS (length (fold_left evolve history [])))
        as [Hfull|_]; [|reflexivity].
      replace (MAX_SEGMENTS - MAX_SEGMENTS / 2)
        with (length (fold_left evolve history []) - MAX_SEGMENTS / 2) by lia.
      apply lastn_drop; [exact Hsuf|]. destruct keep_bounds. lia.
    + rewrite (holds_count _ _ (holds_run (replicate MAX_SEGMENTS s))).
      rewrite evolve_length; rewrite length_replicate; reflexivity.
Qed.

End SpiralGeometryFacts.

(** ** snapToSimpleRatio *)

Module SnapFacts.

Import JS MusicHelpers FloatOrder.
Local Open Scope float_scope.

(** A value that is not below [infinity] is [infinity] or NaN, and nothing
    is below such a value unless it is below [infinity]. *)
Lemma SF_not_below_infinity (x y : spec_float) :
  SFltb x (S754_infinity false) = false ->
  SFltb y (S754_infinity false) = false ->
  SFltb y x = false.
Proof.
  unfold SFltb, SFcompare.
  destruct x as [sx|sx| |sx mx ex], y as [sy|sy| |sy my ey];
    try destruct sx; try destruct sy; try discriminate; reflexivity.
Qed.

Lemma not_below_infinity (x y : float) :
  (x <? infinity) = false -> (y <? infinity) = false -> (y <? x) = false.
Proof.
  rewrite !ltb_spec.
  change (Prim2SF infinity) with (S754_infinity false).
  apply SF_not_below_infinity.
Qed.

Lemma not_below_trans (x y z : float) :
  (x <? z) = false -> (y <? z) = true -> (x <? y) = false.
Proof.
  intros Hxz Hyz. destruct (x <? y) eqn:Hxy; [|reflexivity].
  rewrite (ltb_trans _ _ _ Hxy Hyz) in Hxz. discriminate.
Qed.

(** The loop over the table: no entry is strictly nearer than the final
    [bestDist], and the final pair is either the initial one or an entry of
    the table with its distance, strictly below the initial distance. *)
Lemma snap_loop_inv (clamped : float) (rs : list float) :
  forall acc,
    let res := snap_loop clamped rs acc in
    (forall r, In r rs -> (relDist clamped r <? snd res) = false)
    /\ (res = acc
        \/ ((snd res <? snd acc) = true
            /\ exists b, In b rs /\ res = (b, relDist clamped b))).
Proof.
  induction rs as [|r rs IH]; intros acc; cbn zeta.
  - split; [intros r []|left; reflexivity].
  - change (snap_loop clamped (r :: rs) acc)
      with (snap_loop clamped rs (snap_step clamped acc r)).
    assert (Hstep : snap_step clamped acc r
                    = if relDist clamped r <? snd acc
                      then (r, relDist clamped r) else acc) by reflexivity.
    destruct (relDist clamped r <? snd acc) eqn:Hupd; rewrite Hstep; clear Hstep.
    + (* the entry [r] became the best so far *)
      destruct (IH (r, relDist clamped r)) as [Hnear Hres].
      cbn [snd] in Hres.
      set (res := snap_loop clamped rs (r, relDist clamped r)) in *.
      split.
      * intros r' [<-|Hin]; [|apply Hnear, Hin].
        destruct Hres as [->|[Hlt _]]; [apply ltb_irrefl|].
        destruct (relDist clamped r <? snd res) eqn:Hc; [|reflexivity].
        pose proof (ltb_trans _ _ _ Hc Hlt) as Hbad.
        rewrite ltb_irrefl in Hbad. discriminate.
      * right. destruct Hres as [->|[Hlt [b [Hb Hbres]]]].
        -- split; [exact Hupd|].
           exists r. split; [left; reflexivity|reflexivity].
        -- split; [exact (ltb_trans _ _ _ Hlt Hupd)|].
           exists b. split; [right; exact Hb|exact Hbres].
    + (* the best so far stays *)
      destruct (IH acc) as [Hnear Hres].
      set (res := snap_loop clamped rs acc) in *.
      split.
      * intros r' [<-|Hin]; [|apply Hnear, Hin].
        destruct Hres as [->|[Hlt _]]; [exact Hupd|].
        exact (not_below_trans _ _ _ Hupd Hlt).
      * destruct Hres as [->|[Hlt [b [Hb Hbres]]]]; [left; reflexivity|].
        right. split; [exact Hlt|].
        exists b. split; [right; exact Hb|exact Hbres].
Qed.

(** The clamp yields a value of [1, 8] on every input but NaN. *)
Lemma clamp_ratio_range (ratio : float) :
  is_nan ratio = false ->
  (1 <=? clamp_ratio ratio) = true /\ (clamp_ratio ratio <=? 8) = true.
Proof.
  intros Hnan. unfold clamp_ratio, Math_min.
  change (is_nan 8) with false. rewrite Hnan. cbn [orb].
  assert (Hmax : forall m, is_nan m = false -> (m <=? 8) = true ->
            (1 <=? Math_max 1 m) = true /\ (Math_max 1 m <=? 8) = true).
  { intros m Hm Hm8. unfold Math_max.
    change (is_nan 1) with false. rewrite Hm. cbn [orb].
    destruct (1 <? m) eqn:H1m; [split; [apply ltb_leb, H1m|exact Hm8]|].
    change (is_zero 1) with false. cbn [andb].
    destruct (m <? 1); split; reflexivity. }
  destruct (8 <? ratio) eqn:H8r; [apply Hmax; reflexivity|].
  destruct (ratio <? 8) eqn:Hr8; [apply Hmax; [exact Hnan|apply ltb_leb, Hr8]|].
  change (is_zero 8) with false. cbn [andb]. apply Hmax; reflexivity.
Qed.

(** C5.  [snapToSimpleRatio] clamps its input to [1, 8] (NaN alone passes
    through the clamp as NaN), then returns the nearest entry of the table
    {1, 1.25, 1.333, 1.5, 2, 2.5, 3, 4, 8} when the relative distance
    |clamped - entry| / entry of that entry is below 0.15, and the clamped
    input otherwise.  Nearest is by that relative distance: no entry of
    the table is at a smaller one.  snap(1.48) = 1.5, snap(1.2) = 1.25 and
    snap(6.0) = 6.0. *)
Theorem snapToSimpleRatio_nearest_within_tolerance (ratio : float) :
  SIMPLE_RATIOS = [1; 1.25; 1.333; 1.5; 2; 2.5; 3; 4; 8]
  /\ (is_nan ratio = true
      \/ ((1 <=? clamp_ratio ratio) = true /\ (clamp_ratio ratio <=? 8) = true))
  /\ (exists best,
        In best SIMPLE_RATIOS
        /\ (forall r, In r SIMPLE_RATIOS ->
              (relDist (clamp_ratio ratio) r
                 <? relDist (clamp_ratio ratio) best) = false)
        /\ snapToSimpleRatio ratio
           = if relDist (clamp_ratio ratio) best <? 0.15
             then best else clamp_ratio ratio)
  /\ snapToSimpleRatio 1.48 = 1.5
  /\ snapToSimpleRatio 1.2 = 1.25
  /\ snapToSimpleRatio 6.0 = 6.0.
Proof.
  split; [reflexivity|]. split.
  { destruct (is_nan ratio) eqn:Hnan; [left; reflexivity|right].
    apply clamp_ratio_range, Hnan. }
  split; [|repeat split; vm_compute; reflexivity].
  unfold snapToSimpleRatio.
  set (clamped := clamp_ratio ratio).
  change (nth 0 SIMPLE_RATIOS nan) with 1.
  destruct (snap_loop_inv clamped SIMPLE_RATIOS (1, infinity)) as [Hnear Hres].
  cbn zeta in Hnear, Hres.
  destruct (snap_loop clamped SIMPLE_RATIOS (1, infinity)) as [best bestDist].
  cbn [snd] in Hnear, Hres.
  destruct Hres as [Hres|[_ [b [Hb Hres]]]].
  - (* no entry was ever below infinity: every distance is infinite or NaN *)
    injection Hres as -> ->. exists 1. split; [left; reflexivity|].
    assert (H1 : (relDist clamped 1 <? infinity) = false)
      by (apply Hnear; left; reflexivity).
    split.
    + intros r Hr. apply not_below_infinity; [exact H1|apply Hnear, Hr].
    + change (infinity <? 0.15) with false.
      rewrite (not_below_trans (relDist clamped 1) 0.15 infinity H1 eq_refl).
      reflexivity.
  - injection Hres as -> ->. exists b. split; [exact Hb|].
    split; [exact Hnear|reflexivity].
Qed.

(** The distance that decides is the relative one, which does not always
    agree with the absolute one: 1.72 is closer to 1.5 than to 2, yet its
    relative distance to 2 is the smaller, and it snaps to 2. *)
Example snap_measures_relative_distance :
  snapToSimpleRatio 1.72 = 2
  /\ (relDist 1.72 2 <? relDist 1.72 1.5) = true
  /\ (Math_abs (1.72 - 1.5) <? Math_abs (1.72 - 2)) = true.
Proof. repeat split; vm_compute; reflexivity. Qed.

End SnapFacts.

(** ** The post-processor and the renderer *)

Module RendererFacts.

Import Three.
Local Open Scope float_scope.






(** C7.  Calling [clear()] twice in a row leaves the renderer exactly as
    calling it once does.  After a [clear()] the segment buffer is empty,
    the accumulation target and the canvas hold only the background colour
    (black, opaque), and an initialised post-processor has both trail
    buffers cleared to that colour and its trail write index at 0. *)
Theorem clear_idempotent (s : SpiralRenderer.t) :
  SpiralRenderer.clear (SpiralRenderer.clear s) = SpiralRenderer.clear s
  /\ SpiralGeometry.segmentCount (SpiralRenderer._geometry (SpiralRenderer.clear s)) = 0%nat
  /\ SpiralGeometry.contents (SpiralRenderer._geometry (SpiralRenderer.clear s)) = []
  /\ texture (PostProcessor.accumTarget (SpiralRenderer.world (SpiralRenderer.clear s)))
     = Cleared 0 1
  /\ PostProcessor.canvas (SpiralRenderer.world (SpiralRenderer.clear s))
     = Cleared 0 1
  /\ match SpiralRenderer.postProcessor (SpiralRenderer.clear s) with
     | Some p =>
         if PostProcessor.ready p
         then texture (PostProcessor.trailTargetA p) = Cleared 0 1
              /\ texture (PostProcessor.trailTargetB p) = Cleared 0 1
              /\ PostProcessor.trailWriteIdx p = 0%Z
         else SpiralRenderer.postProcessor s = Some p
     | None => SpiralRenderer.postProcessor s = None
     end.
Proof.
  destruct s as [w cam wd ht g [p|] rs].
  - destruct p as [rdy ta tb tu idx cm co bp cp vp fp].
    destruct rdy; cbn; repeat split; reflexivity.
  - cbn. repeat split; reflexivity.
Qed.




End RendererFacts.

(** ** The beat detector and the audio mappings *)

Module ReactiveFacts.

Import ReactiveEngine.
Local Open Scope float_scope.

(** The latest sample is the one [isBeat] reads at [length - 1]. *)
Lemma latest_lookup (h : list float) : h !! (length h - 1)%nat = last h.
Proof. rewrite last_lookup. f_equal. lia. Qed.

(** The mean [isBeat] computes is the mean of all samples but the latest. *)
Lemma avg_is_mean (h : list float) :
  sum (take (length h - 1) h) / number_of_nat (length h - 1)
  = mean (take (length h - 1) h).
Proof.
  unfold mean. destruct h as [|x h]; [reflexivity|].
  rewrite length_take. cbn [length]. do 2 f_equal. lia.
Qed.

(** C8.  [isBeat()] answers true exactly when the energy history holds at
    least 10 samples, at least 200 ms have passed since the last declared
    beat, the mean of all samples but the latest is above the noise floor
    0.02, and the latest sample is above 1.5 times that mean.  A beat
    records the current time as the last beat; otherwise nothing
    changes. *)
Theorem isBeat_iff (now : Z) (e : t) :
  (fst (isBeat now e) = true
   <-> (10 <= length (energyHistory e))%nat
       /\ (200 <= now - lastBeatTime e)%Z
       /\ (0.02 <? mean (take (length (energyHistory e) - 1) (energyHistory e)))
          = true
       /\ exists latest,
            last (energyHistory e) = Some latest
            /\ (mean (take (length (energyHistory e) - 1) (energyHistory e)) * 1.5
                  <? latest) = true)
  /\ snd (isBeat now e)
     = (if fst (isBeat now e)
        then mkReactive (connected e) (frequencyData e) (energyHistory e) now
        else e).
Proof.
  unfold isBeat, BEAT_COOLDOWN_MS, BEAT_THRESHOLD.
  destruct (Nat.ltb_spec (length (energyHistory e)) 10) as [Hlen|Hlen].
  { split; [|reflexivity]. cbn [fst]. split; [discriminate|]. lia. }
  destruct (Z.ltb_spec (now - lastBeatTime e) 200) as [Hcool|Hcool].
  { split; [|reflexivity]. cbn [fst]. split; [discriminate|]. lia. }
  rewrite latest_lookup, avg_is_mean.
  set (avg := mean (take (length (energyHistory e) - 1) (energyHistory e))).
  destruct (last (energyHistory e)) as [current|] eqn:Hlast.
  - destruct (0.02 <? avg) eqn:Hfloor; cbn [andb].
    + destruct (avg * 1.5 <? current) eqn:Hpeak; cbn [fst snd].
      * split; [|reflexivity]. split; [intros _|reflexivity].
        split; [lia|]. split; [lia|]. split; [reflexivity|].
        exists current. split; [reflexivity|exact Hpeak].
      * split; [|reflexivity]. split; [discriminate|].
        intros (_ & _ & _ & latest & Hl & Hp).
        injection Hl as <-. congruence.
    + cbn [fst snd]. split; [|reflexivity]. split; [discriminate|].
      intros (_ & _ & Hf & _). discriminate.
  - cbn [fst snd]. split; [|reflexivity]. split; [discriminate|].
    intros (_ & _ & _ & latest & Hl & _). discriminate.
Qed.

End ReactiveFacts.

Module MappingFacts.

Import JS AudioManager.
Local Open Scope float_scope.

(** C6.  For a mapping whose configuration field holds a number [base],
    [_applyMapping] returns base + energy * intensity * |base| * 0.5 in
    mode 'add', base * (1 + energy * intensity) in mode 'multiply', and
    (min ?? 0) + energy * ((max ?? |base| * 2) - (min ?? 0)) in mode 'set';
    'set' with min = 1, max = 8 and energy = 0.5 gives exactly 4.5, and
    'multiply' with base = 10, intensity = 0.5 and energy = 1 gives
    exactly 15. *)
Theorem applyMapping_formulas
  (mapping : AudioMapping) (energy base : float) (config : SpiralConfigV2) :
  config !! parameter mapping = Some (VNumber base) ->
  (mode mapping = Add ->
     _applyMapping mapping energy config
     = Some (base + energy * intensity mapping * Math_abs base * 0.5))
  /\ (mode mapping = Multiply ->
        _applyMapping mapping energy config
        = Some (base * (1 + energy * intensity mapping)))
  /\ (mode mapping = Set_ ->
        _applyMapping mapping energy config
        = Some (nullish (min mapping) 0
                + energy * (nullish (max mapping) (Math_abs base * 2)
                            - nullish (min mapping) 0)))
  /\ (mode mapping = Set_ -> min mapping = Some 1 -> max mapping = Some 8 ->
        _applyMapping mapping 0.5 config = Some 4.5)
  /\ (mode mapping = Multiply -> base = 10 -> intensity mapping = 0.5 ->
        _applyMapping mapping 1 config = Some 15).
Proof.
  intros Hbase. unfold _applyMapping. rewrite Hbase.
  repeat split; intros Hmode; rewrite Hmode; try reflexivity.
  - intros -> ->. reflexivity.
  - intros -> ->. reflexivity.
Qed.

(** A use of C6's theorem: a 'set' mapping of the bass band onto a numeric
    field, 1 to 8, at half energy. *)
Lemma applyMapping_formulas_witness :
  _applyMapping (mkMapping "m1" "bass" "stepLength" 0.5 Set_ (Some 1) (Some 8))
    0.5 {["stepLength" := VNumber 10]}
  = Some 4.5.
Proof.
  pose proof (applyMapping_formulas
    (mkMapping "m1" "bass" "stepLength" 0.5 Set_ (Some 1) (Some 8))
    0.5 10 {["stepLength" := VNumber 10]} eq_refl) as H.
  destruct H as (_ & _ & _ & Hset & _).
  exact (Hset eq_refl eq_refl eq_refl).
Defined.

End MappingFacts.

(** ** The music engine: melody notes, the voice pool, the scheduler *)

Module MusicFacts.

Import JS QOps WebAudio SpiralMusicEngine.
Local Open Scope Q_scope.

(** *** Comparisons and floors of rationals *)

Lemma Qltb_lt (a b : Q) : Qltb a b = true <-> a < b.
Proof. unfold Qltb, Qlt. apply Z.ltb_lt. Qed.

Lemma Qltb_ge (a b : Q) : Qltb a b = false <-> b <= a.
Proof. unfold Qltb, Qle. rewrite Z.ltb_ge. reflexivity. Qed.

Lemma Qmax2_l (a b : Q) : a <= Qmax2 a b.
Proof.
  unfold Qmax2. destruct (Qltb a b) eqn:H.
  - apply Qltb_lt in H. lra.
  - lra.
Qed.

Lemma Qmax2_r (a b : Q) : b <= Qmax2 a b.
Proof.
  unfold Qmax2. destruct (Qltb a b) eqn:H.
  - lra.
  - apply Qltb_ge in H. exact H.
Qed.

(** [Math.floor(u * n)] is an index of an array of length [n] > 0 when
    [u] is a draw of [Math.random()]. *)
Lemma floor_scaled_range (u : Q) (n : nat) :
  0 <= u -> u < 1 -> (0 < n)%nat ->
  (0 <= floor_scaled u n < Z.of_nat n)%Z.
Proof.
  intros Hu0 Hu1 Hn. unfold floor_scaled.
  set (L := inject_Z (Z.of_nat n)).
  assert (HL : 0 < L).
  { unfold L. change 0 with (inject_Z 0). rewrite <- Zlt_Qlt. lia. }
  split.
  - change 0%Z with (Qfloor 0). apply Qfloor_resp_le. nra.
  - rewrite Zlt_Qlt. fold L.
    apply Qle_lt_trans with (u * L); [apply Qfloor_le|]. nra.
Qed.

Lemma pick_Some {A} (u : Q) (arr : list A) :
  0 <= u -> u < 1 -> arr <> [] ->
  exists x, pick u arr = Some x
            /\ arr !! Z.to_nat (floor_scaled u (length arr)) = Some x.
Proof.
  intros Hu0 Hu1 Hne.
  assert (Hlen : (0 < length arr)%nat)
    by (destruct arr; [congruence|cbn; lia]).
  destruct (floor_scaled_range u (length arr) Hu0 Hu1 Hlen) as [Hlo Hhi].
  unfold pick. cbn zeta.
  destruct (Z.ltb_spec (floor_scaled u (length arr)) 0) as [Hneg|_]; [lia|].
  destruct (lookup_lt_is_Some_2 arr (Z.to_nat (floor_scaled u (length arr))))
    as [x Hx]; [lia|].
  exists x. split; exact Hx.
Qed.

(** *** Melody notes *)

Lemma nextMelodyNote_defined (e : t) (u1 u2 : Q) :
  0 <= u2 -> u2 < 1 -> exists n, _nextMelodyNote e u1 u2 = Some n.
Proof.
  intros Hu0 Hu1. unfold _nextMelodyNote. cbn zeta.
  set (cands := candidates_of (rootMidi e) (currentScale e)).
  destruct (Nat.eqb_spec (length cands) 0) as [_|Hlen]; [eexists; reflexivity|].
  assert (Hc : cands <> []) by (intros Heq; rewrite Heq in Hlen; apply Hlen; reflexivity).
  set (stepwise := stepwise_of (lastMelodyMidi e) cands).
  set (leaps := leaps_of (lastMelodyMidi e) cands).
  assert (Hpos : forall l : list Z, (0 <? length l)%nat = true -> l <> []).
  { intros l H ->. discriminate H. }
  destruct (Qltb u1 0.7 && (0 <? length stepwise)%nat) eqn:Hstep.
  - apply andb_prop in Hstep as [_ Hs].
    destruct (pick_Some u2 stepwise Hu0 Hu1 (Hpos _ Hs)) as [x [Hx _]].
    exists x. exact Hx.
  - destruct (0 <? length leaps)%nat eqn:Hl.
    + destruct (pick_Some u2 leaps Hu0 Hu1 (Hpos _ Hl)) as [x [Hx _]].
      exists x. exact Hx.
    + destruct (pick_Some u2 cands Hu0 Hu1 Hc) as [x [Hx _]].
      exists x. exact Hx.
Qed.

(** C9.  [_nextMelodyNote] never throws and never returns [undefined]:
    with draws of [Math.random()] in [0, 1) it always returns a note.  In a
    state in which no candidate note lies within 5 semitones of the
    previous melody note and the leap bucket is not empty, the note it
    returns is from the leap bucket, more than 5 semitones from the
    previous note. *)
Theorem nextMelodyNote_leap_fallback (e : t) (u1 u2 : Q) :
  0 <= u2 -> u2 < 1 ->
  (exists n, _nextMelodyNote e u1 u2 = Some n)
  /\ ((forall n, n ∈ candidates_of (rootMidi e) (currentScale e) ->
         (Z.abs (n - lastMelodyMidi e) > 5)%Z) ->
      leaps_of (lastMelodyMidi e)
               (candidates_of (rootMidi e) (currentScale e)) <> [] ->
      exists n,
        _nextMelodyNote e u1 u2 = Some n
        /\ n ∈ leaps_of (lastMelodyMidi e)
                        (candidates_of (rootMidi e) (currentScale e))
        /\ n ∈ candidates_of (rootMidi e) (currentScale e)
        /\ (Z.abs (n - lastMelodyMidi e) > 5)%Z).
Proof.
  intros Hu0 Hu1. split; [apply nextMelodyNote_defined; assumption|].
  intros Hfar Hleaps. unfold _nextMelodyNote. cbn zeta.
  set (cands := candidates_of (rootMidi e) (currentScale e)) in *.
  set (leaps := leaps_of (lastMelodyMidi e) cands) in *.
  assert (Hstep : stepwise_of (lastMelodyMidi e) cands = []).
  { unfold stepwise_of.
    destruct (filter _ cands) as [|x l] eqn:Hf; [reflexivity|].
    assert (Hx : x ∈ filter (fun n => (Z.abs (n - lastMelodyMidi e) <= 5)%Z
                                      /\ n <> lastMelodyMidi e) cands)
      by (rewrite Hf; left).
    apply list_elem_of_filter in Hx as [[Hnear _] Hin].
    specialize (Hfar x Hin). lia. }
  assert (Hc : (length cands =? 0)%nat = false).
  { apply Nat.eqb_neq. intros Hlen. apply nil_length_inv in Hlen.
    apply Hleaps. unfold leaps, leaps_of. rewrite Hlen. reflexivity. }
  rewrite Hc, Hstep. change (0 <? length (@nil Z))%nat with false.
  rewrite andb_false_r.
  assert (Hl : (0 <? length leaps)%nat = true).
  { apply Nat.ltb_lt. destruct leaps; [congruence|cbn; lia]. }
  rewrite Hl.
  destruct (pick_Some u2 leaps Hu0 Hu1 Hleaps) as [x [Hx Hlook]].
  exists x. split; [exact Hx|].
  assert (Hin : x ∈ leaps) by (eapply list_elem_of_lookup_2; exact Hlook).
  split; [exact Hin|].
  apply list_elem_of_filter in Hin as [[Hgt _] Hin].
  split; [exact Hin|exact Hgt].
Qed.

(** *** The voice pool *)

Lemma frame_refl e : frame e e.
Proof. split; reflexivity. Qed.

Lemma frame_trans e1 e2 e3 : frame e1 e2 -> frame e2 e3 -> frame e1 e3.
Proof.
  intros [] []. split; etransitivity; eassumption.
Qed.

Lemma frame_set_pool pool e :
  length pool = length (voicePool e) -> frame e (set_pool pool e).
Proof. intros H. split; try reflexivity. exact H. Qed.

Lemma frame_shape_voice i f e : frame e (shape_voice i f e).
Proof.
  unfold shape_voice. destruct (voicePool e !! i); [|apply frame_refl].
  apply frame_set_pool, length_insert.
Qed.

Lemma frame_add_timer d v e : frame e (add_timer d v e).
Proof. split; reflexivity. Qed.

Lemma frame_set_lastMelodyMidi m e : frame e (set_lastMelodyMidi m e).
Proof. split; reflexivity. Qed.

Lemma frame_claim now u e i e' :
  _claimVoice now u e = Some (i, e') -> frame e e'.
Proof.
  unfold _claimVoice.
  destruct (list_find _ (voicePool e)) as [[k free]|].
  - intros [= <- <-]. apply frame_set_pool, length_insert.
  - destruct (pick u (voicePool e)); [|discriminate].
    intros [= <- <-]. apply frame_set_pool, length_insert.
Qed.

(** A claim on a pool that is not empty succeeds. *)
Lemma claim_defined now u e :
  0 <= u -> u < 1 -> voicePool e <> [] ->
  exists i e', _claimVoice now u e = Some (i, e').
Proof.
  intros Hu0 Hu1 Hne. unfold _claimVoice.
  destruct (list_find _ (voicePool e)) as [[k free]|]; [eauto|].
  destruct (pick_Some u (voicePool e) Hu0 Hu1 Hne) as [x [-> _]]. eauto.
Qed.

Lemma frame_nonempty e e' : frame e e' -> voicePool e <> [] -> voicePool e' <> [].
Proof.
  intros Hf Hne Heq. apply Hne, nil_length_inv.
  rewrite <- (frame_pool _ _ Hf), Heq. reflexivity.
Qed.

(** Silencing leaves a timeline that is 0 from the claim time on. *)
Lemma insert_event_end (e : ParamEvent) (evs : list ParamEvent) :
  Forall (fun x => ev_time x < ev_time e) evs -> insert_event e evs = evs ++ [e].
Proof.
  induction 1 as [|x evs Hx _ IH]; [reflexivity|].
  cbn [insert_event]. apply Qlt_le_weak, Qltb_ge in Hx. rewrite Hx, IH.
  reflexivity.
Qed.

Lemma value_from_past (evs : list ParamEvent) (now t v0 t0 : Q) :
  Forall (fun x => ev_time x < now) evs -> now <= t ->
  value_from v0 t0 (evs ++ [SetValue 0 now]) t = 0.
Proof.
  intros Hevs Ht. revert v0 t0.
  induction Hevs as [|x evs Hx _ IH]; intros v0 t0; cbn [app value_from ev_time].
  - apply Qltb_ge in Ht. rewrite Ht. reflexivity.
  - assert (Hxt : Qltb t (ev_time x) = false) by (apply Qltb_ge; lra).
    rewrite Hxt. apply IH.
Qed.

Lemma cancelled_events (now : Q) (p : AudioParam) :
  Forall (fun x => ev_time x < now) (events (cancelScheduledValues now p)).
Proof.
  cbn [cancelScheduledValues events]. apply Forall_forall. intros x Hx.
  apply list_elem_of_filter in Hx as [Hx _]. apply Qltb_lt, Hx.
Qed.

Lemma silence_events (now : Q) (v : Voice) :
  events (gain (silence now v))
  = filter (fun x => Qltb (ev_time x) now = true) (events (gain v))
    ++ [SetValue 0 now].
Proof.
  cbn [silence gain setValueAtTime events].
  apply (insert_event_end (SetValue 0 now)), cancelled_events.
Qed.

Lemma silence_value (now t : Q) (v : Voice) :
  now <= t -> valueAt (gain (silence now v)) t = 0.
Proof.
  intros Ht. unfold valueAt. rewrite silence_events.
  apply value_from_past; [|exact Ht].
  apply Forall_forall. intros x Hx.
  apply list_elem_of_filter in Hx as [Hx _]. apply Qltb_lt, Hx.
Qed.

(** *** What holds of every engine *)

Lemma invariant_frame e e' : frame e e' -> invariant e -> invariant e'.
Proof.
  intros Hf [Hc Hs Hp]. split.
  - rewrite (frame_ctx _ _ Hf), (frame_masterGain _ _ Hf). exact Hc.
  - rewrite (frame_sched _ _ Hf), (frame_masterGain _ _ Hf). exact Hs.
  - rewrite (frame_masterGain _ _ Hf). destruct (masterGain e).
    + rewrite (frame_pool _ _ Hf). exact Hp.
    + apply nil_length_inv. rewrite (frame_pool _ _ Hf), Hp. reflexivity.
Qed.

Lemma frame_set_nextTime n e : frame e (set_nextTime n e).
Proof. split; reflexivity. Qed.

Lemma frame_set_noiseGain g e : frame e (set_noiseGain g e).
Proof. split; reflexivity. Qed.

Lemma nextTime_set_pool pool e : nextTime (set_pool pool e) = nextTime e.
Proof. reflexivity. Qed.

Lemma nextTime_shape_voice i f e : nextTime (shape_voice i f e) = nextTime e.
Proof. unfold shape_voice. destruct (voicePool e !! i); reflexivity. Qed.

Lemma nextTime_claim now u e i e' :
  _claimVoice now u e = Some (i, e') -> nextTime e' = nextTime e.
Proof.
  unfold _claimVoice.
  destruct (list_find _ (voicePool e)) as [[k free]|].
  - intros [= <- <-]. reflexivity.
  - destruct (pick u (voicePool e)); [|discriminate].
    intros [= <- <-]. reflexivity.
Qed.

(** *** The three layers *)

Section Layers.

Variable rnd : nat -> Q.
Variable ln : Q -> Q.
Hypothesis rnd_range : forall n, 0 <= rnd n /\ rnd n < 1.

Lemma partial_defined now attack sustain release peak p e k :
  voicePool e <> [] ->
  exists e' k',
    partial rnd now attack sustain release peak p (e, k) = Some (e', k')
    /\ frame e e' /\ nextTime e' = nextTime e.
Proof.
  intros Hne. unfold partial.
  destruct (claim_defined now (rnd k) e (proj1 (rnd_range k))
              (proj2 (rnd_range k)) Hne) as (j & e1 & Hclaim).
  rewrite Hclaim. eexists. eexists. split; [reflexivity|]. split.
  - eapply frame_trans; [exact (frame_claim _ _ _ _ _ Hclaim)|].
    eapply frame_trans; [apply frame_shape_voice|apply frame_add_timer].
  - cbn [add_timer nextTime]. rewrite nextTime_shape_voice.
    exact (nextTime_claim _ _ _ _ _ Hclaim).
Qed.

(** The melody layer never faults on a pool that is not empty, and moves
    only the melody clock. *)
Lemma scheduleMelody_defined c e k :
  voicePool e <> [] ->
  exists e' k',
    _scheduleMelody rnd c (e, k) = Some (e', k')
    /\ frame e e'
    /\ nextTime e'
       = match ctx e, config e, audioState e with
         | true, true, Some a =>
             mkNextTime (drone (nextTime e))
               (Qmax2 (laterTime c Melody) (melody (nextTime e))
                + (1.5 + (1 - musicDensity a) * 4.5))
               (sparkle (nextTime e))
         | _, _, _ => nextTime e
         end.
Proof.
  intros Hne. unfold _scheduleMelody.
  destruct (ctx e); [|exists e, k; repeat split; reflexivity].
  destruct (config e); [|exists e, k; repeat split; reflexivity].
  destruct (audioState e) as [a|]; [|exists e, k; repeat split; reflexivity].
  destruct (nextMelodyNote_defined e (rnd k) (rnd (k + 1))
              (proj1 (rnd_range (k + 1))) (proj2 (rnd_range (k + 1))))
    as [n ->].
  set (now := Qmax2 (laterTime c Melody) (melody (nextTime e))).
  set (e0 := set_lastMelodyMidi n e).
  assert (Hf0 : frame e e0) by apply frame_set_lastMelodyMidi.
  destruct (claim_defined now (rnd (k + 2)) e0 (proj1 (rnd_range _))
              (proj2 (rnd_range _)) (frame_nonempty _ _ Hf0 Hne))
    as (i & e1 & Hclaim).
  rewrite Hclaim. cbn zeta.
  set (sustain := (1.5 + (1 - musicDensity a) * 4.5) * 0.5 + 0.3).
  set (e2 := shape_voice i _ e1).
  assert (Hf2 : frame e e2).
  { eapply frame_trans; [exact Hf0|].
    eapply frame_trans; [exact (frame_claim _ _ _ _ _ Hclaim)|].
    apply frame_shape_voice. }
  assert (Hn2 : nextTime e2 = nextTime e).
  { unfold e2. rewrite nextTime_shape_voice.
    rewrite (nextTime_claim _ _ _ _ _ Hclaim). reflexivity. }
  destruct (partial_defined now 0.08 sustain 0.45 0.12 1 e2
              (k + 2 + claim_draws e0) (frame_nonempty _ _ Hf2 Hne))
    as (e3 & k3 & Hp1 & Hf3 & Hn3).
  rewrite Hp1.
  destruct (partial_defined now 0.08 sustain 0.45 0.12 2 e3 k3
              (frame_nonempty _ _ (frame_trans _ _ _ Hf2 Hf3) Hne))
    as (e4 & k4 & Hp2 & Hf4 & Hn4).
  rewrite Hp2.
  eexists. eexists. split; [reflexivity|]. split.
  - eapply frame_trans; [exact Hf2|].
    eapply frame_trans; [exact Hf3|].
    eapply frame_trans; [exact Hf4|].
    eapply frame_trans; [apply frame_add_timer|apply frame_set_nextTime].
  - cbn [set_nextTime add_timer nextTime]. rewrite Hn4, Hn3, Hn2. reflexivity.
Qed.

Lemma scheduleDrone_spec c e :
  frame e (_scheduleDrone c e)
  /\ nextTime (_scheduleDrone c e)
     = match ctx e, audioState e with
       | true, Some a =>
           mkNextTime
             (Qmax2 (laterTime c Drone) (drone (nextTime e))
              + (8 + (1 - musicDensity a) * 12))
             (melody (nextTime e)) (sparkle (nextTime e))
       | _, _ => nextTime e
       end.
Proof.
  unfold _scheduleDrone.
  destruct (ctx e); [|split; [apply frame_refl|reflexivity]].
  destruct (audioState e); split;
    try apply frame_refl; try apply frame_set_nextTime; reflexivity.
Qed.

Lemma scheduleSparkle_spec c e k :
  frame e (fst (_scheduleSparkle rnd ln c (e, k)))
  /\ nextTime (fst (_scheduleSparkle rnd ln c (e, k)))
     = match ctx e, audioState e, noise e with
       | true, Some a, true =>
           mkNextTime (drone (nextTime e)) (melody (nextTime e))
             (Qmax2 (laterTime c Sparkle) (sparkle (nextTime e))
              + Qmax2 0.1
                  (exponentialRandom ln (0.5 + (1 - musicDensity a) * 2.5)
                                     (rnd k)))
       | _, _, _ => nextTime e
       end.
Proof.
  unfold _scheduleSparkle.
  destruct (ctx e); [|split; [apply frame_refl|reflexivity]].
  destruct (audioState e); [|split; [apply frame_refl|reflexivity]].
  destruct (noise e); [|split; [apply frame_refl|reflexivity]].
  split; [|reflexivity]. cbn [fst].
  eapply frame_trans; [apply frame_set_noiseGain|apply frame_set_nextTime].
Qed.

Lemma clock_rule_idle c e l : clock_rule c e e [] l.
Proof.
  split; [intros H; inversion H|]. split; [reflexivity|left; reflexivity].
Qed.

Ltac in_log :=
  apply list_elem_of_In; cbn; tauto.

Ltac not_in_log H :=
  apply list_elem_of_In in H; cbn in H; intuition discriminate.

(** A tick never faults when the pool is not empty, and moves each clock by
    its rule. *)
Lemma scheduler_tick_defined c e :
  (ctx e = true -> voicePool e <> []) ->
  exists e' log,
    scheduler_tick rnd ln c e = Some (e', log)
    /\ frame e e'
    /\ forall l, clock_rule c e e' log l.
Proof.
  intros Hpool. unfold scheduler_tick.
  destruct (ctx e) eqn:Hctx;
    [|exists e, []; split; [reflexivity|]; split;
      [apply frame_refl|apply clock_rule_idle]].
  destruct (config e) eqn:Hcfg;
    [|exists e, []; split; [reflexivity|]; split;
      [apply frame_refl|apply clock_rule_idle]].
  destruct (audioState e) as [a|] eqn:Has;
    [|exists e, []; split; [reflexivity|]; split;
      [apply frame_refl|apply clock_rule_idle]].
  destruct (suspended c);
    [exists e, []; split; [reflexivity|]; split;
      [apply frame_refl|apply clock_rule_idle]|].
  specialize (Hpool eq_refl).
  set (lookahead := currentTime c + LOOKAHEAD).
  (* Layer A *)
  destruct (scheduleDrone_spec c e) as [Hfd Hnd]. rewrite Hctx, Has in Hnd.
  set (cd := droneEnabled a && Qltb (drone (nextTime e)) lookahead).
  set (r1 := if cd then (_scheduleDrone c e, [Drone]) else (e, [])).
  assert (H1 : frame e (fst r1)
               /\ nextTime (fst r1)
                  = mkNextTime
                      (if cd then Qmax2 (laterTime c Drone) (drone (nextTime e))
                                  + (8 + (1 - musicDensity a) * 12)
                       else drone (nextTime e))
                      (melody (nextTime e)) (sparkle (nextTime e))
               /\ snd r1 = if cd then [Drone] else []).
  { unfold r1. destruct cd; cbn [fst snd].
    - split; [exact Hfd|]. split; [exact Hnd|reflexivity].
    - split; [apply frame_refl|]. split; [|reflexivity].
      destruct (nextTime e); reflexivity. }
  destruct r1 as [e1 log1]. cbn [fst snd] in H1.
  destruct H1 as (Hf1 & Hn1 & Hlog1).
  (* Layer B *)
  set (cm := melodyEnabled a && Qltb (melody (nextTime e1)) lookahead).
  set (r2 := if cm
             then option_map (fun r => (r, [Melody]))
                             (_scheduleMelody rnd c (e1, 0%nat))
             else Some ((e1, 0%nat), [])).
  assert (H2 : exists e2 k log2,
             r2 = Some ((e2, k), log2)
             /\ frame e e2
             /\ nextTime e2
                = mkNextTime (drone (nextTime e1))
                    (if cm then Qmax2 (laterTime c Melody) (melody (nextTime e))
                                + (1.5 + (1 - musicDensity a) * 4.5)
                     else melody (nextTime e))
                    (sparkle (nextTime e))
             /\ log2 = if cm then [Melody] else []).
  { unfold r2. destruct cm.
    - destruct (scheduleMelody_defined c e1 0%nat (frame_nonempty _ _ Hf1 Hpool))
        as (e2 & k & -> & Hf2 & Hn2).
      rewrite (frame_ctx _ _ Hf1), (frame_config _ _ Hf1),
        (frame_audioState _ _ Hf1), Hctx, Hcfg, Has, Hn1 in Hn2.
      exists e2, k, [Melody]. split; [reflexivity|].
      split; [exact (frame_trans _ _ _ Hf1 Hf2)|].
      split; [|reflexivity]. rewrite Hn2, Hn1. reflexivity.
    - exists e1, 0%nat, []. split; [reflexivity|].
      split; [exact Hf1|]. split; [|reflexivity]. rewrite Hn1. reflexivity. }
  destruct H2 as (e2 & k & log2 & -> & Hf2 & Hn2 & Hlog2).
  (* Layer C *)
  set (cs := sparkleEnabled a && Qltb (sparkle (nextTime e2)) lookahead).
  destruct (scheduleSparkle_spec c e2 k) as [Hfs Hns].
  rewrite (frame_ctx _ _ Hf2), (frame_audioState _ _ Hf2), Hctx, Has in Hns.
  set (r3 := if cs then (fst (_scheduleSparkle rnd ln c (e2, k)), [Sparkle])
             else (e2, [])) in *.
  assert (H3 : frame e (fst r3)
               /\ drone (nextTime (fst r3)) = drone (nextTime e1)
               /\ melody (nextTime (fst r3)) = melody (nextTime e2)
               /\ (sparkle (nextTime (fst r3)) = sparkle (nextTime e)
                   \/ (cs = true
                       /\ exists gap, 0.1 <= gap
                            /\ sparkle (nextTime (fst r3))
                               = Qmax2 (laterTime c Sparkle) (sparkle (nextTime e))
                                 + gap))
               /\ snd r3 = if cs then [Sparkle] else []).
  { unfold r3. destruct cs; cbn [fst snd].
    - split; [exact (frame_trans _ _ _ Hf2 Hfs)|].
      rewrite Hns. destruct (noise e2).
      + cbn [drone melody sparkle]. rewrite Hn2. cbn [drone melody sparkle].
        repeat split. right. split; [reflexivity|].
        eexists. split; [apply Qmax2_l|reflexivity].
      + rewrite Hn2. cbn [drone melody sparkle]. repeat split.
        left. reflexivity.
    - split; [exact Hf2|]. rewrite Hn2. cbn [drone melody sparkle].
      repeat split. left. reflexivity. }
  destruct r3 as [e3 log3]. cbn [fst snd] in H3.
  destruct H3 as (Hf3 & Hd3 & Hm3 & Hs3 & Hlog3).
  exists e3, (log1 ++ log2 ++ log3). split; [reflexivity|].
  split; [exact Hf3|].
  rewrite Hn2 in Hm3. cbn [melody] in Hm3.
  rewrite Hn1 in Hd3. cbn [drone] in Hd3.
  assert (Hcs : cs = sparkleEnabled a && Qltb (sparkle (nextTime e)) lookahead).
  { unfold cs. rewrite Hn2. reflexivity. }
  assert (Hcm : cm = melodyEnabled a && Qltb (melody (nextTime e)) lookahead).
  { unfold cm. rewrite Hn1. reflexivity. }
  clearbody cs cm. subst log1 log2 log3.
  intros [| |]; unfold clock_rule; cbn [next_of min_gap].
  - (* drone *)
    rewrite Hd3. destruct cd eqn:Hcd.
    + apply andb_prop in Hcd as [_ Hlt]. apply Qltb_lt in Hlt.
      split; [intros _; exact Hlt|].
      split; [intros Hnot; exfalso; apply Hnot; destruct cm, cs; in_log|].
      right. exists a. eexists. split; [exact Has|].
      split; [apply Qle_refl|reflexivity].
    + split; [|split; [reflexivity|left; reflexivity]].
      intros Hin. exfalso. destruct cm, cs; not_in_log Hin.
  - (* melody *)
    rewrite Hm3. destruct cm eqn:Hcmv.
    + symmetry in Hcm. apply andb_prop in Hcm as [_ Hlt]. apply Qltb_lt in Hlt.
      split; [intros _; exact Hlt|].
      split; [intros Hnot; exfalso; apply Hnot; destruct cd, cs; in_log|].
      right. exists a. eexists. split; [exact Has|].
      split; [apply Qle_refl|reflexivity].
    + split; [|split; [reflexivity|left; reflexivity]].
      intros Hin. exfalso. destruct cd, cs; not_in_log Hin.
  - (* sparkle *)
    destruct cs eqn:Hcsv.
    + symmetry in Hcs. apply andb_prop in Hcs as [_ Hlt]. apply Qltb_lt in Hlt.
      split; [intros _; exact Hlt|].
      split; [intros Hnot; exfalso; apply Hnot; destruct cd, cm; in_log|].
      destruct Hs3 as [Hs3|(_ & gap & Hgap & Hs3)]; [left; exact Hs3|].
      right. exists a, gap. split; [exact Has|]. split; assumption.
    + split; [intros Hin; exfalso; destruct cd, cm; not_in_log Hin|].
      destruct Hs3 as [Hs3|(Hbad & _)]; [|discriminate].
      split; [intros _; exact Hs3|left; exact Hs3].
Qed.

End Layers.

(** *** Every engine keeps the invariant *)

Lemma length_fresh_voices n : length (fresh_voices n) = 6%nat.
Proof. reflexivity. Qed.

Lemma invariant_pool_nonempty e : invariant e -> ctx e = true -> voicePool e <> [].
Proof.
  intros [Hc _ Hp] Hctx. rewrite Hctx in Hc. rewrite <- Hc in Hp.
  intros Heq. rewrite Heq in Hp. discriminate Hp.
Qed.

Lemma invariant_create : invariant create.
Proof. split; reflexivity. Qed.

Lemma invariant_step e e' : invariant e -> step e e' -> invariant e'.
Proof.
  intros Hinv Hstep. destruct Hstep as [e|e|e a root scale|e k|e c rnd ln e' log Hs Hr Ht].
  - unfold init. destruct (masterGain e) eqn:Hm; [exact Hinv|].
    destruct Hinv as [_ _ Hp]. rewrite Hm in Hp.
    split; cbn; try reflexivity. rewrite Hp. reflexivity.
  - split; reflexivity.
  - unfold frame_tick. destruct (masterGain e) eqn:Hm; [|exact Hinv].
    destruct Hinv as [Hc Hsch Hp]. rewrite Hm in *. split; cbn; assumption.
  - unfold fire_timer. destruct (timers e !! k) as [[d v]|]; [|exact Hinv].
    destruct Hinv as [Hc Hsch Hp]. split; cbn; try assumption.
    destruct (masterGain e).
    + unfold free_voice. rewrite length_fmap. exact Hp.
    + rewrite Hp. reflexivity.
  - destruct (scheduler_tick_defined rnd ln Hr c e
                (invariant_pool_nonempty e Hinv)) as (e2 & log2 & Ht2 & Hf & _).
    rewrite Ht in Ht2. injection Ht2 as <- <-.
    exact (invariant_frame _ _ Hf Hinv).
Qed.

Lemma reachable_invariant e : reachable e -> invariant e.
Proof.
  induction 1 as [|e e' _ IH Hstep]; [apply invariant_create|].
  exact (invariant_step _ _ IH Hstep).
Qed.

Lemma busyVoices_le e : (busyVoices e <= length (voicePool e))%nat.
Proof. unfold busyVoices. apply length_filter. Qed.

Lemma invariant_pool_size e : invariant e -> (length (voicePool e) <= 6)%nat.
Proof.
  intros [_ _ Hp]. destruct (masterGain e); [lia|]. rewrite Hp. cbn. lia.
Qed.

(** What a claim returns. *)
Lemma claim_spec now u e :
  0 <= u -> u < 1 -> voicePool e <> [] ->
  exists i v e',
    _claimVoice now u e = Some (i, e')
    /\ voicePool e' !! i = Some v /\ busy v = true
    /\ length (voicePool e') = length (voicePool e)
    /\ (forall j, j <> i -> voicePool e' !! j = voicePool e !! j)
    /\ ((exists free,
           voicePool e !! i = Some free /\ busy free = false
           /\ (forall j y, voicePool e !! j = Some y -> (j < i)%nat -> busy y = true)
           /\ gain v = gain free /\ vid v = vid free)
        \/ (Forall (fun x => busy x = true) (voicePool e)
            /\ exists old,
                 voicePool e !! i = Some old /\ vid v = vid old
                 /\ events (gain v)
                    = filter (fun x => Qltb (ev_time x) now = true)
                             (events (gain old)) ++ [SetValue 0 now]
                 /\ forall t, now <= t -> valueAt (gain v) t = 0)).
Proof.
  intros Hu0 Hu1 Hne. unfold _claimVoice.
  destruct (list_find _ (voicePool e)) as [[k free]|] eqn:Hfind.
  - apply list_find_Some in Hfind as (Hk & Hfree & Hmin).
    exists k, (mkVoice (vid free) (gain free) true). eexists.
    split; [reflexivity|]. cbn [set_pool voicePool].
    split; [apply list_lookup_insert_eq, (lookup_lt_Some _ _ _ Hk)|].
    split; [reflexivity|]. split; [apply length_insert|].
    split; [intros j Hj; apply list_lookup_insert_ne; congruence|].
    left. exists free. split; [exact Hk|]. split; [exact Hfree|].
    split; [|split; reflexivity].
    intros j y Hy Hlt. specialize (Hmin j y Hy Hlt).
    destruct (busy y); [reflexivity|]. exfalso. apply Hmin. reflexivity.
  - apply list_find_None in Hfind.
    destruct (pick_Some u (voicePool e) Hu0 Hu1 Hne) as [stolen [-> Hlook]].
    set (i := Z.to_nat (floor_scaled u (length (voicePool e)))) in *.
    exists i, (silence now stolen). eexists.
    split; [reflexivity|]. cbn [set_pool voicePool].
    split; [apply list_lookup_insert_eq, (lookup_lt_Some _ _ _ Hlook)|].
    split; [reflexivity|]. split; [apply length_insert|].
    split; [intros j Hj; apply list_lookup_insert_ne; congruence|].
    right. split.
    + eapply Forall_impl; [exact Hfind|]. intros x Hx. cbn beta in Hx.
      destruct (busy x); [reflexivity|]. exfalso. apply Hx. reflexivity.
    + exists stolen. split; [exact Hlook|]. split; [reflexivity|].
      split; [apply silence_events|]. intros t Ht. apply silence_value, Ht.
Qed.

(** C4.  In every state an engine can reach, the number of busy voices is
    at most the size of the pool, which is at most 6 (and is 6 while the
    scheduler runs).  A call of [_claimVoice] on a pool that is not empty
    returns a voice of the pool, marked busy, and touches no other voice:
    the first free voice when there is one; otherwise, all being busy, a
    voice whose scheduled gain events from the claim time on are cancelled
    and replaced by a single set-to-0 at the claim time, so that its gain
    is 0 at the claim time and after. *)
Theorem voice_pool_conservation (e : t) (now u : Q) :
  reachable e -> 0 <= u -> u < 1 ->
  (busyVoices e <= length (voicePool e))%nat
  /\ (length (voicePool e) <= 6)%nat
  /\ (schedInterval e = true -> length (voicePool e) = 6%nat)
  /\ (voicePool e <> [] ->
      exists i v e',
        _claimVoice now u e = Some (i, e')
        /\ voicePool e' !! i = Some v /\ busy v = true
        /\ length (voicePool e') = length (voicePool e)
        /\ (busyVoices e' <= 6)%nat
        /\ (forall j, j <> i -> voicePool e' !! j = voicePool e !! j)
        /\ ((exists free,
               voicePool e !! i = Some free /\ busy free = false
               /\ (forall j y, voicePool e !! j = Some y -> (j < i)%nat ->
                               busy y = true)
               /\ gain v = gain free /\ vid v = vid free)
            \/ (Forall (fun x => busy x = true) (voicePool e)
                /\ exists old,
                     voicePool e !! i = Some old /\ vid v = vid old
                     /\ events (gain v)
                        = filter (fun x => Qltb (ev_time x) now = true)
                                 (events (gain old)) ++ [SetValue 0 now]
                     /\ forall t, now <= t -> valueAt (gain v) t = 0))).
Proof.
  intros Hreach Hu0 Hu1.
  pose proof (reachable_invariant e Hreach) as Hinv.
  split; [apply busyVoices_le|].
  split; [apply invariant_pool_size, Hinv|].
  split.
  { intros Hs. destruct Hinv as [_ Hsch Hp]. rewrite Hs in Hsch.
    rewrite <- Hsch in Hp. exact Hp. }
  intros Hne.
  destruct (claim_spec now u e Hu0 Hu1 Hne)
    as (i & v & e' & Hclaim & Hv & Hbusy & Hlen & Hothers & Hwhich).
  exists i, v, e'. repeat (split; [assumption|]).
  split; [|split; assumption].
  pose proof (busyVoices_le e'). pose proof (invariant_pool_size e Hinv). lia.
Qed.

(** *** The clocks *)

Lemma min_gap_nonneg l a : musicDensity a <= 1 -> 0 <= min_gap l a.
Proof. intros H1. destruct l; cbn [min_gap]; lra. Qed.

Lemma clock_rule_monotone c e e' log l :
  (forall a, audioState e = Some a -> musicDensity a <= 1) ->
  clock_rule c e e' log l -> next_of l e <= next_of l e'.
Proof.
  intros Hd (_ & _ & [->|(a & gap & Ha & Hgap & ->)]); [apply Qle_refl|].
  pose proof (min_gap_nonneg l a (Hd a Ha)).
  pose proof (Qmax2_r (laterTime c l) (next_of l e)). lra.
Qed.

(** Only scheduler ticks touch the clocks. *)
Lemma nextTime_init e : nextTime (init e) = nextTime e.
Proof. unfold init. destruct (masterGain e); reflexivity. Qed.

Lemma nextTime_frame_tick a root scale e :
  nextTime (frame_tick a root scale e) = nextTime e.
Proof. unfold frame_tick. destruct (masterGain e); reflexivity. Qed.

Lemma nextTime_fire_timer k e : nextTime (fire_timer k e) = nextTime e.
Proof. unfold fire_timer. destruct (timers e !! k) as [[d v]|]; reflexivity. Qed.

Lemma step_monotone e e' l :
  invariant e ->
  (forall a, audioState e = Some a -> musicDensity a <= 1) ->
  step e e' -> next_of l e <= next_of l e'.
Proof.
  intros Hinv Hd Hstep.
  destruct Hstep as [e|e|e a root scale|e k|e c rnd ln e' log Hs Hr Ht].
  - unfold next_of. rewrite nextTime_init. destruct l; apply Qle_refl.
  - destruct l; apply Qle_refl.
  - unfold next_of. rewrite nextTime_frame_tick. destruct l; apply Qle_refl.
  - unfold next_of. rewrite nextTime_fire_timer. destruct l; apply Qle_refl.
  - destruct (scheduler_tick_defined rnd ln Hr c e
                (invariant_pool_nonempty e Hinv)) as (e2 & log2 & Ht2 & _ & Hrule).
    rewrite Ht in Ht2. injection Ht2 as <- <-.
    exact (clock_rule_monotone c e e' log l Hd (Hrule l)).
Qed.

Lemma run_monotone e e' l :
  invariant e -> run_of e e' -> invariant e' /\ next_of l e <= next_of l e'.
Proof.
  intros Hinv Hrun. induction Hrun as [e|e e1 e2 _ IH Hd Hstep].
  - split; [exact Hinv|apply Qle_refl].
  - destruct (IH Hinv) as [Hinv1 Hle]. split.
    + exact (invariant_step _ _ Hinv1 Hstep).
    + apply Qle_trans with (next_of l e1); [exact Hle|].
      exact (step_monotone e1 e2 l Hinv1 Hd Hstep).
Qed.

(** C3.  At a scheduler tick of an engine whose density control is at most
    1 (its range is 0..1), with draws of [Math.random()] in [0, 1): the tick
    completes; no layer's [nextEventTime] decreases; a layer whose
    [_schedule...] method the tick calls had its [nextEventTime] strictly
    below the audio-clock time plus the lookahead window, 0.025 s; the
    clock of a layer not called stays as it was.  No other operation of
    the engine touches the clocks, so along any run of the engine with the
    density control at most 1 no [nextEventTime] ever decreases. *)
Theorem scheduler_clocks_monotone
  (rnd : nat -> Q) (ln : Q -> Q) (c : Clock) (e : t) :
  reachable e ->
  (forall n, 0 <= rnd n /\ rnd n < 1) ->
  (forall a, audioState e = Some a -> musicDensity a <= 1) ->
  (exists e' log,
     scheduler_tick rnd ln c e = Some (e', log)
     /\ forall l,
          next_of l e <= next_of l e'
          /\ (l ∈ log -> next_of l e < currentTime c + LOOKAHEAD)
          /\ (l ∉ log -> next_of l e' = next_of l e))
  /\ LOOKAHEAD = 0.025
  /\ nextTime (init e) = nextTime e
  /\ nextTime (dispose e) = nextTime e
  /\ (forall a root scale, nextTime (frame_tick a root scale e) = nextTime e)
  /\ (forall k, nextTime (fire_timer k e) = nextTime e)
  /\ (forall e' l, run_of e e' -> next_of l e <= next_of l e').
Proof.
  intros Hreach Hrange Hdensity.
  pose proof (reachable_invariant e Hreach) as Hinv.
  split.
  { destruct (scheduler_tick_defined rnd ln Hrange c e
                (invariant_pool_nonempty e Hinv)) as (e' & log & Ht & _ & Hrule).
    exists e', log. split; [exact Ht|]. intros l.
    split; [exact (clock_rule_monotone c e e' log l Hdensity (Hrule l))|].
    destruct (Hrule l) as (Hin & Hout & _). split; assumption. }
  split; [reflexivity|].
  split; [apply nextTime_init|].
  split; [reflexivity|].
  split; [intros a root scale; apply nextTime_frame_tick|].
  split; [intros k; apply nextTime_fire_timer|].
  intros e' l Hrun. exact (proj2 (run_monotone e e' l Hinv Hrun)).
Qed.

End MusicFacts.

(** ** The music engine on concrete states *)

Module MusicExamples.

Import JS QOps WebAudio SpiralMusicEngine MusicFacts.
Local Open Scope Q_scope.

Lemma sample_engine_reachable : reachable sample_engine.
Proof.
  unfold sample_engine.
  eapply reach_step; [|apply step_frame].
  eapply reach_step; [apply reach_create|apply step_init].
Qed.

Lemma half_in_range (n : nat) :
  0 <= (fun _ : nat => 1 # 2) n /\ (fun _ : nat => 1 # 2) n < 1.
Proof. split; [discriminate|reflexivity]. Qed.

(** A use of C9's theorem: with the root at 72 and the last note at 48 the
    stepwise bucket is empty, and the note returned is a leap. *)
Lemma nextMelodyNote_leap_fallback_witness :
  exists n,
    _nextMelodyNote far_engine (1 # 2) (1 # 2) = Some n
    /\ (Z.abs (n - 48) > 5)%Z.
Proof.
  destruct (nextMelodyNote_leap_fallback far_engine (1 # 2) (1 # 2))
    as [_ Hleap]; [discriminate|reflexivity|].
  destruct Hleap as (n & Hn & _ & _ & Hfar).
  - intros n Hn. apply list_elem_of_In in Hn. vm_compute in Hn.
    repeat (destruct Hn as [Heq|Hn]; [rewrite <- Heq; vm_compute; reflexivity|]).
    destruct Hn.
  - vm_compute. discriminate.
  - exists n. split; [exact Hn|exact Hfar].
Defined.

(** A use of C4's theorem: the first claim on a fresh pool. *)
Lemma voice_pool_conservation_witness :
  (busyVoices (init create) <= 6)%nat
  /\ exists i e', _claimVoice 1 (1 # 2) (init create) = Some (i, e').
Proof.
  destruct (voice_pool_conservation (init create) 1 (1 # 2))
    as (Hbusy & Hsize & _ & Hclaim).
  - eapply reach_step; [apply reach_create|apply step_init].
  - discriminate.
  - reflexivity.
  - split; [lia|].
    destruct Hclaim as (i & v & e' & He' & _); [discriminate|].
    exists i, e'. exact He'.
Defined.

(** A steal: on a pool of two busy voices, the draw 0.5 picks the second,
    whose pending ramp is cancelled; its gain is 0 at the claim time. *)
Example steal_second_voice :
  let ramp := mkParam 0 [SetValue 0 1; LinearRamp 0.12 1.08; LinearRamp 0 3] in
  let e := set_pool [mkVoice 0 ramp true; mkVoice 1 ramp true] create in
  exists e',
    _claimVoice 2 (1 # 2) e = Some (1%nat, e')
    /\ (gain <$> voicePool e' !! 1%nat)
       = Some (mkParam 0 [SetValue 0 1; LinearRamp 0.12 1.08; SetValue 0 2])
    /\ (gain <$> voicePool e' !! 0%nat) = Some ramp
    /\ valueAt ramp 2 == 0.0625
    /\ (fun v => valueAt (gain v) 2) <$> voicePool e' !! 1%nat = Some 0.
Proof.
  cbn zeta. eexists. split; [vm_compute; reflexivity|].
  repeat split; vm_compute; reflexivity.
Qed.

(** A use of C3's theorem: the first tick of the sample engine at audio
    time 1. *)
Lemma scheduler_clocks_monotone_witness :
  exists e' log,
    scheduler_tick (fun _ => 1 # 2) (fun _ => - (1)) (steady 1)
                   sample_engine = Some (e', log)
    /\ forall l, next_of l sample_engine <= next_of l e'.
Proof.
  destruct (scheduler_clocks_monotone (fun _ => 1 # 2) (fun _ => - (1))
              (steady 1) sample_engine)
    as [(e' & log & Htick & Hrule) _].
  - exact sample_engine_reachable.
  - exact half_in_range.
  - intros a [= <-]. discriminate.
  - exists e', log. split; [exact Htick|]. intros l. apply (Hrule l).
Defined.

(** What that tick does: at time 1 all three clocks (at 0) are below
    1.025, so the three layers are scheduled, and the clocks move to
    1 + 14, 1 + 3.75 and 1 + 1.75. *)
Example first_tick_of_sample_engine :
  (fun r => (snd r, nextTime (fst r)))
    <$> scheduler_tick (fun _ => 1 # 2) (fun _ => - (1)) (steady 1)
                       sample_engine
  = Some ([Drone; Melody; Sparkle],
          mkNextTime (Qmax2 1 0 + (8 + (1 - 0.5) * 12))
                     (Qmax2 1 0 + (1.5 + (1 - 0.5) * 4.5))
                     (Qmax2 1 0 + Qmax2 0.1 (- (0.5 + (1 - 0.5) * 2.5) * - (1)))).
Proof. vm_compute. reflexivity. Qed.

End MusicExamples.

(** ** The geometry over its whole life *)

Module SpiralGeometryCallsFacts.

Import JS SpiralGeometry SpiralGeometryFacts SpiralGeometryCalls FloatOrder.
Local Open Scope nat_scope.

Lemma holds_reset g S : holds g S -> holds (reset g) [].
Proof.
  intros [Hlp Hlc _ _ _ _ _].
  split; cbn [reset segments rgbColors segmentCount length];
    try assumption; try reflexivity; try lia.
  constructor.
Qed.

Lemma holds_same_arrays g g' S :
  segments g' = segments g -> rgbColors g' = rgbColors g ->
  segmentCount g' = segmentCount g ->
  holds g S -> holds g' S.
Proof.
  intros Hs Hc Hn [Hlp Hlc Hcount Hbound Hsix Hpos Hcol].
  split; rewrite ?Hs, ?Hc, ?Hn; assumption.
Qed.

Lemma holds_perform g S c :
  holds g S -> exists S', holds (perform g c) S'.
Proof.
  intros Hg. destruct c as [s|w h|w|w h|]; cbn [perform].
  - eexists. apply holds_appendSegment, Hg.
  - exists S. apply (holds_same_arrays g); [reflexivity..|exact Hg].
  - exists S. apply (holds_same_arrays g); [reflexivity..|exact Hg].
  - exists S. apply (holds_same_arrays g); [reflexivity..|exact Hg].
  - exists []. exact (holds_reset g S Hg).
Qed.

Lemma holds_calls calls : forall g S,
  holds g S -> exists S', holds (fold_left perform calls g) S'.
Proof.
  induction calls as [|c calls IH]; intros g S Hg; [exists S; exact Hg|].
  cbn [fold_left]. destruct (holds_perform g S c Hg) as [S' Hg'].
  exact (IH _ _ Hg').
Qed.

Lemma holds_life calls : exists S, holds (life calls) S.
Proof. exact (holds_calls calls create [] holds_create). Qed.

(** X1.  [reset] makes the buffer as good as new: whatever calls a
    geometry has received, after [reset] a history of appends leaves the
    segments, oldest first, that the same history leaves on a new geometry,
    and as many of them. *)
Theorem reset_then_append_as_new (calls : list call) (history : list Segment) :
  let g := fold_left appendSegment history (reset (life calls)) in
  contents g = contents (run history)
  /\ segmentCount g = segmentCount (run history)
  /\ contents (reset (life calls)) = [].
Proof.
  cbn zeta. destruct (holds_life calls) as [S HS].
  pose proof (holds_reset _ _ HS) as H0.
  pose proof (holds_fold history _ _ H0) as H1.
  pose proof (holds_run history) as H2.
  split; [|split].
  - rewrite (holds_contents _ _ H1), (holds_contents _ _ H2). reflexivity.
  - rewrite (holds_count _ _ H1), (holds_count _ _ H2). reflexivity.
  - exact (holds_contents _ _ H0).
Qed.

Lemma Math_max_floor (w : float) :
  is_nan (Math_max 0.1 w) = true \/ (0.1 <=? Math_max 0.1 w)%float = true.
Proof.
  unfold Math_max. change (is_nan 0.1) with false. cbn [orb].
  destruct (is_nan w); [left; reflexivity|right].
  destruct (0.1 <? w)%float eqn:H; [apply ltb_leb, H|].
  change (is_zero 0.1) with false. cbn [andb].
  destruct (w <? 0.1)%float; reflexivity.
Qed.

Lemma wide_enough_perform g c : wide_enough g -> wide_enough (perform g c).
Proof.
  intros Hg. destruct c as [s|w h|w|w h|]; cbn [perform]; intros m.
  - unfold appendSegment. cbn [material].
    destruct (MAX_SEGMENTS <=? segmentCount g);
      cbn [_dropOldest material];
      destruct (material g) as [m0|] eqn:Hm; try discriminate;
      intros [= <-]; cbn [linewidth]; apply Hg; exact Hm.
  - cbn [addToScene material]. intros [= <-]. right. reflexivity.
  - cbn [setLineWidth material].
    destruct (material g) as [m0|]; [|discriminate].
    intros [= <-]. cbn [linewidth]. apply Math_max_floor.
  - cbn [setResolution material].
    destruct (material g) as [m0|] eqn:Hm; [|discriminate].
    intros [= <-]. cbn [linewidth]. apply Hg. exact Hm.
  - cbn [reset material]. apply Hg.
Qed.

Lemma count_perform g c :
  instanceCount g = segmentCount g ->
  instanceCount (perform g c) = segmentCount (perform g c).
Proof.
  intros Hg. destruct c; cbn [perform]; try exact Hg; reflexivity.
Qed.

Lemma life_snoc calls c : life (calls ++ [c]) = perform (life calls) c.
Proof. unfold life. rewrite fold_left_app. reflexivity. Qed.

(** X2.  Whatever calls a geometry receives ([appendSegment],
    [addToScene], [setLineWidth], [setResolution], [reset], in any order):
    the instance count that is drawn is the number of segments stored, at
    most [MAX_SEGMENTS]; the two arrays keep their [MAX_SEGMENTS * 6]
    floats; and the line width of the material is never below 0.1 (it is
    NaN when [setLineWidth] was given NaN). *)
Theorem geometry_life_invariants (calls : list call) :
  let g := life calls in
  instanceCount g = segmentCount g
  /\ segmentCount g <= MAX_SEGMENTS
  /\ length (segments g) = MAX_SEGMENTS * 6
  /\ length (rgbColors g) = MAX_SEGMENTS * 6
  /\ forall m, material g = Some m ->
       is_nan (linewidth m) = true \/ (0.1 <=? linewidth m)%float = true.
Proof.
  cbn zeta. destruct (holds_life calls) as [S HS].
  split; [|split; [|split; [|split]]].
  - clear S HS. induction calls as [|c calls IH] using rev_ind; [reflexivity|].
    rewrite life_snoc. apply count_perform, IH.
  - rewrite (holds_count _ _ HS). exact (holds_bound _ _ HS).
  - exact (holds_len_pos _ _ HS).
  - exact (holds_len_col _ _ HS).
  - clear S HS. induction calls as [|c calls IH] using rev_ind.
    + intros m Hm. discriminate Hm.
    + rewrite life_snoc. apply wide_enough_perform. exact IH.
Qed.

Lemma same_but_opacity_append g g' s s' :
  same_but_opacity g g' -> same_line s s' ->
  same_but_opacity (appendSegment g s) (appendSegment g' s')
  /\ (sa s = sa s' -> appendSegment g s = appendSegment g' s').
Proof.
  intros (Hs & Hc & Hn & Hi & Hp & Hq & Hm)
         (H1 & H2 & H3 & H4 & H5 & H6 & H7).
  unfold appendSegment. rewrite <- Hn, H1, H2, H3, H4, H5, H6, H7.
  assert (Hmat : forall a a',
            option_map (fun m => (linewidth m, resolution m))
              match material g with
              | Some m => Some (mkMaterial a (linewidth m) (resolution m))
              | None => None
              end
            = option_map (fun m => (linewidth m, resolution m))
                match material g' with
                | Some m => Some (mkMaterial a' (linewidth m) (resolution m))
                | None => None
                end
            /\ (a = a' ->
                match material g with
                | Some m => Some (mkMaterial a (linewidth m) (resolution m))
                | None => None
                end
                = match material g' with
                  | Some m => Some (mkMaterial a' (linewidth m) (resolution m))
                  | None => None
                  end)).
  { intros a a'.
    destruct (material g) as [m|], (material g') as [m'|];
      try discriminate Hm; [|split; reflexivity].
    cbn [option_map linewidth resolution] in *.
    injection Hm as Hl Hr. rewrite Hl, Hr. split; [reflexivity|].
    intros ->. reflexivity. }
  destruct (MAX_SEGMENTS <=? segmentCount g);
    cbn [_dropOldest segments rgbColors segmentCount instanceCount
         posNeedsUpdate colNeedsUpdate material];
    rewrite <- ?Hs, <- ?Hc, <- ?Hn;
    destruct (Hmat (sa s) (sa s')) as [Hm1 Hm2];
    (split;
     [repeat split; try reflexivity; exact Hm1
     |intros Ha; rewrite (Hm2 Ha); reflexivity]).
Qed.

Lemma same_but_opacity_fold h h' :
  Forall2 same_line h h' ->
  forall g g', same_but_opacity g g' ->
  same_but_opacity (fold_left appendSegment h g) (fold_left appendSegment h' g').
Proof.
  induction 1 as [|s s' h h' Hss _ IH]; intros g g' Hg; [exact Hg|].
  cbn [fold_left]. apply IH.
  exact (proj1 (same_but_opacity_append g g' s s' Hg Hss)).
Qed.

Lemma same_line_refl s : same_line s s.
Proof. repeat split. Qed.

(** X3.  Alpha is not kept per segment: the alpha of an append only sets
    the opacity of the one shared material, so of two histories with the
    same lines and colours, whatever their alphas, the same last append
    leaves the same geometry. *)
Theorem alpha_of_last_append_only
  (g : t) (h h' : list Segment) (s : Segment) :
  Forall2 same_line h h' ->
  fold_left appendSegment (h ++ [s]) g = fold_left appendSegment (h' ++ [s]) g.
Proof.
  intros Hh. rewrite !fold_left_app. cbn [fold_left].
  assert (Hg : same_but_opacity g g) by (repeat split).
  pose proof (same_but_opacity_fold h h' Hh g g Hg) as Hfold.
  exact (proj2 (same_but_opacity_append _ _ s s Hfold (same_line_refl s)) eq_refl).
Qed.

Lemma alpha_of_last_append_only_witness :
  let a := mkSegment 0 0 1 1 1 0 0 0.25 in
  let a' := mkSegment 0 0 1 1 1 0 0 0.75 in
  let s := mkSegment 1 1 2 0 0 1 0 0.5 in
  fold_left appendSegment ([a] ++ [s]) (addToScene create 800 600)
  = fold_left appendSegment ([a'] ++ [s]) (addToScene create 800 600).
Proof.
  cbn zeta. apply alpha_of_last_append_only.
  constructor; [repeat split|constructor].
Defined.

End SpiralGeometryCallsFacts.

(** ** The beat detector over a run of frames *)

Module ReactiveCallsFacts.

Import JS ReactiveEngine ReactiveEngineCalls.
Import SpiralGeometry (lastn).
Local Open Scope nat_scope.

Lemma update_connected snapshot e : connected (update snapshot e) = connected e.
Proof. unfold update. destruct (connected e) eqn:H; [reflexivity|exact H]. Qed.

Lemma update_lastBeatTime snapshot e :
  lastBeatTime (update snapshot e) = lastBeatTime e.
Proof. unfold update. destruct (connected e); reflexivity. Qed.

Lemma updates_lastBeatTime snapshots : forall e,
  lastBeatTime (updates snapshots e) = lastBeatTime e.
Proof.
  induction snapshots as [|s l IH]; intros e; [reflexivity|].
  unfold updates in *. cbn [fold_left]. rewrite IH. apply update_lastBeatTime.
Qed.

Lemma update_history snapshot e :
  connected e = true ->
  energyHistory (update snapshot e)
  = let h := energyHistory e ++ [energy_of snapshot] in
    if ENERGY_HISTORY_LEN <? length h then drop 1 h else h.
Proof. intros Hc. unfold update. rewrite Hc. reflexivity. Qed.

Lemma update_history_length snapshot e :
  length (energyHistory (update snapshot e)) <= S (length (energyHistory e)).
Proof.
  unfold update. destruct (connected e); cbn [negb]; [|lia].
  cbn [energyHistory].
  match goal with |- context [if ?c then _ else _] => destruct c end;
    rewrite ?length_drop, length_app; cbn [length]; lia.
Qed.

Lemma updates_history_length snapshots : forall e,
  length (energyHistory (updates snapshots e))
  <= length (energyHistory e) + length snapshots.
Proof.
  induction snapshots as [|s l IH]; intros e; [cbn; lia|].
  unfold updates in *. cbn [fold_left length].
  pose proof (IH (update s e)). pose proof (update_history_length s e). lia.
Qed.

Lemma lastn_all {A} (n : nat) (l : list A) : length l <= n -> lastn n l = l.
Proof.
  intros H. unfold lastn. replace (length l - n) with 0 by lia. reflexivity.
Qed.

Lemma lastn_drop_head {A} (n : nat) (l r : list A) :
  n < length l -> lastn n (drop 1 l ++ r) = lastn n (l ++ r).
Proof.
  intros H. unfold lastn. destruct l as [|x l]; [cbn in H; lia|].
  cbn [drop length] in *. rewrite !length_app. cbn [length app].
  replace (S (length l) + length r - n) with (S (length l + length r - n)) by lia.
  reflexivity.
Qed.

(** The window the history is after any frames. *)
Lemma updates_window snapshots : forall e,
  connected e = true ->
  length (energyHistory e) <= ENERGY_HISTORY_LEN ->
  energyHistory (updates snapshots e)
  = lastn ENERGY_HISTORY_LEN (energyHistory e ++ (energy_of <$> snapshots))
  /\ connected (updates snapshots e) = true.
Proof.
  induction snapshots as [|s l IH]; intros e Hc Hlen.
  - split; [|exact Hc]. cbn [updates fold_left fmap list_fmap].
    rewrite app_nil_r. symmetry. apply lastn_all, Hlen.
  - unfold updates in *. cbn [fold_left].
    pose proof (update_history s e Hc) as Hh. cbn zeta in Hh.
    assert (Hc' : connected (update s e) = true)
      by (rewrite update_connected; exact Hc).
    assert (Hlen' : length (energyHistory (update s e)) <= ENERGY_HISTORY_LEN).
    { rewrite Hh. destruct (Nat.ltb_spec ENERGY_HISTORY_LEN
                              (length (energyHistory e ++ [energy_of s])))
        as [Hgt|Hle]; [|exact Hle].
      rewrite length_drop. rewrite length_app in *. cbn [length] in *. lia. }
    destruct (IH _ Hc' Hlen') as [-> ->]. split; [|reflexivity].
    rewrite Hh. csimpl.
    replace (energyHistory e ++ energy_of s :: (energy_of <$> l))
      with ((energyHistory e ++ [energy_of s]) ++ (energy_of <$> l))
      by (rewrite <- app_assoc; reflexivity).
    destruct (Nat.ltb_spec ENERGY_HISTORY_LEN
                (length (energyHistory e ++ [energy_of s]))) as [Hgt|Hle];
      [|reflexivity].
    apply lastn_drop_head, Hgt.
Qed.

Lemma connectFileBuffer_state e :
  connected (connectFileBuffer e) = true
  /\ energyHistory (connectFileBuffer e) = [].
Proof.
  unfold connectFileBuffer, _initAnalyser, disconnect. cbn [connected].
  destruct (connected e) eqn:H; cbn [connected energyHistory];
    split; try reflexivity; exact H.
Qed.

(** X4.  The energy history is a rolling window of the last 60 frames:
    after a source is connected and any number of [update] calls, the
    history holds the overall energies of the most recent snapshots, oldest
    first, 60 of them at most. *)
Theorem energy_history_is_rolling_window (e0 : t) (snapshots : list (list Z)) :
  let e := updates snapshots (connectFileBuffer e0) in
  energyHistory e = lastn 60 (energy_of <$> snapshots)
  /\ length (energyHistory e) = Nat.min 60 (length snapshots).
Proof.
  cbn zeta. destruct (connectFileBuffer_state e0) as [Hc Hh].
  destruct (updates_window snapshots (connectFileBuffer e0) Hc) as [Hw _].
  { rewrite Hh. cbn. lia. }
  rewrite Hh in Hw. cbn [app] in Hw. change ENERGY_HISTORY_LEN with 60 in Hw.
  split; [exact Hw|].
  rewrite Hw. unfold lastn. rewrite length_drop, length_fmap. lia.
Qed.

Lemma isBeat_true_time now e :
  fst (isBeat now e) = true -> lastBeatTime (snd (isBeat now e)) = now.
Proof.
  unfold isBeat. cbn zeta.
  destruct (length (energyHistory e) <? 10); [discriminate|].
  destruct (now - lastBeatTime e <? BEAT_COOLDOWN_MS)%Z; [discriminate|].
  destruct (energyHistory e !! (length (energyHistory e) - 1));
    [|discriminate].
  match goal with |- context [if ?c then _ else _] => destruct c end;
    [reflexivity|discriminate].
Qed.

Lemma isBeat_cooldown now e :
  (now - lastBeatTime e < BEAT_COOLDOWN_MS)%Z -> fst (isBeat now e) = false.
Proof.
  intros H. unfold isBeat. cbn zeta.
  destruct (length (energyHistory e) <? 10); [reflexivity|].
  apply Z.ltb_lt in H. rewrite H. reflexivity.
Qed.

(** X5.  The cooldown holds across frames: once [isBeat] has answered
    true at time [t], it answers false at every time less than 200 ms
    after [t], whatever snapshots [update] has read in between. *)
Theorem no_second_beat_within_cooldown
  (e : t) (t now : Z) (snapshots : list (list Z)) :
  fst (isBeat t e) = true ->
  (now - t < 200)%Z ->
  fst (isBeat now (updates snapshots (snd (isBeat t e)))) = false.
Proof.
  intros Hbeat Hnow. apply isBeat_cooldown.
  rewrite updates_lastBeatTime, (isBeat_true_time t e Hbeat). exact Hnow.
Qed.

Lemma no_second_beat_within_cooldown_witness :
  let quiet := replicate 128 30%Z in
  let loud := replicate 128 200%Z in
  let e := updates (replicate 9 quiet ++ [loud]) (connectFileBuffer create) in
  fst (isBeat 1000 e) = true
  /\ fst (isBeat 1199 (updates [loud; loud] (snd (isBeat 1000 e)))) = false.
Proof.
  cbn zeta. split; [vm_compute; reflexivity|].
  apply no_second_beat_within_cooldown; [vm_compute; reflexivity|lia].
Defined.

Lemma updates_unconnected snapshots : forall e,
  connected e = false -> updates snapshots e = e.
Proof.
  induction snapshots as [|s l IH]; intros e Hc; [reflexivity|].
  unfold updates in *. cbn [fold_left].
  assert (Hu : update s e = e) by (unfold update; rewrite Hc; reflexivity).
  rewrite Hu. apply IH, Hc.
Qed.

(** X6.  After [disconnect] or a new connection the detector starts over:
    with fewer than 10 [update] calls since, [isBeat] answers false,
    whatever the snapshots and the time.  An engine that never had a
    source answers false after any number of [update] calls. *)
Theorem no_beat_while_warming_up
  (e : t) (snapshots : list (list Z)) (now : Z) :
  length snapshots < 10 ->
  fst (isBeat now (updates snapshots (disconnect e))) = false
  /\ fst (isBeat now (updates snapshots (connectFileBuffer e))) = false
  /\ forall frames, fst (isBeat now (updates frames create)) = false.
Proof.
  intros Hlen.
  assert (Hshort : forall e1, energyHistory e1 = [] ->
            fst (isBeat now (updates snapshots e1)) = false).
  { intros e1 He1. unfold isBeat. cbn zeta.
    pose proof (updates_history_length snapshots e1) as Hl.
    rewrite He1 in Hl. cbn [length] in Hl.
    destruct (Nat.ltb_spec (length (energyHistory (updates snapshots e1))) 10)
      as [_|Hge]; [reflexivity|lia]. }
  split; [apply Hshort; reflexivity|].
  split; [apply Hshort; exact (proj2 (connectFileBuffer_state e))|].
  intros frames. rewrite updates_unconnected; reflexivity.
Qed.

Lemma no_beat_while_warming_up_witness :
  fst (isBeat 1000
         (updates (replicate 9 (replicate 128 255%Z))
                  (disconnect (connectFileBuffer create)))) = false.
Proof.
  refine (proj1 (no_beat_while_warming_up (connectFileBuffer create)
                   (replicate 9 (replicate 128 255%Z)) 1000 _)).
  cbn. lia.
Defined.

End ReactiveCallsFacts.

(** ** The reactive mods of a tick *)

Module AudioTickFacts.

Import JS ReactiveEngine ReactiveEngineCalls AudioManager AudioManagerTick.
Local Open Scope float_scope.

Lemma applyMapping_numeric mapping energy config x :
  _applyMapping mapping energy config = Some x ->
  exists base, config !! parameter mapping = Some (VNumber base).
Proof.
  unfold _applyMapping.
  destruct (config !! parameter mapping) as [[base|s|b]|]; try discriminate.
  intros _. exists base. reflexivity.
Qed.

Lemma applyMapping_defined mapping energy config base :
  config !! parameter mapping = Some (VNumber base) ->
  exists x, _applyMapping mapping energy config = Some x.
Proof. unfold _applyMapping. intros ->. eexists. reflexivity. Qed.

(** Every key of the mods is a numeric field of the configuration. *)
Lemma fold_assign_numeric config beat r l : forall acc,
  (forall k x, acc !! k = Some x ->
     exists base, config !! k = Some (VNumber base)) ->
  forall k x, fold_left (assign config beat r) l acc !! k = Some x ->
     exists base, config !! k = Some (VNumber base).
Proof.
  induction l as [|mp l IH]; intros acc Hacc; [exact Hacc|].
  cbn [fold_left]. apply IH. intros k x. unfold assign.
  destruct (_applyMapping mp (energy_for beat r mp) config) as [y|] eqn:Hy;
    [|apply Hacc].
  destruct (decide (parameter mp = k)) as [<-|Hne].
  - intros _. exact (applyMapping_numeric _ _ _ _ Hy).
  - rewrite lookup_insert_ne by exact Hne. apply Hacc.
Qed.

(** Mappings of other parameters leave a key alone. *)
Lemma fold_assign_other config beat r k l : forall acc,
  Forall (fun mp => parameter mp <> k) l ->
  fold_left (assign config beat r) l acc !! k = acc !! k.
Proof.
  induction l as [|mp l IH]; intros acc Hl; [reflexivity|].
  apply Forall_cons in Hl as [Hmp Hl]. cbn [fold_left].
  rewrite (IH _ Hl). unfold assign.
  destruct (_applyMapping mp (energy_for beat r mp) config); [|reflexivity].
  apply lookup_insert_ne, Hmp.
Qed.

Lemma fold_assign_last config beat r l1 mp l2 :
  Forall (fun later => parameter later <> parameter mp) l2 ->
  fold_left (assign config beat r) (l1 ++ mp :: l2) ∅ !! parameter mp
  = _applyMapping mp (energy_for beat r mp) config.
Proof.
  intros Hl2. rewrite fold_left_app. cbn [fold_left].
  rewrite (fold_assign_other _ _ _ _ _ _ Hl2). unfold assign at 1.
  destruct (_applyMapping mp (energy_for beat r mp) config) as [y|] eqn:Hy.
  - apply lookup_insert_eq.
  - destruct (fold_left (assign config beat r) l1 ∅ !! parameter mp)
      as [x|] eqn:Hx; [|reflexivity].
    destruct (fold_assign_numeric config beat r l1 ∅) with (k := parameter mp)
      (x := x) as [base Hbase]; [intros k z Hz; discriminate Hz|exact Hx|].
    destruct (applyMapping_defined mp (energy_for beat r mp) config base Hbase)
      as [z Hz].
    congruence.
Qed.




(** X8.  Mappings do not stack: each is applied to the field of the
    configuration, not to what an earlier mapping made of it, so in the
    reactive modes the mod of a parameter is what the last mapping of that
    parameter gives by itself, and there is none when the field is not a
    number. *)
Theorem last_mapping_of_a_parameter_wins
  (m : t) (config : SpiralConfigV2) (a : AudioState) (snapshot : list Z)
  (now : Z) (earlier later : list AudioMapping) (mapping : AudioMapping) :
  ctx m = true ->
  mode a = React \/ mode a = Both ->
  mappings a = earlier ++ mapping :: later ->
  Forall (fun other => parameter other <> parameter mapping) later ->
  let beat := fst (isBeat now (update snapshot (reactive m))) in
  let r := snd (isBeat now (update snapshot (reactive m))) in
  reactiveMods (fst (tick m config a snapshot now)) !! parameter mapping
  = _applyMapping mapping (energy_for beat r mapping) config.
Proof.
  intros Hctx Hmode Hmaps Hlater. cbn zeta. unfold tick.
  rewrite Hctx, Hmaps. cbn [negb].
  destruct (isBeat now (update snapshot (reactive m))) as [beat r].
  cbn [fst snd].
  destruct Hmode as [-> | ->]; cbn [fst reactiveMods];
    apply fold_assign_last, Hlater.
Qed.

Lemma last_mapping_of_a_parameter_wins_witness :
  let config : SpiralConfigV2 := {[ "stepLength" := VNumber 10 ]} in
  let first := mkMapping "m1" "beat" "stepLength" 1 Add None None in
  let second := mkMapping "m2" "bass" "stepLength" 0.5 Set_ (Some 1) (Some 8) in
  let m := mkManager true (connectFileBuffer ReactiveEngine.create) in
  reactiveMods
    (fst (tick m config (mkAudioState Both [first; second])
            (replicate 128 255%Z) 0)) !! "stepLength"
  = Some 8%float.
Proof.
  cbn zeta.
  rewrite (last_mapping_of_a_parameter_wins _ _ _ _ _
             [mkMapping "m1" "beat" "stepLength" 1 Add None None] []
             (mkMapping "m2" "bass" "stepLength" 0.5 Set_ (Some 1%float)
                        (Some 8%float)));
    [vm_compute; reflexivity|reflexivity|right; reflexivity|reflexivity
    |constructor].
Defined.

End AudioTickFacts.

(** ** Melody notes, the sparkle's note and the root *)

Module NoteFacts.

Import JS QOps SpiralMusicEngine MusicFacts.
Local Open Scope Z_scope.

(** What a candidate note is. *)
Lemma candidates_spec (root : Z) (scale : list Z) (n : Z) :
  n ∈ candidates_of root scale
  <-> exists oct interval,
        oct ∈ [-1; 0; 1; 2] /\ interval ∈ scale
        /\ n = root + oct * 12 + interval /\ 48 <= n <= 84.
Proof.
  unfold candidates_of. rewrite list_elem_of_bind. split.
  - intros (oct & Hn & Hoct).
    apply list_elem_of_filter in Hn as [Hrange Hn].
    apply list_elem_of_fmap in Hn as (interval & -> & Hi).
    exists oct, interval. repeat split; try assumption; apply Hrange.
  - intros (oct & interval & Hoct & Hi & -> & Hrange).
    exists oct. split; [|exact Hoct].
    apply list_elem_of_filter. split; [exact Hrange|].
    apply list_elem_of_fmap. exists interval. split; [reflexivity|exact Hi].
Qed.

Lemma pick_elem {A} (u : Q) (arr : list A) (x : A) :
  pick u arr = Some x -> x ∈ arr.
Proof.
  unfold pick. cbn zeta.
  destruct (floor_scaled u (length arr) <? 0); [discriminate|].
  apply list_elem_of_lookup_2.
Qed.

(** The pool the note is drawn from, and the note in it. *)
Lemma nextMelodyNote_pool (e : t) (u1 u2 : Q) (n : Z) :
  _nextMelodyNote e u1 u2 = Some n ->
  let candidates := candidates_of (rootMidi e) (currentScale e) in
  (candidates = [] /\ n = 60)
  \/ (n ∈ stepwise_of (lastMelodyMidi e) candidates)
  \/ (n ∈ leaps_of (lastMelodyMidi e) candidates)
  \/ (leaps_of (lastMelodyMidi e) candidates = [] /\ n ∈ candidates).
Proof.
  unfold _nextMelodyNote. cbn zeta.
  set (cands := candidates_of (rootMidi e) (currentScale e)).
  destruct (Nat.eqb_spec (length cands) 0) as [Hlen|_].
  - intros [= <-]. left. split; [apply nil_length_inv, Hlen|reflexivity].
  - destruct (Qltb u1 0.7 && (0 <? length (stepwise_of (lastMelodyMidi e) cands))%nat).
    + intros H. right. left. exact (pick_elem _ _ _ H).
    + destruct (leaps_of (lastMelodyMidi e) cands) as [|x l] eqn:Hl.
      * cbn [length Nat.ltb Nat.leb]. intros H. right. right. right.
        split; [reflexivity|exact (pick_elem _ _ _ H)].
      * cbn [length Nat.ltb Nat.leb]. intros H. right. right. left.
        exact (pick_elem _ _ _ H).
Qed.

Lemma stepwise_elem last cands n :
  n ∈ stepwise_of last cands -> n ∈ cands /\ n <> last.
Proof.
  unfold stepwise_of. intros H. apply list_elem_of_filter in H as [[_ Hne] Hin].
  split; assumption.
Qed.

Lemma leaps_elem last cands n :
  n ∈ leaps_of last cands -> n ∈ cands /\ n <> last.
Proof.
  unfold leaps_of. intros H. apply list_elem_of_filter in H as [[_ Hne] Hin].
  split; assumption.
Qed.

(** X9.  A melody note is always a MIDI note of 48..84: with a draw of
    [Math.random()] in [0, 1), [_nextMelodyNote] returns either a tone of
    the current scale in one of the octaves -1..2 around the root, within
    48..84, or, when no such tone exists, 60. *)
Theorem melody_note_in_range (e : t) (u1 u2 : Q) :
  (0 <= u2)%Q -> (u2 < 1)%Q ->
  exists n,
    _nextMelodyNote e u1 u2 = Some n
    /\ 48 <= n <= 84
    /\ ((candidates_of (rootMidi e) (currentScale e) = [] /\ n = 60)
        \/ exists oct interval,
             -1 <= oct <= 2 /\ interval ∈ currentScale e
             /\ n = rootMidi e + oct * 12 + interval).
Proof.
  intros Hu0 Hu1.
  destruct (nextMelodyNote_defined e u1 u2 Hu0 Hu1) as [n Hn].
  exists n. split; [exact Hn|].
  assert (Hcand : n ∈ candidates_of (rootMidi e) (currentScale e) ->
            48 <= n <= 84
            /\ exists oct interval,
                 -1 <= oct <= 2 /\ interval ∈ currentScale e
                 /\ n = rootMidi e + oct * 12 + interval).
  { intros Hin. apply candidates_spec in Hin
      as (oct & interval & Hoct & Hi & Heq & Hrange).
    split; [exact Hrange|]. exists oct, interval.
    split; [|split; assumption].
    apply list_elem_of_In in Hoct. cbn in Hoct. lia. }
  destruct (nextMelodyNote_pool e u1 u2 n Hn) as [[Hnil ->]|[H|[H|[_ H]]]].
  - split; [lia|]. left. split; [exact Hnil|reflexivity].
  - apply stepwise_elem in H as [H _]. destruct (Hcand H) as [Hr Ht].
    split; [exact Hr|right; exact Ht].
  - apply leaps_elem in H as [H _]. destruct (Hcand H) as [Hr Ht].
    split; [exact Hr|right; exact Ht].
  - destruct (Hcand H) as [Hr Ht]. split; [exact Hr|right; exact Ht].
Qed.

Lemma melody_note_in_range_witness :
  exists n, _nextMelodyNote sample_engine (1 # 2) (1 # 2) = Some n
            /\ 48 <= n <= 84.
Proof.
  destruct (melody_note_in_range sample_engine (1 # 2) (1 # 2))
    as (n & Hn & Hrange & _); [discriminate|reflexivity|].
  exists n. split; assumption.
Defined.

(** With the root in 48..72 and a scale that has the degree 0, the root
    and the root an octave up are candidates. *)
Lemma root_candidates (root : Z) (scale : list Z) :
  48 <= root <= 72 -> 0 ∈ scale ->
  root ∈ candidates_of root scale /\ root + 12 ∈ candidates_of root scale.
Proof.
  intros Hroot H0. split; apply candidates_spec.
  - exists 0, 0. split; [apply list_elem_of_In; cbn; tauto|].
    split; [exact H0|]. lia.
  - exists 1, 0. split; [apply list_elem_of_In; cbn; tauto|].
    split; [exact H0|]. lia.
Qed.

(** X10.  The melody never repeats a note: with the root in 48..72 (where
    the drift keeps it) and a scale that has the degree 0 (every scale of
    the table has), the note [_nextMelodyNote] returns is a candidate that
    differs from the last melody note, whatever the two draws. *)
Theorem melody_never_repeats (e : t) (u1 u2 : Q) :
  48 <= rootMidi e <= 72 -> 0 ∈ currentScale e ->
  (0 <= u2)%Q -> (u2 < 1)%Q ->
  exists n,
    _nextMelodyNote e u1 u2 = Some n
    /\ n <> lastMelodyMidi e
    /\ n ∈ candidates_of (rootMidi e) (currentScale e).
Proof.
  intros Hroot H0 Hu0 Hu1.
  destruct (nextMelodyNote_defined e u1 u2 Hu0 Hu1) as [n Hn].
  exists n. split; [exact Hn|].
  destruct (root_candidates _ _ Hroot H0) as [Hc0 Hc1].
  assert (Hleaps : leaps_of (lastMelodyMidi e)
                     (candidates_of (rootMidi e) (currentScale e)) <> []).
  { unfold leaps_of. intros Hnil.
    destruct (Z_le_gt_dec (Z.abs (rootMidi e - lastMelodyMidi e)) 5) as [Hnear|Hfar].
    - assert (Hin : rootMidi e + 12
                    ∈ filter (fun n => Z.abs (n - lastMelodyMidi e) > 5
                                       /\ n <> lastMelodyMidi e)
                             (candidates_of (rootMidi e) (currentScale e))).
      { apply list_elem_of_filter. split; [lia|exact Hc1]. }
      rewrite Hnil in Hin. inversion Hin.
    - assert (Hin : rootMidi e
                    ∈ filter (fun n => Z.abs (n - lastMelodyMidi e) > 5
                                       /\ n <> lastMelodyMidi e)
                             (candidates_of (rootMidi e) (currentScale e))).
      { apply list_elem_of_filter. split; [lia|exact Hc0]. }
      rewrite Hnil in Hin. inversion Hin. }
  destruct (nextMelodyNote_pool e u1 u2 n Hn) as [[Hnil _]|[H|[H|[Hl _]]]].
  - rewrite Hnil in Hc0. inversion Hc0.
  - apply stepwise_elem in H as [Hin Hne]. split; assumption.
  - apply leaps_elem in H as [Hin Hne]. split; assumption.
  - contradiction.
Qed.

Lemma melody_never_repeats_witness :
  exists n, _nextMelodyNote sample_engine (9 # 10) (1 # 2) = Some n /\ n <> 60.
Proof.
  destruct (melody_never_repeats sample_engine (9 # 10) (1 # 2))
    as (n & Hn & Hne & _).
  - cbn. lia.
  - apply list_elem_of_In. cbn. tauto.
  - discriminate.
  - reflexivity.
  - exists n. split; assumption.
Defined.

End NoteFacts.

(** ** The root drift and the sparkle's note *)

Module MusicMathFacts.

Import JS QOps SpiralMusicMath MusicFacts.
Local Open Scope Z_scope.

Lemma updateRoot_range config u s :
  48 <= rootMidi s <= 72 ->
  48 <= rootMidi (_updateRoot config u s) <= 72
  /\ Z.abs (rootMidi (_updateRoot config u s) - rootMidi s) <= 1.
Proof.
  intros Hs. unfold _updateRoot. cbn zeta.
  match goal with |- context [if (1 <=? ?a)%float then _ else _] =>
    destruct (1 <=? a)%float end; cbn [rootMidi]; [|lia].
  destruct (Qltb u 0.5); lia.
Qed.

Lemma drift_snoc frames f :
  drift (frames ++ [f]) = _updateRoot (fst f) (snd f) (drift frames).
Proof. unfold drift. rewrite fold_left_app. reflexivity. Qed.

Lemma drift_range frames : 48 <= rootMidi (drift frames) <= 72.
Proof.
  induction frames as [|f frames IH] using rev_ind; [cbn; lia|].
  rewrite drift_snoc. apply updateRoot_range, IH.
Qed.

(** X11.  The root stays a MIDI note of 48..72: after any number of frame
    ticks, whatever the configurations and the draws, the root that
    [_updateRoot] keeps is within 48..72, and one more call moves it by at
    most one semitone. *)
Theorem root_drift_stays_in_range
  (frames : list (DriftConfig * Q)) (config : DriftConfig) (u : Q) :
  48 <= rootMidi (drift frames) <= 72
  /\ 48 <= rootMidi (_updateRoot config u (drift frames)) <= 72
  /\ Z.abs (rootMidi (_updateRoot config u (drift frames))
            - rootMidi (drift frames)) <= 1.
Proof.
  pose proof (drift_range frames) as H.
  split; [exact H|]. apply updateRoot_range, H.
Qed.

(** X12.  The note of a sparkle is a tone of the scale in one of the
    octaves asked for: with draws in [0, 1), octaves [minOct <= maxOct] and
    a scale that is not empty, [_randomScaleNote] returns
    [root + (oct - 4) * 12 + step] for an octave [oct] of
    [minOct..maxOct] and a [step] of the scale. *)
Theorem randomScaleNote_in_octaves
  (root : Z) (scale : list Z) (minOct maxOct : Z) (u1 u2 : Q) :
  (0 <= u1)%Q -> (u1 < 1)%Q -> (0 <= u2)%Q -> (u2 < 1)%Q ->
  minOct <= maxOct -> scale <> [] ->
  exists oct step,
    _randomScaleNote root scale minOct maxOct u1 u2
    = Some (root + (oct - 4) * 12 + step)
    /\ minOct <= oct <= maxOct /\ step ∈ scale.
Proof.
  intros Hu0 Hu1 Hv0 Hv1 Hoct Hscale. unfold _randomScaleNote. cbn zeta.
  destruct (pick_Some u2 scale Hv0 Hv1 Hscale) as (step & -> & Hlook).
  eexists. exists step. split; [reflexivity|].
  split; [|exact (list_elem_of_lookup_2 _ _ _ Hlook)].
  pose proof (floor_scaled_range u1 (Z.to_nat (maxOct - minOct + 1)) Hu0 Hu1)
    as Hfloor.
  unfold floor_scaled in Hfloor.
  rewrite Z2Nat.id in Hfloor by lia.
  specialize (Hfloor ltac:(lia)). lia.
Qed.

Lemma randomScaleNote_in_octaves_witness :
  exists oct step,
    _randomScaleNote 60 SpiralMusicEngine.pentatonic_minor 4 6 (1 # 2) (1 # 2)
    = Some (60 + (oct - 4) * 12 + step)
    /\ 4 <= oct <= 6.
Proof.
  destruct (randomScaleNote_in_octaves 60 SpiralMusicEngine.pentatonic_minor
              4 6 (1 # 2) (1 # 2))
    as (oct & step & Hn & Hoct & _);
    [discriminate|reflexivity|discriminate|reflexivity|lia|discriminate|].
  exists oct, step. split; assumption.
Defined.

End MusicMathFacts.

(** ** Busy voices and the timers that free them *)

Module TimerFacts.

Import JS QOps WebAudio SpiralMusicEngine SpiralMusicTimers MusicFacts.
Local Open Scope Q_scope.

Lemma elem_of_insert_inv {A} (l : list A) (i : nat) (x y : A) :
  y ∈ <[i := x]> l -> y = x \/ y ∈ l.
Proof.
  intros Hy. apply list_elem_of_lookup in Hy as [j Hj].
  destruct (decide (i = j)) as [<-|Hne].
  - destruct (decide (i < length l)%nat) as [Hlt|Hge].
    + rewrite list_lookup_insert_eq in Hj by exact Hlt. left. congruence.
    + rewrite list_insert_ge in Hj by lia. right.
      exact (list_elem_of_lookup_2 _ _ _ Hj).
  - rewrite list_lookup_insert_ne in Hj by exact Hne. right.
    exact (list_elem_of_lookup_2 _ _ _ Hj).
Qed.

(** Replacing a voice of the pool by one that is accounted for. *)
Lemma covered_insert owed owed' e e' i x :
  covered owed e ->
  voicePool e' = <[i := x]> (voicePool e) ->
  timers e' = timers e ->
  (busy x = true -> vid x ∈ owed' \/ exists d, (d, vid x) ∈ timers e) ->
  (forall n, n ∈ owed -> n ∈ owed') ->
  covered owed' e'.
Proof.
  intros Hcov Hpool Htimers Hx Hsub v Hv Hbusy.
  rewrite Htimers. rewrite Hpool in Hv.
  apply elem_of_insert_inv in Hv as [->|Hv]; [exact (Hx Hbusy)|].
  destruct (Hcov v Hv Hbusy) as [Hin|Ht]; [left; exact (Hsub _ Hin)|right; exact Ht].
Qed.

Lemma covered_same owed e e' :
  voicePool e' = voicePool e -> timers e' = timers e ->
  covered owed e -> covered owed e'.
Proof.
  intros Hp Ht Hcov v Hv Hbusy. rewrite Hp in Hv. rewrite Ht.
  exact (Hcov v Hv Hbusy).
Qed.

(** What a claim does to the pool. *)
Lemma claim_pool now u e i e' :
  _claimVoice now u e = Some (i, e') ->
  exists old x,
    voicePool e !! i = Some old /\ vid x = vid old
    /\ voicePool e' = <[i := x]> (voicePool e)
    /\ timers e' = timers e.
Proof.
  unfold _claimVoice.
  destruct (list_find _ (voicePool e)) as [[k free]|] eqn:Hfind.
  - apply list_find_Some in Hfind as (Hk & _ & _).
    intros [= <- <-]. exists free. eexists.
    split; [exact Hk|]. split; [|split; reflexivity]. reflexivity.
  - unfold pick. cbn zeta.
    destruct (floor_scaled u (length (voicePool e)) <? 0)%Z; [discriminate|].
    destruct (voicePool e !! Z.to_nat (floor_scaled u (length (voicePool e))))
      as [stolen|] eqn:Hlook; [|discriminate].
    intros [= <- <-]. exists stolen. eexists.
    split; [exact Hlook|]. split; [|split; reflexivity]. reflexivity.
Qed.

Lemma vid_at_insert i x e e' old :
  voicePool e !! i = Some old ->
  voicePool e' = <[i := x]> (voicePool e) ->
  vid_at i e' = vid x.
Proof.
  intros Hold Hpool. unfold vid_at. rewrite Hpool.
  rewrite list_lookup_insert_eq by exact (lookup_lt_Some _ _ _ Hold).
  reflexivity.
Qed.

Lemma covered_claim owed now u e i e' :
  covered owed e -> _claimVoice now u e = Some (i, e') ->
  covered (vid_at i e' :: owed) e'
  /\ exists v, voicePool e' !! i = Some v.
Proof.
  intros Hcov Hclaim.
  destruct (claim_pool now u e i e' Hclaim) as (old & x & Hold & Hvid & Hpool & Ht).
  rewrite (vid_at_insert i x e e' old Hold Hpool). split.
  - apply (covered_insert owed _ e e' i x Hcov Hpool Ht).
    + intros _. left. left.
    + intros n Hn. right. exact Hn.
  - exists x. rewrite Hpool.
    apply list_lookup_insert_eq, (lookup_lt_Some _ _ _ Hold).
Qed.

Lemma covered_shape owed i f e :
  covered owed e ->
  covered owed (shape_voice i f e) /\ vid_at i (shape_voice i f e) = vid_at i e.
Proof.
  intros Hcov. unfold shape_voice.
  destruct (voicePool e !! i) as [v|] eqn:Hv; [|split; [exact Hcov|reflexivity]].
  split.
  - eapply covered_insert;
      [exact Hcov|reflexivity|reflexivity| |intros n Hn; exact Hn].
    cbn [busy vid]. intros Hbusy.
    exact (Hcov v (list_elem_of_lookup_2 _ _ _ Hv) Hbusy).
  - unfold vid_at. cbn [set_pool voicePool].
    rewrite list_lookup_insert_eq by exact (lookup_lt_Some _ _ _ Hv).
    rewrite Hv. reflexivity.
Qed.

Lemma covered_add_timer owed owed' d n e :
  covered owed e ->
  (forall m, m ∈ owed -> m = n \/ m ∈ owed') ->
  covered owed' (add_timer d n e).
Proof.
  intros Hcov Hsub v Hv Hbusy. cbn [add_timer voicePool timers] in *.
  destruct (Hcov v Hv Hbusy) as [Hin|[d' Hd']].
  - destruct (Hsub _ Hin) as [->|Hin']; [|left; exact Hin'].
    right. exists d. apply elem_of_app. right. left.
  - right. exists d'. apply elem_of_app. left. exact Hd'.
Qed.

Section Ticks.

Variable rnd : nat -> Q.
Variable ln : Q -> Q.

Lemma covered_partial owed now attack sustain release peak p e k e' k' :
  covered owed e ->
  partial rnd now attack sustain release peak p (e, k) = Some (e', k') ->
  covered owed e'.
Proof.
  intros Hcov. unfold partial.
  destruct (_claimVoice now (rnd k) e) as [[j e1]|] eqn:Hclaim; [|discriminate].
  intros [= <- _].
  destruct (covered_claim owed now (rnd k) e j e1 Hcov Hclaim) as [Hc1 _].
  match goal with |- context [shape_voice j ?f e1] =>
    destruct (covered_shape _ j f e1 Hc1) as [Hc2 Hvid] end.
  rewrite Hvid. eapply covered_add_timer; [exact Hc2|].
  intros m Hm. apply elem_of_cons in Hm as [->|Hm]; [left; reflexivity|].
  right. exact Hm.
Qed.

Lemma covered_scheduleMelody c e k e' k' :
  covered [] e ->
  _scheduleMelody rnd c (e, k) = Some (e', k') ->
  covered [] e'.
Proof.
  intros Hcov. unfold _scheduleMelody.
  destruct (ctx e); [|intros [= <- _]; exact Hcov].
  destruct (config e); [|intros [= <- _]; exact Hcov].
  destruct (audioState e) as [a|]; [|intros [= <- _]; exact Hcov].
  destruct (_nextMelodyNote e (rnd k) (rnd (k + 1))) as [n|]; [|discriminate].
  set (now := Qmax2 (laterTime c Melody) (melody (nextTime e))).
  set (e0 := set_lastMelodyMidi n e).
  assert (Hc0 : covered [] e0) by (apply (covered_same [] e); [reflexivity..|exact Hcov]).
  destruct (_claimVoice now (rnd (k + 2)) e0) as [[i e1]|] eqn:Hclaim;
    [|discriminate].
  destruct (covered_claim [] now _ e0 i e1 Hc0 Hclaim) as [Hc1 _].
  cbn zeta.
  match goal with |- context [partial _ _ _ _ _ _ 1 (shape_voice i ?f e1, _)] =>
    destruct (covered_shape _ i f e1 Hc1) as [Hc2 Hvid];
    set (e2 := shape_voice i f e1) in * end.
  match goal with |- context [partial rnd now ?a ?s ?r ?p 1 (e2, ?k2)] =>
    destruct (partial rnd now a s r p 1 (e2, k2)) as [[e3 k3]|] eqn:Hp1;
    [|discriminate];
    pose proof (covered_partial _ _ _ _ _ _ _ _ _ _ _ Hc2 Hp1) as Hc3;
    destruct (partial rnd now a s r p 2 (e3, k3)) as [[e4 k4]|] eqn:Hp2;
    [|discriminate];
    pose proof (covered_partial _ _ _ _ _ _ _ _ _ _ _ Hc3 Hp2) as Hc4
  end.
  intros [= <- _].
  apply (covered_same [] (add_timer ((0.08 + ((1.5 + (1 - musicDensity a) * 4.5) * 0.5 + 0.3) + 0.45) * 1000 + 50) (vid_at i e2) e4));
    [reflexivity..|].
  eapply covered_add_timer; [exact Hc4|].
  rewrite Hvid. intros m Hm.
  apply elem_of_cons in Hm as [->|Hm]; [left; reflexivity|right; exact Hm].
Qed.

Lemma covered_tick c e e' log :
  covered [] e -> scheduler_tick rnd ln c e = Some (e', log) -> covered [] e'.
Proof.
  intros Hcov. unfold scheduler_tick.
  destruct (ctx e) eqn:Hctx; [|intros [= <- _]; exact Hcov].
  destruct (config e); [|intros [= <- _]; exact Hcov].
  destruct (audioState e) as [a|] eqn:Has; [|intros [= <- _]; exact Hcov].
  destruct (suspended c); [intros [= <- _]; exact Hcov|].
  cbn zeta.
  set (r1 := if droneEnabled a && Qltb (drone (nextTime e)) (currentTime c + LOOKAHEAD)
             then (_scheduleDrone c e, [Drone]) else (e, [])).
  assert (H1 : covered [] (fst r1)).
  { unfold r1.
    destruct (droneEnabled a && Qltb (drone (nextTime e)) (currentTime c + LOOKAHEAD));
      cbn [fst]; [|exact Hcov].
    apply (covered_same [] e); [| |exact Hcov];
      unfold _scheduleDrone; rewrite Hctx, Has; reflexivity. }
  destruct r1 as [e1 log1]. cbn [fst] in H1.
  set (r2 := if melodyEnabled a && Qltb (melody (nextTime e1)) (currentTime c + LOOKAHEAD)
             then option_map (fun r => (r, [Melody])) (_scheduleMelody rnd c (e1, 0%nat))
             else Some ((e1, 0%nat), [])).
  assert (H2 : forall e2 k log2, r2 = Some ((e2, k), log2) -> covered [] e2).
  { unfold r2. intros e2 k log2.
    destruct (melodyEnabled a && Qltb (melody (nextTime e1)) (currentTime c + LOOKAHEAD)).
    - destruct (_scheduleMelody rnd c (e1, 0%nat)) as [[e2' k']|] eqn:Hm;
        [|discriminate].
      cbn [option_map]. intros [= <- _ _].
      exact (covered_scheduleMelody c e1 0%nat e2' k' H1 Hm).
    - intros [= <- _ _]. exact H1. }
  destruct r2 as [[[e2 k] log2]|]; [|discriminate].
  specialize (H2 e2 k log2 eq_refl).
  destruct (sparkleEnabled a && Qltb (sparkle (nextTime e2)) (currentTime c + LOOKAHEAD));
    intros [= <- _]; [|exact H2].
  apply (covered_same [] e2); [| |exact H2];
    unfold _scheduleSparkle;
    destruct (ctx e2), (audioState e2), (noise e2); reflexivity.
Qed.

End Ticks.

Lemma delete_keeps {A} (l : list A) (k j : nat) (x : A) :
  l !! j = Some x -> j <> k -> x ∈ delete k l.
Proof.
  intros Hj Hne. destruct (decide (j < k)%nat) as [Hlt|Hge].
  - apply (list_elem_of_lookup_2 _ j). rewrite list_lookup_delete_lt by exact Hlt.
    exact Hj.
  - apply (list_elem_of_lookup_2 _ (j - 1)).
    rewrite list_lookup_delete_ge by lia.
    replace (S (j - 1)) with j by lia. exact Hj.
Qed.

Lemma covered_step e e' : covered [] e -> step e e' -> covered [] e'.
Proof.
  intros Hcov Hstep.
  destruct Hstep as [e|e|e a root scale|e k|e c rnd ln e' log Hs Hr Ht].
  - unfold init. destruct (masterGain e); [exact Hcov|].
    intros v Hv Hbusy. cbn [voicePool timers] in *.
    apply elem_of_app in Hv as [Hv|Hv]; [exact (Hcov v Hv Hbusy)|].
    unfold fresh_voices in Hv. apply list_elem_of_fmap in Hv as (n & -> & _).
    discriminate Hbusy.
  - intros v Hv. cbn [dispose voicePool] in Hv. inversion Hv.
  - unfold frame_tick. destruct (masterGain e); [|exact Hcov].
    apply (covered_same [] e); [reflexivity..|exact Hcov].
  - unfold fire_timer. destruct (timers e !! k) as [[d0 v0]|] eqn:Hk; [|exact Hcov].
    intros v Hv Hbusy. cbn [voicePool timers] in *.
    unfold free_voice in Hv. apply list_elem_of_fmap in Hv as (x & -> & Hx).
    destruct (Nat.eqb_spec (vid x) v0) as [Heq|Hne]; [discriminate Hbusy|].
    destruct (Hcov x Hx Hbusy) as [Hin|[d Hd]]; [inversion Hin|].
    right. exists d. apply list_elem_of_lookup in Hd as [j Hj].
    apply (delete_keeps _ k j _ Hj). intros ->. rewrite Hk in Hj.
    injection Hj as _ Hv0. apply Hne. symmetry. exact Hv0.
  - exact (covered_tick rnd ln c e e' log Hcov Ht).
Qed.

Lemma covered_reachable e : reachable e -> covered [] e.
Proof.
  induction 1 as [|e e' _ IH Hstep].
  - intros v Hv. inversion Hv.
  - exact (covered_step e e' IH Hstep).
Qed.

(** X13.  No voice is left busy for good: in every state an engine can
    reach, each busy voice of the pool has a pending timer that will mark
    it free.  (The timers are those [_scheduleMelody] sets for the voices
    it claims; [init] adds free voices and [dispose] empties the pool.) *)
Theorem busy_voice_has_pending_timer (e : t) (v : Voice) :
  reachable e -> v ∈ voicePool e -> busy v = true ->
  exists delay, (delay, vid v) ∈ timers e.
Proof.
  intros Hreach Hv Hbusy.
  destruct (covered_reachable e Hreach v Hv Hbusy) as [Hin|Ht];
    [inversion Hin|exact Ht].
Qed.

Lemma ticked_engine_reachable : reachable ticked_engine.
Proof.
  eapply reach_step; [exact MusicExamples.sample_engine_reachable|].
  eapply (step_scheduler sample_engine (steady 1) (fun _ => 1 # 2)
            (fun _ => - (1)) ticked_engine).
  - reflexivity.
  - exact MusicExamples.half_in_range.
  - vm_compute. reflexivity.
Qed.

Lemma busy_voice_has_pending_timer_witness :
  busyVoices ticked_engine = 3%nat
  /\ exists v delay,
       voicePool ticked_engine !! 0%nat = Some v /\ busy v = true
       /\ (delay, vid v) ∈ timers ticked_engine.
Proof.
  split; [vm_compute; reflexivity|].
  assert (H : exists v, voicePool ticked_engine !! 0%nat = Some v
                        /\ busy v = true)
    by (eexists; split; vm_compute; reflexivity).
  destruct H as (v & Hv & Hbusy).
  destruct (busy_voice_has_pending_timer ticked_engine v
              ticked_engine_reachable (list_elem_of_lookup_2 _ _ _ Hv) Hbusy)
    as [delay Hd].
  exists v, delay. repeat split; assumption.
Defined.

End TimerFacts.

(** ** How soon a layer can be scheduled again *)

Module RateFacts.

Import JS QOps WebAudio SpiralMusicEngine SpiralMusicTimers MusicFacts.
Local Open Scope Q_scope.


Section Advance.

Variable rnd : nat -> Q.
Variable ln : Q -> Q.
Hypothesis rnd_range : forall n, 0 <= rnd n /\ rnd n < 1.


End Advance.





End RateFacts.

(** ** The envelope of a melody voice *)

Module EnvelopeFacts.

Import JS QOps WebAudio SpiralMusicEngine MusicFacts.
Local Open Scope Q_scope.

Lemma insert_event_last (e : ParamEvent) (evs : list ParamEvent) :
  Forall (fun x => ev_time x <= ev_time e) evs -> insert_event e evs = evs ++ [e].
Proof.
  induction 1 as [|x evs Hx _ IH]; [reflexivity|].
  cbn [insert_event]. apply Qltb_ge in Hx. rewrite Hx, IH. reflexivity.
Qed.

(** The timeline an envelope leaves. *)
Lemma envelope_events now attack hold release peak plateau p :
  0 <= attack -> 0 <= hold -> 0 <= release ->
  events (envelope now attack hold release peak plateau p)
  = filter (fun x => Qltb (ev_time x) now = true) (events p)
    ++ [SetValue 0 now; LinearRamp peak (now + attack);
        SetValue plateau (now + attack + hold);
        LinearRamp 0 (now + attack + hold + release)].
Proof.
  intros Ha Hh Hr. unfold envelope.
  cbn [linearRampToValueAtTime setValueAtTime events].
  pose proof (cancelled_events now p) as Hold.
  cbn [cancelScheduledValues events] in *.
  set (old := filter (fun x => Qltb (ev_time x) now = true) (events p)) in *.
  assert (Hold' : forall t, now <= t -> Forall (fun x => ev_time x <= t) old).
  { intros t Ht. eapply Forall_impl; [exact Hold|]. intros x Hx. cbn beta in *. lra. }
  rewrite (insert_event_last (SetValue 0 now) old)
    by (apply Hold'; cbn; lra).
  rewrite (insert_event_last (LinearRamp peak (now + attack)))
    by (apply Forall_app; split;
        [apply Hold'; cbn; lra|repeat constructor; cbn; lra]).
  rewrite (insert_event_last (SetValue plateau (now + attack + hold)))
    by (apply Forall_app; split;
        [apply Forall_app; split;
         [apply Hold'; cbn; lra|repeat constructor; cbn; lra]
        |repeat constructor; cbn; lra]).
  rewrite (insert_event_last (LinearRamp 0 (now + attack + hold + release)))
    by (apply Forall_app; split;
        [apply Forall_app; split;
         [apply Forall_app; split;
          [apply Hold'; cbn; lra|repeat constructor; cbn; lra]
         |repeat constructor; cbn; lra]
        |repeat constructor; cbn; lra]).
  rewrite <- !app_assoc. reflexivity.
Qed.

Lemma value_from_skip (old rest : list ParamEvent) (v now t : Q) :
  Forall (fun x => ev_time x < now) old -> now <= t ->
  forall v0 t0,
    value_from v0 t0 (old ++ SetValue v now :: rest) t = value_from v now rest t.
Proof.
  intros Hold Ht. induction Hold as [|x old Hx _ IH]; intros v0 t0;
    cbn [app value_from ev_time ev_value].
  - apply Qltb_ge in Ht. rewrite Ht. reflexivity.
  - assert (Hxt : Qltb t (ev_time x) = false) by (apply Qltb_ge; lra).
    rewrite Hxt. apply IH.
Qed.

Lemma fraction_range (a b c : Q) :
  a <= b -> b <= c -> a < c -> 0 <= (b - a) / (c - a) /\ (b - a) / (c - a) <= 1.
Proof.
  intros Hab Hbc Hac. split.
  - apply Qle_shift_div_l; lra.
  - apply Qle_shift_div_r; lra.
Qed.

(** X15.  The envelope of a melody voice: whatever the gain's timeline held
    before, after [_scheduleMelody] has shaped it at time [now] (attack and
    release positive, the plateau's end value between 0 and the peak), the
    gain is 0 at [now], stays within 0..peak from [now] on, and is 0 from
    the end of the release on. *)
Theorem envelope_bounded_and_ends_silent
  (now attack hold release peak plateau : Q) (p : AudioParam) (t : Q) :
  0 < attack -> 0 <= hold -> 0 < release ->
  0 <= plateau -> plateau <= peak -> now <= t ->
  let q := envelope now attack hold release peak plateau p in
  0 <= valueAt q t /\ valueAt q t <= peak
  /\ valueAt q now == 0
  /\ (now + attack + hold + release <= t -> valueAt q t == 0).
Proof.
  intros Ha Hh Hr Hp0 Hp1 Ht. cbn zeta. unfold valueAt.
  rewrite envelope_events by lra.
  pose proof (cancelled_events now p) as Hold.
  cbn [cancelScheduledValues events] in Hold.
  rewrite !(value_from_skip _ _ 0 now _ Hold) by lra.
  cbn [value_from ev_time ev_value].
  assert (Hnow : Qltb now (now + attack) = true) by (apply Qltb_lt; lra).
  rewrite Hnow.
  assert (Hstart : 0 + (peak - 0) * ((now - now) / (now + attack - now)) == 0).
  { field. lra. }
  destruct (Qltb t (now + attack)) eqn:H1.
  { apply Qltb_lt in H1.
    destruct (fraction_range now t (now + attack)) as [Hf0 Hf1]; try lra.
    set (f := (t - now) / (now + attack - now)) in *.
    repeat split; first [exact Hstart|nra|intros; nra]. }
  apply Qltb_ge in H1.
  destruct (Qltb t (now + attack + hold)) eqn:H2.
  { apply Qltb_lt in H2. repeat split; first [exact Hstart|lra|intros; lra]. }
  apply Qltb_ge in H2.
  destruct (Qltb t (now + attack + hold + release)) eqn:H3.
  { apply Qltb_lt in H3.
    destruct (fraction_range (now + attack + hold) t
                (now + attack + hold + release)) as [Hf0 Hf1]; try lra.
    set (f := (t - (now + attack + hold))
              / (now + attack + hold + release - (now + attack + hold))) in *.
    repeat split; first [exact Hstart|nra|intros; nra]. }
  apply Qltb_ge in H3. repeat split; first [exact Hstart|lra|intros; lra].
Qed.
Lemma envelope_bounded_and_ends_silent_witness :
  let q := envelope 1 0.08 2.175 0.45 0.12 0.12
             (mkParam 0 [SetValue 0.1 0.5; LinearRamp 0.3 4]) in
  0 <= valueAt q 2 /\ valueAt q 2 <= 0.12 /\ valueAt q 1 == 0.
Proof.
  destruct (envelope_bounded_and_ends_silent 1 0.08 2.175 0.45 0.12 0.12
              (mkParam 0 [SetValue 0.1 0.5; LinearRamp 0.3 4]) 2)
    as (H0 & H1 & H2 & _); try lra.
  cbn zeta. repeat split; assumption.
Defined.

End EnvelopeFacts.

(** ** The renderer and its post-processor over their life *)

Module RendererCallsFacts.

Import Three SpiralRenderer SpiralRendererCalls.

(** The post-processor draws on its own targets and on the canvas only. *)
Lemma post_render_keeps w p settings :
  layout (fst (PostProcessor.render w p settings))
         (snd (PostProcessor.render w p settings)) = layout w p
  /\ PostProcessor.accumTarget (fst (PostProcessor.render w p settings))
     = PostProcessor.accumTarget w
  /\ (PostProcessor.trailWriteIdx (snd (PostProcessor.render w p settings))
      = PostProcessor.trailWriteIdx p
      \/ PostProcessor.trailWriteIdx (snd (PostProcessor.render w p settings))
         = (1 - PostProcessor.trailWriteIdx p)%Z).
Proof.
  unfold PostProcessor.render, PostProcessor.trail_blend,
    PostProcessor.update_passes, layout.
  destruct (PostProcessor.ready p) eqn:Hready; cbn [negb];
    [|cbn [fst snd]; rewrite ?Hready; repeat split; auto].
  destruct (0 <? PostProcessor.motionTrail settings)%float;
    destruct (PostProcessor.trailWriteIdx p =? 0)%Z;
    destruct (PostProcessor.bloomEnabled settings),
      (PostProcessor.chromaticAberrationEnabled settings),
      (PostProcessor.vignetteEnabled settings),
      (PostProcessor.filmGrainEnabled settings);
    cbn; rewrite ?Hready; repeat split; auto.
Qed.

Lemma clearTrail_keeps w p :
  layout (fst (PostProcessor.clearTrail w p)) (snd (PostProcessor.clearTrail w p))
  = layout w p
  /\ PostProcessor.accumTarget (fst (PostProcessor.clearTrail w p))
     = PostProcessor.accumTarget w
  /\ PostProcessor.canvas (fst (PostProcessor.clearTrail w p))
     = PostProcessor.canvas w
  /\ renderTarget (PostProcessor.gl (fst (PostProcessor.clearTrail w p)))
     = renderTarget (PostProcessor.gl w)
  /\ (PostProcessor.trailWriteIdx (snd (PostProcessor.clearTrail w p))
      = PostProcessor.trailWriteIdx p
      \/ PostProcessor.trailWriteIdx (snd (PostProcessor.clearTrail w p)) = 0%Z).
Proof.
  unfold PostProcessor.clearTrail, layout.
  destruct (PostProcessor.ready p) eqn:Hready; cbn [negb];
    [|cbn [fst snd]; rewrite ?Hready; repeat split; auto].
  cbn. rewrite ?Hready. repeat split; auto.
Qed.




(** X17.  The post-processor never draws on the accumulation target:
    [render], with any settings, and [clearTrail] leave the accumulation
    target, with its texture, as it was, and keep every size; [clearTrail]
    also leaves the canvas alone and restores the render target that was
    current. *)
Theorem post_processing_spares_accumulation
  (w : PostProcessor.World) (p : PostProcessor.t)
  (settings : PostProcessor.RenderSettings) :
  PostProcessor.accumTarget (fst (PostProcessor.render w p settings))
  = PostProcessor.accumTarget w
  /\ layout (fst (PostProcessor.render w p settings))
            (snd (PostProcessor.render w p settings)) = layout w p
  /\ PostProcessor.accumTarget (fst (PostProcessor.clearTrail w p))
     = PostProcessor.accumTarget w
  /\ layout (fst (PostProcessor.clearTrail w p))
            (snd (PostProcessor.clearTrail w p)) = layout w p
  /\ PostProcessor.canvas (fst (PostProcessor.clearTrail w p))
     = PostProcessor.canvas w
  /\ renderTarget (PostProcessor.gl (fst (PostProcessor.clearTrail w p)))
     = renderTarget (PostProcessor.gl w).
Proof.
  destruct (post_render_keeps w p settings) as (Hl & Ha & _).
  destruct (clearTrail_keeps w p) as (Hl' & Ha' & Hc & Ht & _).
  repeat split; assumption.
Qed.


Lemma render_cases s :
  (exists p settings,
     postProcessor s = Some p /\ renderSettings s = Some settings
     /\ _allEffectsOff settings = false
     /\ world (render s) = fst (PostProcessor.render (drawn s) p settings)
     /\ postProcessor (render s)
        = Some (snd (PostProcessor.render (drawn s) p settings)))
  \/ ((postProcessor s = None \/ renderSettings s = None
       \/ exists settings, renderSettings s = Some settings
                           /\ _allEffectsOff settings = true)
      /\ world (render s)
         = blit_screen
             (PostProcessor.with_gl (set_autoClear true)
                (PostProcessor.with_gl (setRenderTarget ToScreen) (drawn s)))
      /\ postProcessor (render s) = postProcessor s).
Proof.
  unfold render. fold (drawn s).
  destruct (postProcessor s) as [p|] eqn:Hp;
    [|right; split; [left; reflexivity|split; reflexivity]].
  destruct (renderSettings s) as [settings|] eqn:Hs;
    [|right; split; [right; left; reflexivity|split; reflexivity]].
  destruct (_allEffectsOff settings) eqn:Hoff; cbn [negb].
  - right. split; [|split; reflexivity].
    right. right. exists settings. split; [reflexivity|exact Hoff].
  - left. exists p, settings.
    destruct (PostProcessor.render (drawn s) p settings) as [w' p'].
    repeat split. exact Hoff.
Qed.

Lemma render_fields s :
  camera (render s) = camera s /\ width (render s) = width s
  /\ height (render s) = height s /\ _geometry (render s) = _geometry s
  /\ renderSettings (render s) = renderSettings s.
Proof.
  unfold render.
  destruct (postProcessor s) as [p|]; [|repeat split].
  destruct (renderSettings s) as [settings|]; [|repeat split].
  destruct (_allEffectsOff settings); cbn [negb]; [repeat split|].
  destruct (PostProcessor.render _ p settings) as [w' p']. repeat split.
Qed.

(** X18.  [render] accumulates: whatever the settings, it leaves in the
    accumulation target the lines of the geometry drawn over what the
    target held, never a cleared target, and it does not touch the
    geometry.  Without a post-processor or with every effect off, the
    canvas then shows the accumulation texture and the post-processor is
    left as it was. *)
Theorem render_accumulates (s : t) :
  texture (PostProcessor.accumTarget (world (render s)))
  = Lines (SpiralGeometry.contents (_geometry s))
          (option_map SpiralGeometry.opacity (SpiralGeometry.material (_geometry s)))
          (texture (PostProcessor.accumTarget (world s)))
  /\ _geometry (render s) = _geometry s
  /\ (postProcessor s = None
      \/ (exists settings, renderSettings s = Some settings
                           /\ _allEffectsOff settings = true) ->
      PostProcessor.canvas (world (render s))
      = texture (PostProcessor.accumTarget (world (render s)))
      /\ postProcessor (render s) = postProcessor s).
Proof.
  split; [|split; [exact (proj1 (proj2 (proj2 (proj2 (render_fields s)))))|]].
  - destruct (render_cases s)
      as [(p & settings & _ & _ & _ & Hw & _)|(_ & Hw & _)]; rewrite Hw.
    + rewrite (proj1 (proj2 (post_render_keeps (drawn s) p settings))).
      reflexivity.
    + reflexivity.
  - intros Hoff.
    destruct (render_cases s)
      as [(p & settings & Hp & Hs & Hon & _ & _)|(_ & Hw & Hpost)].
    + exfalso. destruct Hoff as [Hnone|(settings' & Hs' & Hoff)]; [congruence|].
      rewrite Hs in Hs'. injection Hs' as <-. congruence.
    + rewrite Hw. split; [reflexivity|exact Hpost].
Qed.

Lemma setSize_dims rt w h :
  (rtWidth (setSize rt w h), rtHeight (setSize rt w h)) = (w, h).
Proof.
  unfold setSize.
  destruct (Z.eqb_spec (rtWidth rt) w) as [<-|_];
    [destruct (Z.eqb_spec (rtHeight rt) h) as [<-|_]|]; reflexivity.
Qed.

Lemma setSize_width rt w h : rtWidth (setSize rt w h) = w.
Proof. exact (f_equal fst (setSize_dims rt w h)). Qed.

Lemma setSize_height rt w h : rtHeight (setSize rt w h) = h.
Proof. exact (f_equal snd (setSize_dims rt w h)). Qed.

Lemma post_resize_layout w p width height :
  PostProcessor.ready p = true ->
  layout w (PostProcessor.resize w p width height)
  = (pixelRatio (PostProcessor.gl w),
     (cssWidth (PostProcessor.gl w), cssHeight (PostProcessor.gl w)),
     (rtWidth (PostProcessor.accumTarget w), rtHeight (PostProcessor.accumTarget w)),
     (physical width (pixelRatio (PostProcessor.gl w)),
      physical height (pixelRatio (PostProcessor.gl w))),
     (physical width (pixelRatio (PostProcessor.gl w)),
      physical height (pixelRatio (PostProcessor.gl w))),
     (width, height), (width, height), true)
  /\ PostProcessor.trailWriteIdx (PostProcessor.resize w p width height)
     = PostProcessor.trailWriteIdx p.
Proof.
  intros Hready. unfold PostProcessor.resize, layout. rewrite Hready.
  cbn [negb]. cbn -[setSize physical].
  rewrite !setSize_dims. rewrite Hready. split; [|reflexivity].
  repeat f_equal;
    (destruct (Z.eqb_spec (PostProcessor.composerWidth (PostProcessor.composer p)) width)
       as [<-|_];
     [destruct (Z.eqb_spec (PostProcessor.composerHeight (PostProcessor.composer p)) height)
        as [<-|_]|]; reflexivity).
Qed.

Lemma resolution_setLineWidth g w :
  option_map SpiralGeometry.resolution
    (SpiralGeometry.material (SpiralGeometryCalls.setLineWidth g w))
  = option_map SpiralGeometry.resolution (SpiralGeometry.material g).
Proof.
  cbn [SpiralGeometryCalls.setLineWidth SpiralGeometry.material].
  destruct (SpiralGeometry.material g); reflexivity.
Qed.

Lemma resolution_appendSegment g seg :
  option_map SpiralGeometry.resolution
    (SpiralGeometry.material (SpiralGeometry.appendSegment g seg))
  = option_map SpiralGeometry.resolution (SpiralGeometry.material g).
Proof.
  unfold SpiralGeometry.appendSegment. cbn [SpiralGeometry.material].
  destruct (SpiralGeometry.MAX_SEGMENTS <=? SpiralGeometry.segmentCount g)%nat;
    cbn [SpiralGeometry._dropOldest SpiralGeometry.material];
    destruct (SpiralGeometry.material g); reflexivity.
Qed.

Lemma in_step_init w h dpr : in_step (init w h dpr).
Proof.
  split; try reflexivity. intros p Hp. discriminate Hp.
Qed.


(** A call that changes no size keeps the sizes in step. *)
Lemma in_step_transfer s s' :
  in_step s ->
  width s' = width s -> height s' = height s -> camera s' = camera s ->
  option_map SpiralGeometry.resolution (SpiralGeometry.material (_geometry s'))
  = option_map SpiralGeometry.resolution (SpiralGeometry.material (_geometry s)) ->
  (pixelRatio (PostProcessor.gl (world s')),
   (cssWidth (PostProcessor.gl (world s')), cssHeight (PostProcessor.gl (world s'))),
   (rtWidth (PostProcessor.accumTarget (world s')),
    rtHeight (PostProcessor.accumTarget (world s'))))
  = (pixelRatio (PostProcessor.gl (world s)),
     (cssWidth (PostProcessor.gl (world s)), cssHeight (PostProcessor.gl (world s))),
     (rtWidth (PostProcessor.accumTarget (world s)),
      rtHeight (PostProcessor.accumTarget (world s)))) ->
  (forall p', postProcessor s' = Some p' ->
     exists p, postProcessor s = Some p
       /\ layout (world s') p' = layout (world s) p
       /\ (PostProcessor.trailWriteIdx p' = PostProcessor.trailWriteIdx p
           \/ PostProcessor.trailWriteIdx p' = (1 - PostProcessor.trailWriteIdx p)%Z
           \/ PostProcessor.trailWriteIdx p' = 0%Z)) ->
  in_step s'.
Proof.
  intros [Hcss Hacc Hcam Hres Hpost] Hw Hh Hc Hr Hworld Hp.
  injection Hworld as Hdpr Hcw Hch Haw Hah.
  split; rewrite ?Hw, ?Hh, ?Hc, ?Hr, ?Hdpr, ?Hcw, ?Hch, ?Haw, ?Hah;
    try assumption.
  intros p' Hp'. destruct (Hp p' Hp') as (p & Hsp & Hlay & Hidx).
  destruct (Hpost p Hsp) as [Hl Hi]. rewrite Hlay. split; [exact Hl|lia].
Qed.

Lemma layout_world w w' p :
  (pixelRatio (PostProcessor.gl w'),
   (cssWidth (PostProcessor.gl w'), cssHeight (PostProcessor.gl w')),
   (rtWidth (PostProcessor.accumTarget w'), rtHeight (PostProcessor.accumTarget w')))
  = (pixelRatio (PostProcessor.gl w),
     (cssWidth (PostProcessor.gl w), cssHeight (PostProcessor.gl w)),
     (rtWidth (PostProcessor.accumTarget w), rtHeight (PostProcessor.accumTarget w))) ->
  layout w' p = layout w p.
Proof.
  intros H. injection H as H1 H2 H3 H4 H5. unfold layout.
  rewrite H1, H2, H3, H4, H5. reflexivity.
Qed.

Lemma layout_fst w w' p p' :
  layout w' p' = layout w p ->
  (pixelRatio (PostProcessor.gl w'),
   (cssWidth (PostProcessor.gl w'), cssHeight (PostProcessor.gl w')),
   (rtWidth (PostProcessor.accumTarget w'), rtHeight (PostProcessor.accumTarget w')))
  = (pixelRatio (PostProcessor.gl w),
     (cssWidth (PostProcessor.gl w), cssHeight (PostProcessor.gl w)),
     (rtWidth (PostProcessor.accumTarget w), rtHeight (PostProcessor.accumTarget w))).
Proof.
  unfold layout. intros H. injection H as H1 H2 H3 H4 H5 _ _ _ _ _ _ _ _.
  rewrite H1, H2, H3, H4, H5. reflexivity.
Qed.

Lemma in_step_render s : in_step s -> in_step (render s).
Proof.
  intros H. destruct (render_fields s) as (Hc & Hw & Hh & Hg & _).
  assert (Hdrawn : forall p, layout (drawn s) p = layout (world s) p)
    by (intros p; reflexivity).
  destruct (render_cases s)
    as [(p & settings & Hp & Hs & Hoff & Hworld & Hpost)|(_ & Hworld & Hpost)].
  - destruct (post_render_keeps (drawn s) p settings) as (Hlay & _ & Hidx).
    rewrite Hdrawn in Hlay.
    apply (in_step_transfer s); try assumption; try (rewrite Hg; reflexivity).
    + rewrite Hworld. exact (layout_fst _ _ _ _ Hlay).
    + intros p' Hp'. exists p. split; [exact Hp|].
      rewrite Hpost in Hp'. injection Hp' as <-. rewrite Hworld.
      split; [exact Hlay|]. destruct Hidx as [Hi|Hi]; auto.
  - apply (in_step_transfer s); try assumption; try (rewrite Hg; reflexivity).
    + rewrite Hworld. reflexivity.
    + intros p' Hp'. exists p'. rewrite Hpost in Hp'.
      split; [exact Hp'|]. rewrite Hworld. split; [reflexivity|left; reflexivity].
Qed.

Lemma in_step_clear s : in_step s -> in_step (clear s).
Proof.
  intros H. unfold clear.
  set (w0 := blit_screen _).
  assert (Hw0 : forall p, layout w0 p = layout (world s) p)
    by (intros p; reflexivity).
  destruct (postProcessor s) as [p|] eqn:Hp.
  - destruct (clearTrail_keeps w0 p) as (Hlay & _ & _ & _ & Hidx).
    rewrite Hw0 in Hlay.
    destruct (PostProcessor.clearTrail w0 p) as [w' p'] eqn:Hct.
    cbn [fst snd] in *.
    apply (in_step_transfer s); try assumption; try reflexivity.
    + exact (layout_fst _ _ _ _ Hlay).
    + intros p'' Hp''. cbn [postProcessor] in Hp''. injection Hp'' as <-.
      exists p. split; [exact Hp|]. cbn [world]. split; [exact Hlay|].
      destruct Hidx as [Hi|Hi]; auto.
  - apply (in_step_transfer s); try assumption; try reflexivity.
    intros p' Hp'. cbn [postProcessor] in Hp'. discriminate Hp'.
Qed.

Lemma in_step_resize s w h : in_step s -> in_step (resize s w h).
Proof.
  intros H. unfold resize.
  destruct ((w =? width s)%Z && (h =? height s)%Z); [exact H|].
  destruct H as [Hcss Hacc Hcam Hres Hpost]. cbv zeta.
  set (W2 := PostProcessor.mkWorld _ _ _).
  assert (HW2 : pixelRatio (PostProcessor.gl W2)
                = pixelRatio (PostProcessor.gl (world s))
                /\ cssWidth (PostProcessor.gl W2) = w
                /\ cssHeight (PostProcessor.gl W2) = h
                /\ rtWidth (PostProcessor.accumTarget W2)
                   = physical w (pixelRatio (PostProcessor.gl (world s)))
                /\ rtHeight (PostProcessor.accumTarget W2)
                   = physical h (pixelRatio (PostProcessor.gl (world s)))).
  { unfold W2. cbn [PostProcessor.gl PostProcessor.accumTarget
                    PostProcessor.with_gl setRendererSize pixelRatio
                    cssWidth cssHeight].
    rewrite setSize_width, setSize_height. repeat split. }
  destruct HW2 as (Hd2 & Hcw2 & Hch2 & Haw2 & Hah2).
  split; cbn [world camera width height _geometry postProcessor].
  - rewrite Hcw2, Hch2. reflexivity.
  - rewrite Haw2, Hah2, Hd2. reflexivity.
  - reflexivity.
  - cbn [SpiralGeometry.setResolution SpiralGeometry.material].
    destruct (SpiralGeometry.material (_geometry s)); [reflexivity|discriminate Hres].
  - intros p' Hp'. destruct (postProcessor s) as [p|]; [|discriminate Hp'].
    cbn [option_map] in Hp'. injection Hp' as <-.
    destruct (Hpost p eq_refl) as [Hl Hi].
    assert (Hready : PostProcessor.ready p = true) by exact (f_equal snd Hl).
    destruct (post_resize_layout W2 p w h Hready) as [Hl2 Hi2].
    rewrite Hl2, Hi2, Hd2, Hcw2, Hch2, Haw2, Hah2.
    split; [reflexivity|exact Hi].
Qed.

Lemma in_step_perform s c : in_step s -> in_step (perform s c).
Proof.
  intros H. destruct c as [settings|settings|w h|w|seg| |]; cbn [perform].
  - destruct H as [Hcss Hacc Hcam Hres Hpost].
    split; cbn [initPostProcessing world camera width height _geometry
                postProcessor]; try assumption.
    intros p Hp. injection Hp as <-. split; [|left; reflexivity].
    unfold layout, PostProcessor.init.
    cbn [PostProcessor.trailTargetA PostProcessor.trailTargetB
         PostProcessor.composer PostProcessor.bloomPass PostProcessor.ready
         PostProcessor.bloomResolution PostProcessor.composerWidth
         PostProcessor.composerHeight rtWidth rtHeight].
    rewrite Hcss, Hacc. reflexivity.
  - apply (in_step_transfer s); try assumption; try reflexivity.
    intros p Hp. exists p. split; [exact Hp|].
    split; [reflexivity|left; reflexivity].
  - apply in_step_resize, H.
  - apply (in_step_transfer s); try assumption; try reflexivity.
    + apply resolution_setLineWidth.
    + intros p Hp. exists p. split; [exact Hp|].
      split; [reflexivity|left; reflexivity].
  - apply (in_step_transfer s); try assumption; try reflexivity.
    + apply resolution_appendSegment.
    + intros p Hp. exists p. split; [exact Hp|].
      split; [reflexivity|left; reflexivity].
  - apply in_step_render, H.
  - apply in_step_clear, H.
Qed.

Lemma pixelRatio_perform s c :
  pixelRatio (PostProcessor.gl (world (perform s c)))
  = pixelRatio (PostProcessor.gl (world s)).
Proof.
  destruct c as [settings|settings|w' h'|w'|seg| |]; cbn [perform];
    try reflexivity.
  - unfold resize. destruct ((w' =? width s)%Z && (h' =? height s)%Z);
      reflexivity.
  - destruct (render_cases s)
      as [(p & settings & _ & _ & _ & Hworld & _)|(_ & Hworld & _)];
      rewrite Hworld; [|reflexivity].
    pose proof (proj1 (post_render_keeps (drawn s) p settings)) as Hlay.
    exact (f_equal fst (f_equal fst (layout_fst _ _ _ _ Hlay))).
  - unfold clear. set (w0 := blit_screen _).
    destruct (postProcessor s) as [p|]; [|reflexivity].
    pose proof (proj1 (clearTrail_keeps w0 p)) as Hlay.
    destruct (PostProcessor.clearTrail w0 p) as [w1 p1]. cbn [fst snd] in Hlay.
    exact (f_equal fst (f_equal fst (layout_fst _ _ _ _ Hlay))).
Qed.

(** X19.  The sizes stay in step.  After [init] on a canvas and any
    sequence of [initPostProcessing], [updateRenderSettings], [resize],
    [setLineWidth], [addLineSegment], [render] and [clear] calls: the WebGL
    renderer and the composer have the renderer's size in CSS pixels, the
    accumulation target and both trail targets have that size times the
    pixel ratio, rounded, the camera's frustum and the line material's
    resolution are those of that size, and the trail write index is 0
    or 1. *)
Theorem renderer_sizes_stay_in_step (w h : Z) (dpr : Q) (calls : list call) :
  in_step (life w h dpr calls)
  /\ pixelRatio (PostProcessor.gl (world (life w h dpr calls))) = dpr.
Proof.
  unfold life. induction calls as [|c calls IH] using rev_ind.
  - split; [apply in_step_init|reflexivity].
  - rewrite fold_left_app. cbn [fold_left]. destruct IH as [IH Hdpr].
    split; [exact (in_step_perform _ c IH)|].
    rewrite pixelRatio_perform. exact Hdpr.
Qed.

End RendererCallsFacts.

(** ** The animation loop *)

Module LoopFacts.

Import JS SpiralAnimationLoop.

Lemma filter_handle {A} (h : nat) (x : A) :
  filter (fun f : nat * A => fst f <> h) [(h, x)] = [].
Proof.
  rewrite filter_cons. cbn [fst]. destruct (decide (h <> h)) as [Hne|_];
    [exfalso; apply Hne; reflexivity|reflexivity].
Qed.

(** [stopLoop] cancels a callback that the handle references name. *)
Lemma stopLoop_clears s :
  (frames s = [] /\ timeouts s = [])
  \/ (exists steps, frames s = [(default 0%nat (rafId s), steps)]
                    /\ rafId s <> None /\ timeouts s = [])
  \/ (exists job, timeouts s = [(default 0%nat (timeoutId s), job)]
                  /\ timeoutId s <> None /\ frames s = []) ->
  frames (stopLoop s) = [] /\ timeouts (stopLoop s) = []
  /\ isPaused (stopLoop s) = isPaused s /\ ticks (stopLoop s) = ticks s.
Proof.
  unfold stopLoop.
  intros [[Hf Ht]|[(steps & Hf & Hr & Ht)|(job & Ht & Hr & Hf)]];
    destruct (rafId s) as [h|] eqn:Hraf, (timeoutId s) as [h'|] eqn:Htid;
    cbn [isPaused rafId timeoutId frames timeouts ticks default] in *;
    rewrite ?Hraf, ?Htid; cbn [isPaused rafId timeoutId frames timeouts ticks];
    rewrite ?Hf, ?Ht, ?filter_handle, ?filter_nil;
    try (exfalso; apply Hr; reflexivity);
    repeat split; reflexivity.
Qed.

Lemma one_chain_tracked s :
  one_chain s ->
  (frames s = [] /\ timeouts s = [])
  \/ (exists steps, frames s = [(default 0%nat (rafId s), steps)]
                    /\ rafId s <> None /\ timeouts s = [])
  \/ (exists job, timeouts s = [(default 0%nat (timeoutId s), job)]
                  /\ timeoutId s <> None /\ frames s = []).
Proof.
  unfold one_chain. destruct (isPaused s); [left|right]; assumption.
Qed.

Lemma one_chain_scheduleNext speed steps s :
  isPaused s = false -> frames s = [] -> timeouts s = [] ->
  one_chain (scheduleNext speed steps s)
  /\ ticks (scheduleNext speed steps s) = ticks s.
Proof.
  intros Hp Hf Ht. unfold scheduleNext, one_chain. rewrite Hp.
  destruct (Math_max 0 speed =? 0)%float;
    cbn [request_frame isPaused frames timeouts rafId timeoutId ticks default];
    rewrite ?Hp, ?Hf, ?Ht; (split; [|reflexivity]).
  - left. eexists. repeat split. discriminate.
  - right. eexists. repeat split. discriminate.
Qed.

Lemma one_chain_handle s ev : one_chain s -> one_chain (handle s ev).
Proof.
  intros H. destruct ev as [speed steps| |speed steps|h|h speed steps];
    cbn [handle].
  - unfold play. destruct (isPaused s) eqn:Hp; cbn [negb]; [|exact H].
    unfold one_chain in H. rewrite Hp in H. destruct H as [Hf Ht].
    apply one_chain_scheduleNext; [reflexivity|exact Hf|exact Ht].
  - unfold pause.
    destruct (stopLoop_clears (set_paused true s) (one_chain_tracked s H))
      as (Hf & Ht & Hp & _).
    unfold one_chain. rewrite Hp. cbn [set_paused isPaused]. split; assumption.
  - unfold restart.
    destruct (stopLoop_clears s (one_chain_tracked s H)) as (Hf & Ht & _ & _).
    apply one_chain_scheduleNext; [reflexivity|exact Hf|exact Ht].
  - unfold fire_timeout.
    destruct (list_find _ (timeouts s)) as [[i [h0 [delay steps]]]|] eqn:Hfind;
      [|exact H].
    apply list_find_Some in Hfind as (Hi & _ & _).
    unfold one_chain in H. destruct (isPaused s) eqn:Hp.
    + destruct H as [_ Ht]. rewrite Ht in Hi. discriminate Hi.
    + destruct H as [(st & _ & _ & Ht)|(job & Ht & Hr & Hf)];
        [rewrite Ht in Hi; discriminate Hi|].
      rewrite Ht in Hi. destruct i as [|i]; [|discriminate Hi].
      unfold one_chain.
      cbn [request_frame isPaused frames timeouts rafId timeoutId nextHandle
           default].
      rewrite ?Hp, ?Hf, ?Ht. left. eexists. repeat split. discriminate.
  - unfold fire_frame.
    destruct (list_find _ (frames s)) as [[i [h0 steps0]]|] eqn:Hfind;
      [|exact H].
    apply list_find_Some in Hfind as (Hi & _ & _).
    unfold one_chain in H. destruct (isPaused s) eqn:Hp.
    + destruct H as [Hf _]. rewrite Hf in Hi. discriminate Hi.
    + destruct H as [(st & Hf & Hr & Ht)|(job & _ & _ & Hf)];
        [|rewrite Hf in Hi; discriminate Hi].
      rewrite Hf in Hi. destruct i as [|i]; [|discriminate Hi].
      apply one_chain_scheduleNext; cbn [isPaused frames timeouts];
        [first [exact Hp|reflexivity]|rewrite Hf; reflexivity|exact Ht].
Qed.

Lemma one_chain_mount speed steps : one_chain (mount speed steps).
Proof. apply one_chain_scheduleNext; reflexivity. Qed.

Lemma one_chain_run events : forall s, one_chain s -> one_chain (run events s).
Proof.
  induction events as [|ev events IH]; intros s H; [exact H|].
  unfold run in *. cbn [fold_left]. apply IH, one_chain_handle, H.
Qed.

(** X20.  The animation loop keeps one callback chain.  From the mount of
    the hook on, whatever [play], [pause] and [restart] calls and callback
    firings follow: while paused no animation-frame or timeout callback is
    pending; while running exactly one is; each pending callback is the one
    named by [rafIdRef] or [timeoutIdRef], so that [stopLoop], which the
    unmount cleanup calls, leaves none pending. *)
Theorem loop_keeps_one_callback_chain
  (speed stepsPerFrame : float) (events : list event) :
  let s := run events (mount speed stepsPerFrame) in
  (isPaused s = true -> frames s = [] /\ timeouts s = [])
  /\ (isPaused s = false -> (length (frames s) + length (timeouts s) = 1)%nat)
  /\ (forall h steps, (h, steps) ∈ frames s -> rafId s = Some h)
  /\ (forall h job, (h, job) ∈ timeouts s -> timeoutId s = Some h)
  /\ frames (stopLoop s) = [] /\ timeouts (stopLoop s) = [].
Proof.
  cbn zeta.
  pose proof (one_chain_run events _ (one_chain_mount speed stepsPerFrame)) as H.
  set (s := run events (mount speed stepsPerFrame)) in *.
  destruct (stopLoop_clears s (one_chain_tracked s H)) as (Hsf & Hst & _ & _).
  unfold one_chain in H.
  destruct (isPaused s) eqn:Hp.
  - destruct H as [Hf Ht]. rewrite Hf, Ht.
    repeat split; try assumption; try discriminate;
      intros h x Hin; inversion Hin.
  - split; [discriminate|].
    destruct H as [(st & Hf & Hr & Ht)|(job & Ht & Hr & Hf)]; rewrite Hf, Ht;
      (split; [reflexivity|]); (split; [|split; [|split; assumption]]);
      intros h x Hin; try (inversion Hin; fail);
      apply list_elem_of_singleton in Hin; injection Hin as -> _.
    + destruct (rafId s); [reflexivity|exfalso; apply Hr; reflexivity].
    + destruct (timeoutId s); [reflexivity|exfalso; apply Hr; reflexivity].
Qed.

Lemma paused_handle s ev :
  isPaused s = true -> frames s = [] -> timeouts s = [] -> keeps_paused ev ->
  isPaused (handle s ev) = true /\ frames (handle s ev) = []
  /\ timeouts (handle s ev) = [] /\ ticks (handle s ev) = ticks s.
Proof.
  intros Hp Hf Ht Hev.
  destruct ev as [speed steps| |speed steps|h|h speed steps];
    cbn [handle keeps_paused] in *; try contradiction.
  - unfold pause.
    destruct (stopLoop_clears (set_paused true s)) as (Hf' & Ht' & Hp' & Hk').
    { left. split; assumption. }
    rewrite Hp', Hk'. repeat split; assumption.
  - unfold fire_timeout. rewrite Ht. cbn. repeat split; assumption.
  - unfold fire_frame. rewrite Hf. cbn. repeat split; assumption.
Qed.

Lemma paused_run events : forall s,
  isPaused s = true -> frames s = [] -> timeouts s = [] ->
  Forall keeps_paused events ->
  isPaused (run events s) = true /\ frames (run events s) = []
  /\ timeouts (run events s) = [] /\ ticks (run events s) = ticks s.
Proof.
  induction events as [|ev events IH]; intros s Hp Hf Ht Hevs;
    [repeat split; assumption|].
  apply Forall_cons in Hevs as [Hev Hevs]. unfold run in *. cbn [fold_left].
  destruct (paused_handle s ev Hp Hf Ht Hev) as (Hp' & Hf' & Ht' & Hk').
  destruct (IH _ Hp' Hf' Ht' Hevs) as (Hp2 & Hf2 & Ht2 & Hk2).
  rewrite Hk2, Hk'. repeat split; assumption.
Qed.

(** X21.  Nothing is drawn while paused.  After [pause], whatever
    callbacks the browser still tries to run and however often [pause] is
    called again, no tick runs, and no callback is pending, until [play] or
    [restart] is called. *)
Theorem no_tick_while_paused
  (speed stepsPerFrame : float) (events later : list event) :
  Forall keeps_paused later ->
  let s := run events (mount speed stepsPerFrame) in
  ticks (run later (pause s)) = ticks s
  /\ isPaused (run later (pause s)) = true
  /\ frames (run later (pause s)) = []
  /\ timeouts (run later (pause s)) = [].
Proof.
  intros Hlater. cbn zeta.
  pose proof (one_chain_run events _ (one_chain_mount speed stepsPerFrame)) as H.
  set (s := run events (mount speed stepsPerFrame)) in *.
  destruct (stopLoop_clears (set_paused true s) (one_chain_tracked s H))
    as (Hf & Ht & Hp & Hk).
  fold (pause s) in Hf, Ht, Hp, Hk. cbn [set_paused isPaused ticks] in Hp, Hk.
  destruct (paused_run later (pause s) Hp Hf Ht Hlater) as (Hp' & Hf' & Ht' & Hk').
  rewrite Hk', Hk. repeat split; assumption.
Qed.

Lemma no_tick_while_paused_witness :
  let s := run [FrameFires 0 16 1; TimeoutFires 1] (mount 0 2) in
  ticks (run [TimeoutFires 1; FrameFires 2 0 1; Pause] (pause s)) = [2%float]
  /\ frames s = [(2%nat, 1%float)].
Proof.
  cbn zeta. split; [|vm_compute; reflexivity].
  rewrite (proj1 (no_tick_while_paused 0 2 [FrameFires 0 16 1; TimeoutFires 1]
                    [TimeoutFires 1; FrameFires 2 0 1; Pause]
                    ltac:(repeat constructor))).
  vm_compute. reflexivity.
Defined.

End LoopFacts.

(** ** The FM ratio *)

Module SnapRangeFacts.

Import JS MusicHelpers FloatOrder SnapFacts.
Local Open Scope float_scope.

(** X22.  The snapped FM ratio is always within [1, 8]: for every input
    but NaN, [snapToSimpleRatio] returns a number between 1 and 8, an entry
    of the table of simple ratios or the clamped input. *)
Theorem snapToSimpleRatio_range (ratio : float) :
  is_nan ratio = false ->
  (1 <=? snapToSimpleRatio ratio) = true
  /\ (snapToSimpleRatio ratio <=? 8) = true
  /\ (In (snapToSimpleRatio ratio) SIMPLE_RATIOS
      \/ snapToSimpleRatio ratio = clamp_ratio ratio).
Proof.
  intros Hnan.
  destruct (clamp_ratio_range ratio Hnan) as [Hlo Hhi].
  unfold snapToSimpleRatio.
  set (clamped := clamp_ratio ratio) in *.
  change (nth 0 SIMPLE_RATIOS nan) with 1.
  destruct (snap_loop_inv clamped SIMPLE_RATIOS (1, infinity)) as [_ Hres].
  cbn zeta in Hres.
  destruct (snap_loop clamped SIMPLE_RATIOS (1, infinity)) as [best bestDist].
  cbn [snd] in Hres.
  assert (Hbest : In best SIMPLE_RATIOS).
  { destruct Hres as [Hres|[_ [b [Hb Hres]]]]; injection Hres as -> ->;
      [left; reflexivity|exact Hb]. }
  destruct (bestDist <? 0.15); [|repeat split; try assumption; right; reflexivity].
  split; [|split; [|left; exact Hbest]];
    cbn in Hbest;
    repeat (destruct Hbest as [<-|Hbest]; [reflexivity|]); destruct Hbest.
Qed.

Lemma snapToSimpleRatio_range_witness :
  (1 <=? snapToSimpleRatio 100) = true /\ (snapToSimpleRatio 100 <=? 8) = true.
Proof.
  destruct (snapToSimpleRatio_range 100 eq_refl) as (H1 & H8 & _).
  split; assumption.
Defined.

End SnapRangeFacts.

(** ** The voices a melody note takes *)

Module VoiceUseFacts.

Import JS QOps WebAudio SpiralMusicEngine SpiralMusicTimers MusicFacts.
Local Open Scope Q_scope.






Section Note.

Variable rnd : nat -> Q.
Hypothesis rnd_range : forall n, 0 <= rnd n /\ rnd n < 1.



End Note.


End VoiceUseFacts.

(** ** The noise burst of a sparkle *)

Module SparkleFacts.

Import JS QOps WebAudio SpiralMusicEngine MusicFacts EnvelopeFacts.
Local Open Scope Q_scope.

(** The timeline a burst leaves on the noise gain. *)
Lemma burst_events now burst peak p :
  0.004 <= burst ->
  events (linearRampToValueAtTime 0 (now + burst)
            (linearRampToValueAtTime peak (now + 0.004)
               (setValueAtTime 0 now (cancelScheduledValues now p))))
  = filter (fun x => Qltb (ev_time x) now = true) (events p)
    ++ [SetValue 0 now; LinearRamp peak (now + 0.004);
        LinearRamp 0 (now + burst)].
Proof.
  intros Hb. cbn [linearRampToValueAtTime setValueAtTime events].
  pose proof (cancelled_events now p) as Hold.
  cbn [cancelScheduledValues events] in *.
  set (old := filter (fun x => Qltb (ev_time x) now = true) (events p)) in *.
  assert (Hold' : forall t, now <= t -> Forall (fun x => ev_time x <= t) old).
  { intros t Ht. eapply Forall_impl; [exact Hold|]. intros x Hx. cbn beta in *. lra. }
  rewrite (insert_event_last (SetValue 0 now) old)
    by (apply Hold'; cbn; lra).
  rewrite (insert_event_last (LinearRamp peak (now + 0.004)))
    by (apply Forall_app; split;
        [apply Hold'; cbn; lra|repeat constructor; cbn; lra]).
  rewrite (insert_event_last (LinearRamp 0 (now + burst)))
    by (apply Forall_app; split;
        [apply Forall_app; split;
         [apply Hold'; cbn; lra|repeat constructor; cbn; lra]
        |repeat constructor; cbn; lra]).
  rewrite <- !app_assoc. reflexivity.
Qed.

(** X24.  A sparkle is a short, quiet burst.  After [_scheduleSparkle]
    has run at time [now] (the later of the audio time and the sparkle
    clock), with draws in [0, 1) and whatever the noise gain's timeline
    held before: the noise gain is 0 at [now], stays within 0..0.15 from
    [now] on, and is 0 again from [now] + 0.15 s on. *)
Theorem sparkle_burst_is_short_and_quiet
  (rnd : nat -> Q) (ln : Q -> Q) (c : Clock) (e : t) (k : nat)
  (a : AudioState) (t : Q) :
  ctx e = true -> audioState e = Some a -> noise e = true ->
  (forall n, 0 <= rnd n /\ rnd n < 1) ->
  let now := Qmax2 (laterTime c Sparkle) (sparkle (nextTime e)) in
  let g := noiseGain (fst (_scheduleSparkle rnd ln c (e, k))) in
  now <= t ->
  0 <= valueAt g t /\ valueAt g t <= 0.15
  /\ valueAt g now == 0
  /\ (now + 0.15 <= t -> valueAt g t == 0).
Proof.
  intros Hctx Has Hnoise Hr. cbn zeta. intros Ht.
  unfold _scheduleSparkle. rewrite Hctx, Has, Hnoise.
  cbn [fst set_nextTime set_noiseGain noiseGain].
  set (now := Qmax2 (laterTime c Sparkle) (sparkle (nextTime e))) in *.
  destruct (Hr (k + 3)%nat) as [Hb0 Hb1]. destruct (Hr (k + 4)%nat) as [Hp0 Hp1].
  set (burst := 0.03 + rnd (k + 3)%nat * 0.12) in *.
  set (peak := 0.07 + rnd (k + 4)%nat * 0.08) in *.
  assert (Hburst : 0.03 <= burst /\ burst < 0.15) by (unfold burst; lra).
  assert (Hpeak : 0.07 <= peak /\ peak < 0.15) by (unfold peak; lra).
  clearbody burst peak.
  unfold valueAt. rewrite burst_events by lra.
  pose proof (cancelled_events now (noiseGain e)) as Hold.
  cbn [cancelScheduledValues events] in Hold.
  rewrite !(value_from_skip _ _ 0 now _ Hold) by lra.
  cbn [value_from ev_time ev_value].
  assert (Hnow : Qltb now (now + 0.004) = true) by (apply Qltb_lt; lra).
  rewrite Hnow.
  assert (Hstart : 0 + (peak - 0) * ((now - now) / (now + 0.004 - now)) == 0).
  { field. lra. }
  destruct (Qltb t (now + 0.004)) eqn:H1.
  { apply Qltb_lt in H1.
    destruct (fraction_range now t (now + 0.004)) as [Hf0 Hf1]; try lra.
    set (f := (t - now) / (now + 0.004 - now)) in *.
    repeat split; first [exact Hstart|nra|intros; nra]. }
  apply Qltb_ge in H1.
  destruct (Qltb t (now + burst)) eqn:H2.
  { apply Qltb_lt in H2.
    destruct (fraction_range (now + 0.004) t (now + burst)) as [Hf0 Hf1]; try lra.
    set (f := (t - (now + 0.004)) / (now + burst - (now + 0.004))) in *.
    repeat split; first [exact Hstart|nra|intros; nra]. }
  apply Qltb_ge in H2. repeat split; first [exact Hstart|lra|intros; lra].
Qed.

Lemma sparkle_burst_is_short_and_quiet_witness :
  let g := noiseGain (fst (_scheduleSparkle (fun _ => 1 # 2) (fun _ => - (1))
                             (steady 1) (sample_engine, 0%nat))) in
  0 <= valueAt g 1.05 /\ valueAt g 1.05 <= 0.15.
Proof.
  destruct (sparkle_burst_is_short_and_quiet (fun _ => 1 # 2) (fun _ => - (1))
              (steady 1) sample_engine 0 (mkAudioState 0.5 true true true) 1.05)
    as (H0 & H1 & _);
    [reflexivity|reflexivity|reflexivity|exact MusicExamples.half_in_range
    |vm_compute; discriminate|].
  cbn zeta. split; assumption.
Defined.

End SparkleFacts.
